(** * XEX-mode encrypted non-volatile storage (xex.c)

    A shallow embedding of [xex.c] of the hardware Bitcoin wallet: the
    GF(2^128) doubler, the XEX tweakable block cipher built on AES, the
    module-global key state and the encrypted read/write adapter that sits on
    top of the raw non-volatile storage driver.

    Conventions.
    - A [uint8_t] or [uint32_t] is a [Z]; every conversion to the unsigned
      type is written out ([u8], [u32]).
    - A C array is a [list Z], read with [rd] and written with [wr]
      (index-based, as the C code does).
    - AES ([aes.h]) and the raw storage driver ([hwinterface.h]) are
      interfaces, given as type classes; their laws are separate classes that
      appear as hypotheses of the theorems that need them. *)

From Stdlib Require Import ZArith List Lia Bool.
From Stdlib Require String.
From stdpp Require Import base list gmap.

Local Open Scope Z_scope.

(** ** Machine integers and arrays *)

(** Conversion to [uint8_t]. *)
Definition u8 (x : Z) : Z := x mod 256.

(** Conversion to [uint32_t]. *)
Definition u32 (x : Z) : Z := x mod 2 ^ 32.

(** [a[i]]: an out-of-range read (undefined in C) yields 0. *)
Definition rd (a : list Z) (i : Z) : Z := default 0 (a !! Z.to_nat i).

(** [a[i] = v]: an out-of-range write (undefined in C) leaves the list alone. *)
Definition wr (a : list Z) (i : Z) (v : Z) : list Z := <[Z.to_nat i := v]> a.

(** [for (i = start; i < bound; i++) body] with a [uint8_t] counter.  The
    fuel is the number of iterations after which the model gives up; 256
    is enough whenever [bound <= 255] (lemma [for_u8_fold]). *)
Fixpoint for_u8 {St : Type} (fuel : nat) (i bound : Z) (body : Z -> St -> St) (s : St) : St :=
  match fuel with
  | O => s
  | S fuel' =>
      if i <? bound then for_u8 fuel' (u8 (i + 1)) bound body (body i s) else s
  end.

(** A 16-byte array of bytes. *)
Definition is_byte (x : Z) : Prop := 0 <= x < 256.

Definition is_block (b : list Z) : Prop := length b = 16%nat /\ Forall is_byte b.

(** The uninitialised contents of a local 16-byte array. *)
Definition fresh16 : list Z := replicate 16 0.

(** ** Helpers of [endian.h] and [aes.h] *)

(** Modelled from the spec: [writeU32LittleEndian] of endian.c is not part of
    the sources at hand; the spec describes it as the "little-endian 32-bit
    write into a byte buffer". *)
Definition writeU32LittleEndian (out : list Z) (in_ : Z) : list Z :=
  let out := wr out 0 (u8 in_) in
  let out := wr out 1 (u8 (Z.shiftr in_ 8)) in
  let out := wr out 2 (u8 (Z.shiftr in_ 16)) in
  let out := wr out 3 (u8 (Z.shiftr in_ 24)) in
  out.

(** Modelled from the spec: [xor16Bytes] of aes.c is not part of the sources
    at hand; the spec describes it as the "16-byte XOR of two buffers in
    place" ([r[i] ^= op1[i]] for the 16 indices). *)
Definition xor16Bytes (r op1 : list Z) : list Z :=
  for_u8 256 0 16 (fun i r => wr r i (u8 (Z.lxor (rd r i) (rd op1 i)))) r.

(** ** GF(2^128) doubling *)

(** One iteration of the shifting loop of [doubleInGF]. *)
Definition doubleInGF_step (i : Z) (st : list Z * Z) : list Z * Z :=
  let '(op1, last_bit) := st in
  let temp := u8 (Z.land (rd op1 i) 0x80) in
  let op1 := wr op1 i (u8 (Z.shiftl (rd op1 i) 1)) in
  let op1 := wr op1 i (u8 (Z.lor (rd op1 i) last_bit)) in
  let last_bit := u8 (Z.shiftr temp 7) in
  (op1, last_bit).

Definition doubleInGF (op1 : list Z) : list Z :=
  let last_bit := 0 in
  let '(op1, last_bit) := for_u8 256 0 16 doubleInGF_step (op1, last_bit) in
  let last_bit := u8 (- last_bit) in
  wr op1 0 (u8 (Z.lxor (rd op1 0) (Z.land 0x87 last_bit))).

(** The reducing polynomial x^128 + x^7 + x^2 + x + 1, as a bit vector. *)
Definition gf_poly : Z := 2 ^ 128 + 2 ^ 7 + 2 ^ 2 + 2 + 1.

(** Multiplication by x in GF(2)[x] modulo [gf_poly], on bit vectors of
    degree below 128: shift, then subtract (xor) the polynomial when the
    degree reached 128. *)
Definition gf_times_x (v : Z) : Z :=
  let w := Z.shiftl v 1 in
  if Z.testbit w 128 then Z.lxor w gf_poly else w.

(** The unsigned little-endian multi-precision value of a byte array. *)
Fixpoint le_value (b : list Z) : Z :=
  match b with
  | [] => 0
  | x :: b' => x + 256 * le_value b'
  end.

(** ** The AES interface (aes.h) *)

Class BlockCipher := {
  expanded_key : Type;
  aesExpandKey : list Z -> expanded_key;
  aesEncrypt : list Z -> expanded_key -> list Z;
  aesDecrypt : list Z -> expanded_key -> list Z
}.

(** What the development assumes of AES.  Shape: both directions map
    16-byte blocks to 16-byte blocks.  Laws: moreover decryption undoes
    encryption under the same expanded key. *)
Class BlockCipherShape (c : BlockCipher) : Prop := {
  aesEncrypt_block : forall b k, is_block b -> is_block (aesEncrypt b k);
  aesDecrypt_block : forall b k, is_block b -> is_block (aesDecrypt b k)
}.

Class BlockCipherLaws (c : BlockCipher) : Prop := {
  cipher_shape :: BlockCipherShape c;
  aesDecrypt_aesEncrypt : forall b k, is_block b -> aesDecrypt (aesEncrypt b k) k = b
}.

(** Byte-wise exclusive or of two arrays. *)
Definition xor_block (a b : list Z) : list Z := zip_with Z.lxor a b.

(** ** XEX mode *)

(** Memory for the pointer arguments of the XEX functions: a pointer is a
    key of the map, the array it points to is the value. *)
Abbreviation ptr := positive (only parsing).
Abbreviation mem := (gmap positive (list Z)) (only parsing).

Definition deref (m : mem) (p : ptr) : list Z := default [] (m !! p).

Section XEX.
Context {c : BlockCipher}.

Definition xexEnDecrypt (out in_ n : ptr) (seq : Z) (tweak_key encrypt_key : ptr)
    (is_decrypt : Z) (m : mem) : mem :=
  let expanded_key := aesExpandKey (deref m tweak_key) in
  let delta := aesEncrypt (deref m n) expanded_key in
  let delta := for_u8 256 0 seq (fun _ delta => doubleInGF delta) delta in
  let buffer := for_u8 256 0 16 (fun i buffer => wr buffer i (rd (deref m in_) i)) fresh16 in
  let buffer := xor16Bytes buffer delta in
  let expanded_key := aesExpandKey (deref m encrypt_key) in
  let m :=
    if is_decrypt =? 0
    then <[out := aesEncrypt buffer expanded_key]> m
    else <[out := aesDecrypt buffer expanded_key]> m in
  <[out := xor16Bytes (deref m out) delta]> m.

Definition xexEncrypt (out in_ n : ptr) (seq : Z) (tweak_key encrypt_key : ptr) (m : mem) : mem :=
  xexEnDecrypt out in_ n seq tweak_key encrypt_key 0 m.

Definition xexDecrypt (out in_ n : ptr) (seq : Z) (tweak_key encrypt_key : ptr) (m : mem) : mem :=
  xexEnDecrypt out in_ n seq tweak_key encrypt_key 1 m.

(** The tweak mask: [n] encrypted under the tweak key, doubled [seq] times. *)
Definition xex_delta (n : list Z) (seq : Z) (tweak_key : list Z) : list Z :=
  Nat.iter (Z.to_nat seq) doubleInGF (aesEncrypt n (aesExpandKey tweak_key)).

End XEX.

(** ** The non-volatile storage interface (hwinterface.h) *)

(** Modelled from the spec: [NonVolatileReturn] is declared in hwinterface.h,
    which is not part of the sources at hand; the spec says its values
    "include a success sentinel and opaque error codes". *)
Inductive NonVolatileReturn : Type :=
| NV_NO_ERROR
| NV_OTHER (code : Z).

(** [r != NV_NO_ERROR]. *)
Definition nv_failed (r : NonVolatileReturn) : bool :=
  match r with
  | NV_NO_ERROR => false
  | NV_OTHER _ => true
  end.

(** The raw driver: [nonVolatileRead s address length] gives the status, the
    contents of the caller's buffer afterwards and the next driver state;
    [nonVolatileWrite s data address length] gives the status and the next
    driver state. *)
Class RawStore := {
  nv_state : Type;
  nonVolatileRead : nv_state -> Z -> Z -> NonVolatileReturn * list Z * nv_state;
  nonVolatileWrite : nv_state -> list Z -> Z -> Z -> NonVolatileReturn * nv_state
}.

(** The sixteen addresses of the block that starts at [b]. *)
Definition block_addrs (b : Z) : list Z := map (fun i => b + Z.of_nat i) (seq 0 16).

(** A well-behaved driver, seen through the byte [nv_byte s x] it holds at
    address [x]: a successful 16-byte read returns the stored bytes and
    changes none; a successful 16-byte write of a block stores it and changes
    nothing else. *)
Class RawStoreLaws (rs : RawStore) (nv_byte : nv_state -> Z -> Z) : Prop := {
  nv_byte_range : forall s x, is_byte (nv_byte s x);
  nonVolatileRead_ok : forall s a d s',
    nonVolatileRead s a 16 = (NV_NO_ERROR, d, s') ->
    d = map (nv_byte s) (block_addrs a) /\ forall x, nv_byte s' x = nv_byte s x;
  nonVolatileWrite_ok : forall s d a s',
    is_block d ->
    nonVolatileWrite s d a 16 = (NV_NO_ERROR, s') ->
    forall x, nv_byte s' x = if (a <=? x) && (x <? a + 16) then rd d (x - a) else nv_byte s x
}.

(** ** The key state *)

(** The two module-global key arrays. *)
Record key_state : Type := {
  nv_storage_encrypt_key : list Z;
  nv_storage_tweak_key : list Z
}.

Definition key_state_ok (ks : key_state) : Prop :=
  is_block (nv_storage_encrypt_key ks) /\ is_block (nv_storage_tweak_key ks).

Definition setEncryptionKey (in_ : list Z) (ks : key_state) : key_state :=
  let ek := for_u8 256 0 16 (fun i ek => wr ek i (rd in_ i)) (nv_storage_encrypt_key ks) in
  let tk := for_u8 256 0 16 (fun i tk => wr tk i (rd in_ (i + 16))) (nv_storage_tweak_key ks) in
  {| nv_storage_encrypt_key := ek; nv_storage_tweak_key := tk |}.

Definition getEncryptionKey (out : list Z) (ks : key_state) : list Z :=
  let out := for_u8 256 0 16 (fun i out => wr out i (rd (nv_storage_encrypt_key ks) i)) out in
  let out := for_u8 256 0 16 (fun i out => wr out (i + 16) (rd (nv_storage_tweak_key ks) i)) out in
  out.

Definition isEncryptionKeyNonZero (ks : key_state) : Z :=
  let r := 0 in
  for_u8 256 0 16 (fun i r =>
    let r := u8 (Z.lor r (rd (nv_storage_encrypt_key ks) i)) in
    let r := u8 (Z.lor r (rd (nv_storage_tweak_key ks) i)) in
    r) r.

Definition clearEncryptionKey (ks : key_state) : key_state :=
  let ks := for_u8 256 0 16 (fun i ks =>
    let tk := wr (nv_storage_tweak_key ks) i 0xff in
    let ek := wr (nv_storage_encrypt_key ks) i 0xff in
    {| nv_storage_encrypt_key := ek; nv_storage_tweak_key := tk |}) ks in
  let ks := for_u8 256 0 16 (fun i ks =>
    let tk := wr (nv_storage_tweak_key ks) i 0 in
    let ek := wr (nv_storage_encrypt_key ks) i 0 in
    {| nv_storage_encrypt_key := ek; nv_storage_tweak_key := tk |}) ks in
  ks.

(** ** The encrypted storage adapter *)

(** What a call does to its environment, in order: the raw driver calls with
    their status, and the XEX calls with the tweak and sequence number they
    were given.  The log is an observation only; no function reads it. *)
Inductive event : Type :=
| EvRead (address len : Z) (r : NonVolatileReturn)
| EvWrite (data : list Z) (address len : Z) (r : NonVolatileReturn)
| EvXex (is_decrypt : bool) (n : list Z) (seq : Z).

Record world {rs : RawStore} : Type := {
  w_nv : nv_state;
  w_log : list event
}.

(** The arrays an adapter call hands to the XEX functions: its locals
    [plaintext], [ciphertext], [n] and the two key arrays, all distinct. *)
Definition p_plaintext : ptr := 1%positive.
Definition p_ciphertext : ptr := 2%positive.
Definition p_n : ptr := 3%positive.
Definition p_tweak_key : ptr := 4%positive.
Definition p_encrypt_key : ptr := 5%positive.

Definition adapter_mem (ks : key_state) (plaintext ciphertext n : list Z) : mem :=
  <[p_plaintext := plaintext]>
    (<[p_ciphertext := ciphertext]>
      (<[p_n := n]>
        (<[p_tweak_key := nv_storage_tweak_key ks]>
          (<[p_encrypt_key := nv_storage_encrypt_key ks]> ∅)))).

Section Adapter.
Context {c : BlockCipher} {rs : RawStore}.

Definition raw_read (w : world) (address len : Z) : NonVolatileReturn * list Z * world :=
  let '(r, buf, s) := nonVolatileRead (w_nv w) address len in
  (r, buf, {| w_nv := s; w_log := w_log w ++ [EvRead address len r] |}).

Definition raw_write (w : world) (data : list Z) (address len : Z) : NonVolatileReturn * world :=
  let '(r, s) := nonVolatileWrite (w_nv w) data address len in
  (r, {| w_nv := s; w_log := w_log w ++ [EvWrite data address len r] |}).

Definition observe (w : world) (e : event) : world :=
  {| w_nv := w_nv w; w_log := w_log w ++ [e] |}.

(** [xexDecrypt(plaintext, ciphertext, n, seq, nv_storage_tweak_key,
    nv_storage_encrypt_key)]; gives the new contents of [plaintext]. *)
Definition call_xexDecrypt (ks : key_state) (ciphertext n : list Z) (seq : Z) (w : world)
    : list Z * world :=
  let m := adapter_mem ks fresh16 ciphertext n in
  let m := xexDecrypt p_plaintext p_ciphertext p_n seq p_tweak_key p_encrypt_key m in
  (deref m p_plaintext, observe w (EvXex true n seq)).

(** [xexEncrypt(ciphertext, plaintext, n, seq, nv_storage_tweak_key,
    nv_storage_encrypt_key)]; gives the new contents of [ciphertext]. *)
Definition call_xexEncrypt (ks : key_state) (plaintext n : list Z) (seq : Z) (w : world)
    : list Z * world :=
  let m := adapter_mem ks plaintext fresh16 n in
  let m := xexEncrypt p_ciphertext p_plaintext p_n seq p_tweak_key p_encrypt_key m in
  (deref m p_ciphertext, observe w (EvXex false n seq)).

(** [while (length && block_offset < 16) { plaintext[block_offset++] = *data++; length--; }]
    where [data] is the caller's array and [pos] the offset the pointer has
    reached in it. *)
Fixpoint write_copy (fuel : nat) (plaintext data : list Z) (pos block_offset len : Z)
    : list Z * Z * Z * Z :=
  match fuel with
  | O => (plaintext, pos, block_offset, len)
  | S fuel' =>
      if negb (len =? 0) && (block_offset <? 16)
      then write_copy fuel' (wr plaintext block_offset (rd data pos)) data
             (pos + 1) (u8 (block_offset + 1)) (u8 (len - 1))
      else (plaintext, pos, block_offset, len)
  end.

(** [while (length && block_offset < 16) { *data++ = plaintext[block_offset++]; length--; }] *)
Fixpoint read_copy (fuel : nat) (plaintext data : list Z) (pos block_offset len : Z)
    : list Z * Z * Z * Z :=
  match fuel with
  | O => (data, pos, block_offset, len)
  | S fuel' =>
      if negb (len =? 0) && (block_offset <? 16)
      then read_copy fuel' plaintext (wr data pos (rd plaintext block_offset))
             (pos + 1) (u8 (block_offset + 1)) (u8 (len - 1))
      else (data, pos, block_offset, len)
  end.

(** The block loop of [encryptedNonVolatileWrite].  [fuel] bounds the number
    of iterations the model follows; the result is [None] when the loop is
    still running after that many, and the world reached so far comes with
    it.  The arrays [ciphertext] and [plaintext] are overwritten in full
    before they are read in each iteration, so they are not carried over. *)
Fixpoint write_loop (fuel : nat) (ks : key_state) (block_start block_end block_offset : Z)
    (n data : list Z) (pos len : Z) (w : world) : option NonVolatileReturn * world :=
  match fuel with
  | O => (None, w)
  | S fuel' =>
      if block_start <=? block_end then
        let '(r, ciphertext, w) := raw_read w block_start 16 in
        if nv_failed r then (Some r, w) else
        let n := writeU32LittleEndian n block_start in
        let '(plaintext, w) := call_xexDecrypt ks ciphertext n 1 w in
        let '(plaintext, pos, block_offset, len) :=
          write_copy 256 plaintext data pos block_offset len in
        let block_offset := 0 in
        let '(ciphertext, w) := call_xexEncrypt ks plaintext n 1 w in
        let '(r, w) := raw_write w ciphertext block_start 16 in
        if nv_failed r then (Some r, w) else
        write_loop fuel' ks (u32 (block_start + 16)) block_end block_offset n data pos len w
      else (Some NV_NO_ERROR, w)
  end.

Definition encryptedNonVolatileWrite (fuel : nat) (ks : key_state) (data : list Z)
    (address len : Z) (w : world) : option NonVolatileReturn * world :=
  let block_start := Z.land address 0xfffffff0 in
  let block_offset := u8 (Z.land address 0x0000000f) in
  let block_end := Z.land (u32 (address + len - 1)) 0xfffffff0 in
  let n := for_u8 256 0 16 (fun i n => wr n i 0) fresh16 in
  write_loop fuel ks block_start block_end block_offset n data 0 len w.

(** The block loop of [encryptedNonVolatileRead]; the caller's array [data]
    is part of the result. *)
Fixpoint read_loop (fuel : nat) (ks : key_state) (block_start block_end block_offset : Z)
    (n data : list Z) (pos len : Z) (w : world) : option NonVolatileReturn * list Z * world :=
  match fuel with
  | O => (None, data, w)
  | S fuel' =>
      if block_start <=? block_end then
        let '(r, ciphertext, w) := raw_read w block_start 16 in
        if nv_failed r then (Some r, data, w) else
        let n := writeU32LittleEndian n block_start in
        let '(plaintext, w) := call_xexDecrypt ks ciphertext n 1 w in
        let '(data, pos, block_offset, len) :=
          read_copy 256 plaintext data pos block_offset len in
        let block_offset := 0 in
        read_loop fuel' ks (u32 (block_start + 16)) block_end block_offset n data pos len w
      else (Some NV_NO_ERROR, data, w)
  end.

Definition encryptedNonVolatileRead (fuel : nat) (ks : key_state) (data : list Z)
    (address len : Z) (w : world) : option NonVolatileReturn * list Z * world :=
  let block_start := Z.land address 0xfffffff0 in
  let block_offset := u8 (Z.land address 0x0000000f) in
  let block_end := Z.land (u32 (address + len - 1)) 0xfffffff0 in
  let n := for_u8 256 0 16 (fun i n => wr n i 0) fresh16 in
  read_loop fuel ks block_start block_end block_offset n data 0 len w.

End Adapter.

(** ** Instances used in the examples *)

(** A toy cipher that meets [BlockCipherLaws]: the block is reversed and
    every byte shifted by the first key byte. *)
Definition shift_cipher : BlockCipher := {|
  expanded_key := list Z;
  aesExpandKey := fun k => k;
  aesEncrypt := fun b k => rev (map (fun x => u8 (x + rd k 0)) b);
  aesDecrypt := fun b k => map (fun x => u8 (x - rd k 0)) (rev b)
|}.

(** A driver over a sparse byte array (absent bytes read as 0) that accepts
    exactly the ranges inside [[lo, hi)) and fails the others with code 1. *)
Definition array_read (s : gmap Z Z) (address len : Z) : list Z :=
  map (fun i => u8 (default 0 (s !! (address + Z.of_nat i)))) (seq 0 (Z.to_nat len)).

Definition array_write (s : gmap Z Z) (data : list Z) (address len : Z) : gmap Z Z :=
  fold_left (fun s i => <[address + Z.of_nat i := rd data (Z.of_nat i)]> s)
    (seq 0 (Z.to_nat len)) s.

Definition array_store (lo hi : Z) : RawStore := {|
  nv_state := gmap Z Z;
  nonVolatileRead := fun s address len =>
    if (lo <=? address) && (address + len <=? hi)
    then (NV_NO_ERROR, array_read s address len, s)
    else (NV_OTHER 1, fresh16, s);
  nonVolatileWrite := fun s data address len =>
    if (lo <=? address) && (address + len <=? hi)
    then (NV_NO_ERROR, array_write s data address len)
    else (NV_OTHER 1, s)
|}.

Definition array_byte (s : gmap Z Z) (x : Z) : Z := u8 (default 0 (s !! x)).

Definition empty_world (rs : RawStore) (s : @nv_state rs) : @world rs :=
  {| w_nv := s; w_log := [] |}.

(** The key state of the examples: encryption key 1,2,..,16 and tweak key
    17,..,32. *)
Definition example_keys : key_state := {|
  nv_storage_encrypt_key := map Z.of_nat (seq 1 16);
  nv_storage_tweak_key := map Z.of_nat (seq 17 16)
|}.

(** ** Definitions for the statements and the proofs *)

(** The byte [doubleInGF] leaves at an index above 0: the byte shifted up by
    one bit, with the top bit of the byte below moved in. *)
Definition shl_byte (x below : Z) : Z :=
  u8 (Z.lor (u8 (Z.shiftl x 1)) (u8 (Z.shiftr (u8 (Z.land below 0x80)) 7))).

(** The byte [doubleInGF] leaves at index 0, [top] being byte 15. *)
Definition low_byte (x top : Z) : Z :=
  u8 (Z.lxor (u8 (Z.lor (u8 (Z.shiftl x 1)) 0))
        (Z.land 0x87 (u8 (- u8 (Z.shiftr (u8 (Z.land top 0x80)) 7))))).

(** All 256 bytes, for proofs by enumeration. *)
Definition all_bytes : list Z := map Z.of_nat (seq 0 256).

(** The value XEX encryption and decryption leave in [out], in closed
    form: the block cipher applied between two exclusive ors with the tweak
    mask. *)
Definition xex_enc {c : BlockCipher} (tweak_key encrypt_key n : list Z) (seq : Z)
    (p : list Z) : list Z :=
  let delta := xex_delta n seq tweak_key in
  xor_block (aesEncrypt (xor_block p delta) (aesExpandKey encrypt_key)) delta.

Definition xex_dec {c : BlockCipher} (tweak_key encrypt_key n : list Z) (seq : Z)
    (ct : list Z) : list Z :=
  let delta := xex_delta n seq tweak_key in
  xor_block (aesDecrypt (xor_block ct delta) (aesExpandKey encrypt_key)) delta.

(** The tweak of the block that starts at [b]: [b] as a 32-bit
    little-endian number in bytes 0..3, zero in bytes 4..15. *)
Definition tweak_of (b : Z) : list Z :=
  [u8 b; u8 (Z.shiftr b 8); u8 (Z.shiftr b 16); u8 (Z.shiftr b 24);
   0; 0; 0; 0; 0; 0; 0; 0; 0; 0; 0; 0].

(** The shape the local array [n] keeps throughout a call: sixteen bytes,
    the last twelve zero. *)
Definition tweak_shaped (n : list Z) : Prop :=
  exists t0 t1 t2 t3, n = [t0; t1; t2; t3; 0; 0; 0; 0; 0; 0; 0; 0; 0; 0; 0; 0].

(** The events of the block loops, from the block at [b] on, with the
    result of the call ([None]: the loop is still running).  With
    [writes = true] this is the loop of [encryptedNonVolatileWrite], with
    [writes = false] that of [encryptedNonVolatileRead]. *)
Inductive block_trace (writes : bool) (block_end : Z)
    : Z -> list event -> option NonVolatileReturn -> Prop :=
| bt_done (b : Z) :
    block_end < b -> block_trace writes block_end b [] (Some NV_NO_ERROR)
| bt_running (b : Z) :
    block_trace writes block_end b [] None
| bt_read_failed (b : Z) (r : NonVolatileReturn) :
    b <= block_end -> nv_failed r = true ->
    block_trace writes block_end b [EvRead b 16 r] (Some r)
| bt_write_failed (b : Z) (ct : list Z) (r : NonVolatileReturn) :
    b <= block_end -> writes = true -> nv_failed r = true ->
    block_trace writes block_end b
      [EvRead b 16 NV_NO_ERROR; EvXex true (tweak_of b) 1; EvXex false (tweak_of b) 1;
       EvWrite ct b 16 r] (Some r)
| bt_written (b : Z) (ct : list Z) (evs : list event) (res : option NonVolatileReturn) :
    b <= block_end -> writes = true ->
    block_trace writes block_end (u32 (b + 16)) evs res ->
    block_trace writes block_end b
      (EvRead b 16 NV_NO_ERROR :: EvXex true (tweak_of b) 1 :: EvXex false (tweak_of b) 1
       :: EvWrite ct b 16 NV_NO_ERROR :: evs) res
| bt_read (b : Z) (evs : list event) (res : option NonVolatileReturn) :
    b <= block_end -> writes = false ->
    block_trace writes block_end (u32 (b + 16)) evs res ->
    block_trace writes block_end b
      (EvRead b 16 NV_NO_ERROR :: EvXex true (tweak_of b) 1 :: evs) res.

(** The status of a raw driver call in the log. *)
Definition event_status (e : event) : option NonVolatileReturn :=
  match e with
  | EvRead _ _ r => Some r
  | EvWrite _ _ _ r => Some r
  | EvXex _ _ _ => None
  end.

(** The addresses of the raw reads, and of the raw writes, in a log. *)
Definition read_addresses (evs : list event) : list Z :=
  omap (fun e => match e with EvRead a _ _ => Some a | _ => None end) evs.

Definition write_addresses (evs : list event) : list Z :=
  omap (fun e => match e with EvWrite _ a _ _ => Some a | _ => None end) evs.

(** Every XEX call in the log is given the tweak of the block read last
    (kept in [cur]), a 32-bit multiple of 16, and the sequence number 1. *)
Fixpoint tweaks_follow_reads (cur : option Z) (evs : list event) : Prop :=
  match evs with
  | [] => True
  | EvRead a _ _ :: evs' => tweaks_follow_reads (Some a) evs'
  | EvWrite _ _ _ _ :: evs' => tweaks_follow_reads cur evs'
  | EvXex _ n seq :: evs' =>
      (exists b, cur = Some b /\ 0 <= b < 2 ^ 32 /\ b mod 16 = 0 /\
                 n = tweak_of b /\ seq = 1) /\
      tweaks_follow_reads cur evs'
  end.

Section Plain.
Context {c : BlockCipher} {rs : RawStore} (nv_byte : nv_state -> Z -> Z) (ks : key_state).

(** The decrypted contents of storage under the key state [ks]: of the
    block that starts at [b], and of the byte at address [x]. *)
Definition plain_block (s : nv_state) (b : Z) : list Z :=
  xex_dec (nv_storage_tweak_key ks) (nv_storage_encrypt_key ks) (tweak_of b) 1
    (map (nv_byte s) (block_addrs b)).

Definition plain_byte (s : nv_state) (x : Z) : Z :=
  rd (plain_block s (x - x mod 16)) (x mod 16).

End Plain.

(** The raw driver returns no error on the 16-byte blocks that start in
    [[lo, hi]], whatever its state and the data written. *)
Definition raw_accepts (rs : RawStore) (lo hi : Z) : Prop :=
  forall (s : nv_state) (a : Z), lo <= a <= hi -> a mod 16 = 0 ->
    fst (fst (nonVolatileRead s a 16)) = NV_NO_ERROR /\
    forall d, fst (nonVolatileWrite s d a 16) = NV_NO_ERROR.

(** The field element 1: byte 0 is 0x01, the other bytes are zero. *)
Definition gf_one : list Z := 1 :: replicate 15 0.

(** Blocks and a memory for the examples. *)
Definition example_block : list Z := map Z.of_nat (seq 65 16).

Definition example_tweak : list Z := map Z.of_nat (seq 200 16).

Definition example_mem : gmap positive (list Z) :=
  <[1%positive := example_block]>
    (<[2%positive := example_tweak]>
      (<[3%positive := nv_storage_tweak_key example_keys]>
        (<[4%positive := nv_storage_encrypt_key example_keys]> ∅))).

(** What the log of a call shows of its raw driver calls: the events are
    those of the block loop; a driver call that fails is the last event and
    its status is the result; the i-th write is to the block of the i-th
    read, with at most one block read and not yet written; and, when the
    last block is below the top block 0xfffffff0, the i-th block read is
    [first_block + 16 i], none beyond [block_end]. *)
Definition orderly_trace (writes : bool) (first_block block_end : Z) (evs : list event)
    (res : option NonVolatileReturn) : Prop :=
  block_trace writes block_end first_block evs res /\
  (forall evs1 e evs2 r,
     evs = evs1 ++ e :: evs2 -> event_status e = Some r -> r <> NV_NO_ERROR ->
     evs2 = [] /\ res = Some r) /\
  (forall (i : nat) (a : Z),
     write_addresses evs !! i = Some a -> read_addresses evs !! i = Some a) /\
  (writes = true ->
   (length (read_addresses evs) <= length (write_addresses evs) + 1)%nat) /\
  (block_end < 0xfffffff0 ->
   forall (i : nat) (a : Z),
     read_addresses evs !! i = Some a ->
     a = first_block + 16 * Z.of_nat i /\ a <= block_end).

(** Data and worlds for the examples: a driver over 1024 bytes, one over
    the whole 32-bit address space, and one over the address space without
    its first block. *)
Definition example_data : list Z := map Z.of_nat (seq 10 20).

Definition small_store : RawStore := array_store 0 1024.

Definition full_store : RawStore := array_store 0 (2 ^ 32).

Definition headless_store : RawStore := array_store 16 (2 ^ 32).

(** ** Definitions for the further properties *)

(** A raw driver call in the log is for one whole block: sixteen bytes at
    a 32-bit address that is a multiple of 16. *)
Definition whole_block_access (e : event) : Prop :=
  match e with
  | EvRead a len _ => len = 16 /\ a mod 16 = 0 /\ 0 <= a < 2 ^ 32
  | EvWrite _ a len _ => len = 16 /\ a mod 16 = 0 /\ 0 <= a < 2 ^ 32
  | EvXex _ _ _ => True
  end.

(** The events of a call that only reads: raw reads and XEX decryptions. *)
Definition reading_event (e : event) : Prop :=
  match e with
  | EvRead _ _ _ => True
  | EvWrite _ _ _ _ => False
  | EvXex is_decrypt _ _ => is_decrypt = true
  end.

(** The block addresses [b], [b + 16], ... up to [block_end]. *)
Definition blocks_from (b block_end : Z) : list Z :=
  map (fun i => b + 16 * Z.of_nat i) (seq 0 (Z.to_nat ((block_end + 16 - b) / 16))).

Section Sealed.
Context {c : BlockCipher} {rs : RawStore} (nv_byte : nv_state -> Z -> Z) (ks : key_state).

(** The stored bytes of the block at [b] are the XEX encryption, under the
    tweak of [b] and the sequence number 1, of the block's decrypted
    contents. *)
Definition sealed_block (s : nv_state) (b : Z) : Prop :=
  map (nv_byte s) (block_addrs b) =
  xex_enc (nv_storage_tweak_key ks) (nv_storage_encrypt_key ks) (tweak_of b) 1
    (plain_block nv_byte ks s b).

End Sealed.

(** ** The test harness of xex.c ([#ifdef TEST]) *)

(** *** Input streams *)

(** A [FILE] opened for reading, as the C library describes it: the bytes
    that have not been read yet and the end-of-file indicator. *)
Record FILE : Type := {
  f_rest : list Z;
  f_eof : bool
}.

Definition EOF : Z := -1.

(** [fgetc(f)]: the next byte, or [EOF] with the end-of-file indicator set
    when there is none or the indicator is already set. *)
Definition fgetc (f : FILE) : Z * FILE :=
  match f_eof f, f_rest f with
  | false, x :: rest => (x, {| f_rest := rest; f_eof := false |})
  | _, _ => (EOF, {| f_rest := f_rest f; f_eof := true |})
  end.

(** [ungetc(ch, f)]: pushes the byte back and clears the end-of-file
    indicator; with [EOF] it fails and leaves the stream as it is. *)
Definition ungetc (ch : Z) (f : FILE) : FILE :=
  if ch =? EOF then f else {| f_rest := u8 ch :: f_rest f; f_eof := false |}.

(** The [do ... while] loop of [skipWhiteSpace]; it gives the character
    that ended the loop.  The characters are ' ', '\t', '\n' and '\r'. *)
Fixpoint skipWhiteSpace_loop (fuel : nat) (f : FILE) : option (Z * FILE) :=
  match fuel with
  | O => None
  | S fuel' =>
      let '(onechar, f) := fgetc f in
      if (onechar =? 32) || (onechar =? 9) || (onechar =? 10) || (onechar =? 13)
      then skipWhiteSpace_loop fuel' f
      else Some (onechar, f)
  end.

Definition skipWhiteSpace (fuel : nat) (f : FILE) : option FILE :=
  match skipWhiteSpace_loop fuel f with
  | Some (onechar, f) => Some (ungetc onechar f)
  | None => None
  end.

(** [skipLine]: [None] when the loop is still running after [fuel]
    iterations. *)
Fixpoint skipLine (fuel : nat) (f : FILE) : option FILE :=
  match fuel with
  | O => None
  | S fuel' =>
      let '(one_char, f) := fgetc f in
      if negb (one_char =? 10) then skipLine fuel' f else Some f
  end.

(** The white space of [skipWhiteSpace], and a list without its leading
    white space. *)
Definition is_space (x : Z) : bool := (x =? 32) || (x =? 9) || (x =? 10) || (x =? 13).

Fixpoint skip_spaces (l : list Z) : list Z :=
  match l with
  | [] => []
  | x :: l' => if is_space x then skip_spaces l' else l
  end.

(** *** The read/write test of [main] *)

Definition MAX_ADDRESS : Z := 1024.

Definition NUM_RW_TESTS : Z := 100000.

(** [memcmp(s1, s2, n)]: zero when the first [n] bytes agree, otherwise
    the difference of the first two bytes that differ. *)
Fixpoint memcmp (s1 s2 : list Z) (n : nat) : Z :=
  match n with
  | O => 0
  | S n' =>
      let d := rd s1 0 - rd s2 0 in
      if d =? 0 then memcmp (tail s1) (tail s2) n' else d
  end.

(** [memcpy(dest + offset, src, n)]. *)
Definition memcpy (dest : list Z) (offset : Z) (src : list Z) (n : Z) : list Z :=
  fold_left (fun d i => wr d (offset + Z.of_nat i) (rd src (Z.of_nat i)))
    (seq 0 (Z.to_nat n)) dest.

(** [memset(s, ch, n)]. *)
Definition memset (s : list Z) (ch : Z) (n : Z) : list Z :=
  fold_left (fun d i => wr d (Z.of_nat i) (u8 ch)) (seq 0 (Z.to_nat n)) s.

(** [for (i = start; i < bound; i += step) body] with an [int] counter and
    a body that may not return; [None] when the loop is still running after
    [fuel] iterations. *)
Fixpoint for_int {St : Type} (fuel : nat) (i bound step : Z) (body : Z -> St -> option St)
    (s : St) : option St :=
  match fuel with
  | O => None
  | S fuel' =>
      if i <? bound then
        match body i s with
        | Some s' => for_int fuel' (i + step) bound step body s'
        | None => None
        end
      else Some s
  end.

(** What [main] prints, one constructor for each of its reports:
    - "Storage mismatch in encryptedNonVolatileRead()", "Initial fill,
      address = ..., length = 128";
    - "encryptedNonVolatileWrite() failed", "test number = ..., address =
      ..., length = ...";
    - "encryptedNonVolatileRead() failed", with the same three numbers;
    - "Storage mismatch in encryptedNonVolatileRead()", with the same three
      numbers;
    - "Storage match in encryptedNonVolatileRead() when using different
      tweak key", "Final run, address = ..., length = 128";
    - the same for "different primary encryption key";
    - "Storage mismatch in encryptedNonVolatileRead() when keys are okay",
      "Final run, address = ..., length = 128";
    - "Tests which succeeded: ...", "Tests which failed: ...". *)
Inductive report : Type :=
| InitialFillMismatch (address : Z)
| WriteFailed (test_number address length : Z)
| ReadFailed (test_number address length : Z)
| StorageMismatch (test_number address length : Z)
| MatchWithDifferentTweakKey (address : Z)
| MatchWithDifferentEncryptKey (address : Z)
| FinalMismatch (address : Z)
| Totals (succeeded failed : Z).

(** The state [main] works on: the key state of xex.c, non-volatile
    storage, the number of [rand()] calls so far, the two counters
    [succeeded] and [failed], what has been printed, and the local arrays
    of [main]. *)
Record test_state {rs : RawStore} : Type := {
  t_keys : key_state;
  t_world : world;
  t_rand : nat;
  succeeded : Z;
  failed : Z;
  t_out : list report;
  what_storage_should_be : list Z;
  buffer : list Z;
  one_key : list Z
}.

Section Main.
Context {c : BlockCipher} {rs : RawStore}.

(** The values [rand()] returns after [srand(42)], in order. *)
Variable rand_values : nat -> Z.

(** The number of iterations the model follows each loop for. *)
Variable fuel : nat.

Definition set_keys (ks : key_state) (st : test_state) : test_state :=
  {| t_keys := ks; t_world := t_world st; t_rand := t_rand st; succeeded := succeeded st;
     failed := failed st; t_out := t_out st;
     what_storage_should_be := what_storage_should_be st; buffer := buffer st;
     one_key := one_key st |}.

Definition set_world (w : world) (st : test_state) : test_state :=
  {| t_keys := t_keys st; t_world := w; t_rand := t_rand st; succeeded := succeeded st;
     failed := failed st; t_out := t_out st;
     what_storage_should_be := what_storage_should_be st; buffer := buffer st;
     one_key := one_key st |}.

Definition set_expected (a : list Z) (st : test_state) : test_state :=
  {| t_keys := t_keys st; t_world := t_world st; t_rand := t_rand st;
     succeeded := succeeded st; failed := failed st; t_out := t_out st;
     what_storage_should_be := a; buffer := buffer st; one_key := one_key st |}.

Definition set_buffer (a : list Z) (st : test_state) : test_state :=
  {| t_keys := t_keys st; t_world := t_world st; t_rand := t_rand st;
     succeeded := succeeded st; failed := failed st; t_out := t_out st;
     what_storage_should_be := what_storage_should_be st; buffer := a;
     one_key := one_key st |}.

Definition set_one_key (a : list Z) (st : test_state) : test_state :=
  {| t_keys := t_keys st; t_world := t_world st; t_rand := t_rand st;
     succeeded := succeeded st; failed := failed st; t_out := t_out st;
     what_storage_should_be := what_storage_should_be st; buffer := buffer st;
     one_key := a |}.

(** [succeeded++]. *)
Definition count_success (st : test_state) : test_state :=
  {| t_keys := t_keys st; t_world := t_world st; t_rand := t_rand st;
     succeeded := succeeded st + 1; failed := failed st; t_out := t_out st;
     what_storage_should_be := what_storage_should_be st; buffer := buffer st;
     one_key := one_key st |}.

(** The [printf] calls of a failure, then [failed++]. *)
Definition count_failure (r : report) (st : test_state) : test_state :=
  {| t_keys := t_keys st; t_world := t_world st; t_rand := t_rand st;
     succeeded := succeeded st; failed := failed st + 1; t_out := t_out st ++ [r];
     what_storage_should_be := what_storage_should_be st; buffer := buffer st;
     one_key := one_key st |}.

(** [rand()]. *)
Definition rand (st : test_state) : Z * test_state :=
  (rand_values (t_rand st),
   {| t_keys := t_keys st; t_world := t_world st; t_rand := S (t_rand st);
      succeeded := succeeded st; failed := failed st; t_out := t_out st;
      what_storage_should_be := what_storage_should_be st; buffer := buffer st;
      one_key := one_key st |}).

(** [for (i = 0; i < MAX_ADDRESS; i++) what_storage_should_be[i] = (uint8_t)rand();] *)
Definition fill_expected (st : test_state) : option test_state :=
  for_int fuel 0 MAX_ADDRESS 1 (fun i st =>
    let '(r, st) := rand st in
    Some (set_expected (wr (what_storage_should_be st) i (u8 r)) st)) st.

(** [for (i = 0; i < MAX_ADDRESS; i += 128)
       encryptedNonVolatileWrite(&(what_storage_should_be[i]), i, 128);]
    The return value is not looked at. *)
Definition initial_fill (st : test_state) : option test_state :=
  for_int fuel 0 MAX_ADDRESS 128 (fun i st =>
    match encryptedNonVolatileWrite fuel (t_keys st)
            (drop (Z.to_nat i) (what_storage_should_be st)) (u32 i) 128 (t_world st) with
    | (Some _, w) => Some (set_world w st)
    | (None, _) => None
    end) st.

(** The loop that reads the initial fill back and compares. *)
Definition check_initial_fill (st : test_state) : option test_state :=
  for_int fuel 0 MAX_ADDRESS 128 (fun i st =>
    match encryptedNonVolatileRead fuel (t_keys st) (buffer st) (u32 i) 128 (t_world st) with
    | (Some _, buf, w) =>
        let st := set_world w (set_buffer buf st) in
        if negb (memcmp (drop (Z.to_nat i) (what_storage_should_be st)) (buffer st) 128 =? 0)
        then Some (count_failure (InitialFillMismatch i) st)
        else Some (count_success st)
    | (None, _, _) => None
    end) st.

(** [do { address = (uint32_t)(rand() & (MAX_ADDRESS - 1));
         length = (uint8_t)rand();
       } while ((address + length) > MAX_ADDRESS);] *)
Fixpoint draw_range (n : nat) (st : test_state) : option (Z * Z * test_state) :=
  match n with
  | O => None
  | S n' =>
      let '(r, st) := rand st in
      let address := u32 (Z.land r (MAX_ADDRESS - 1)) in
      let '(r, st) := rand st in
      let length := u8 r in
      if u32 (address + length) >? MAX_ADDRESS
      then draw_range n' st
      else Some (address, length, st)
  end.

(** The body of the loop over the [NUM_RW_TESTS] random tests. *)
Definition random_test (i : Z) (st : test_state) : option test_state :=
  match draw_range fuel st with
  | None => None
  | Some (address, length, st) =>
      let '(r, st) := rand st in
      if negb (Z.land r 1 =? 0) then
        match
          for_int fuel 0 length 1 (fun j st =>
            let '(r, st) := rand st in
            Some (set_buffer (wr (buffer st) j (u8 r)) st)) st
        with
        | None => None
        | Some st =>
            let st :=
              set_expected (memcpy (what_storage_should_be st) address (buffer st) length) st in
            match encryptedNonVolatileWrite fuel (t_keys st) (buffer st) address length
                    (t_world st) with
            | (Some r, w) =>
                let st := set_world w st in
                if nv_failed r
                then Some (count_failure (WriteFailed i address length) st)
                else Some (count_success st)
            | (None, _) => None
            end
        end
      else
        match encryptedNonVolatileRead fuel (t_keys st) (buffer st) address length
                (t_world st) with
        | (Some r, buf, w) =>
            let st := set_world w (set_buffer buf st) in
            if nv_failed r
            then Some (count_failure (ReadFailed i address length) st)
            else
              if negb (memcmp (drop (Z.to_nat address) (what_storage_should_be st))
                         (buffer st) (Z.to_nat length) =? 0)
              then Some (count_failure (StorageMismatch i address length) st)
              else Some (count_success st)
        | (None, _, _) => None
        end
  end.

Definition random_tests (st : test_state) : option test_state :=
  for_int fuel 0 NUM_RW_TESTS 1 random_test st.

(** The loops that read all of storage with a changed key and expect a
    mismatch everywhere. *)
Definition check_different_tweak_key (st : test_state) : option test_state :=
  for_int fuel 0 MAX_ADDRESS 128 (fun i st =>
    match encryptedNonVolatileRead fuel (t_keys st) (buffer st) (u32 i) 128 (t_world st) with
    | (Some _, buf, w) =>
        let st := set_world w (set_buffer buf st) in
        if negb (memcmp (drop (Z.to_nat i) (what_storage_should_be st)) (buffer st) 128 =? 0)
        then Some (count_success st)
        else Some (count_failure (MatchWithDifferentTweakKey i) st)
    | (None, _, _) => None
    end) st.

Definition check_different_encrypt_key (st : test_state) : option test_state :=
  for_int fuel 0 MAX_ADDRESS 128 (fun i st =>
    match encryptedNonVolatileRead fuel (t_keys st) (buffer st) (u32 i) 128 (t_world st) with
    | (Some _, buf, w) =>
        let st := set_world w (set_buffer buf st) in
        if negb (memcmp (drop (Z.to_nat i) (what_storage_should_be st)) (buffer st) 128 =? 0)
        then Some (count_success st)
        else Some (count_failure (MatchWithDifferentEncryptKey i) st)
    | (None, _, _) => None
    end) st.

(** The last loop, with the original keys again. *)
Definition check_final (st : test_state) : option test_state :=
  for_int fuel 0 MAX_ADDRESS 128 (fun i st =>
    match encryptedNonVolatileRead fuel (t_keys st) (buffer st) (u32 i) 128 (t_world st) with
    | (Some _, buf, w) =>
        let st := set_world w (set_buffer buf st) in
        if negb (memcmp (drop (Z.to_nat i) (what_storage_should_be st)) (buffer st) 128 =? 0)
        then Some (count_failure (FinalMismatch i) st)
        else Some (count_success st)
    | (None, _, _) => None
    end) st.

(** The functions [main] calls that are not modelled: [initWalletTest]
    (declared [extern]) and [scanTestVectors], which reads the test vector
    file whose name it is given. *)
Variable initWalletTest : test_state -> test_state.
Variable scanTestVectors : String.string -> Z -> test_state -> option test_state.

Import String.

(** [succeeded = 0; failed = 0;] *)
Definition reset_counters (st : test_state) : test_state :=
  {| t_keys := t_keys st; t_world := t_world st; t_rand := t_rand st;
     succeeded := 0; failed := 0; t_out := t_out st;
     what_storage_should_be := what_storage_should_be st; buffer := buffer st;
     one_key := one_key st |}.

(** [srand(42)]: the next [rand()] returns [rand_values 0]. *)
Definition srand42 (st : test_state) : test_state :=
  {| t_keys := t_keys st; t_world := t_world st; t_rand := 0;
     succeeded := succeeded st; failed := failed st; t_out := t_out st;
     what_storage_should_be := what_storage_should_be st; buffer := buffer st;
     one_key := one_key st |}.

(** The two [printf] calls at the end of [main]. *)
Definition print_totals (st : test_state) : test_state :=
  {| t_keys := t_keys st; t_world := t_world st; t_rand := t_rand st;
     succeeded := succeeded st; failed := failed st;
     t_out := t_out st ++ [Totals (succeeded st) (failed st)];
     what_storage_should_be := what_storage_should_be st; buffer := buffer st;
     one_key := one_key st |}.

(** [main], up to [exit(0)]; [None] when a loop or a call does not
    return. *)
Definition main (st : test_state) : option test_state :=
  let st := initWalletTest st in
  let st := set_keys (clearEncryptionKey (t_keys st)) st in
  let st := srand42 st in
  let st := reset_counters st in
  match scanTestVectors "XTSGenAES128i.rsp"%string 0 st with
  | None => None
  | Some st =>
  match scanTestVectors "XTSGenAES128d.rsp"%string 1 st with
  | None => None
  | Some st =>
  match fill_expected st with
  | None => None
  | Some st =>
  match initial_fill st with
  | None => None
  | Some st =>
  match check_initial_fill st with
  | None => None
  | Some st =>
  match random_tests st with
  | None => None
  | Some st =>
  let st := set_one_key (memset (one_key st) 0 32) st in
  let st := set_one_key (wr (one_key st) 16 1) st in
  let st := set_keys (setEncryptionKey (one_key st) (t_keys st)) st in
  match check_different_tweak_key st with
  | None => None
  | Some st =>
  let st := set_one_key (memset (one_key st) 0 32) st in
  let st := set_one_key (wr (one_key st) 0 1) st in
  let st := set_keys (setEncryptionKey (one_key st) (t_keys st)) st in
  match check_different_encrypt_key st with
  | None => None
  | Some st =>
  let st := set_keys (clearEncryptionKey (t_keys st)) st in
  match check_final st with
  | None => None
  | Some st => Some (print_totals st)
  end end end end end end end end end.

(** The state of [main] after the two calls of [scanTestVectors], for the
    statements about what [main] does from there on. *)
Definition after_scans (st : test_state) : option test_state :=
  let st := initWalletTest st in
  let st := set_keys (clearEncryptionKey (t_keys st)) st in
  let st := srand42 st in
  let st := reset_counters st in
  match scanTestVectors "XTSGenAES128i.rsp" 0 st with
  | None => None
  | Some st => scanTestVectors "XTSGenAES128d.rsp" 1 st
  end.

End Main.

Section Expected.
Context {c : BlockCipher} {rs : RawStore} (nv_byte : nv_state -> Z -> Z).

(** The local arrays [what_storage_should_be] and [buffer] of [main] have
    their declared sizes and hold bytes. *)
Definition arrays_ok (st : test_state) : Prop :=
  length (what_storage_should_be st) = 1024%nat /\
  Forall is_byte (what_storage_should_be st) /\
  length (buffer st) = 256%nat /\ Forall is_byte (buffer st).

(** The first [MAX_ADDRESS] bytes of storage decrypt, under the current
    keys, to [what_storage_should_be]. *)
Definition storage_as_expected (st : test_state) : Prop :=
  forall x, 0 <= x < MAX_ADDRESS ->
    plain_byte nv_byte (t_keys st) (w_nv (t_world st)) x = rd (what_storage_should_be st) x.

End Expected.

(** The [do ... while] loop of a random test, seen on the values of
    [rand()] alone: the range it draws when the next value is number [p],
    and the number of the value after the two of that range.  [None] when
    the loop is still running after [n] rounds. *)
Fixpoint drawn_range (rand_values : nat -> Z) (n p : nat) : option (Z * Z * nat) :=
  match n with
  | O => None
  | S n' =>
      let address := u32 (Z.land (rand_values p) (MAX_ADDRESS - 1)) in
      let length := u8 (rand_values (S p)) in
      if u32 (address + length) >? MAX_ADDRESS
      then drawn_range rand_values n' (S (S p))
      else Some (address, length, S (S p))
  end.

(** What the random tests need of the values of [rand()]: in each of the
    next [n] tests, the first of which starts at value number [p], the
    [do ... while] loop ends within [fuel] rounds and the range it draws is
    not the empty range at address 0.  The next test starts after the value
    that chooses between write and read and, for a write, after the
    [length] values that fill [buffer]. *)
Fixpoint draws_ok (rand_values : nat -> Z) (fuel n p : nat) : Prop :=
  match n with
  | O => True
  | S n' =>
      match drawn_range rand_values fuel p with
      | None => False
      | Some (address, length, q) =>
          ~ (address = 0 /\ length = 0) /\
          draws_ok rand_values fuel n'
            (if negb (Z.land (rand_values q) 1 =? 0)
             then (S q + Z.to_nat length)%nat else S q)
      end
  end.

(** Values of [rand()] for the examples, with period 8: a test that writes
    two bytes at address 5, then a test that reads them. *)
Definition example_rand (p : nat) : Z := nth (p mod 8) [5; 2; 1; 77; 78; 5; 2; 0] 0.

(** The reports of the two loops that read with a changed key. *)
Definition different_key_report (r : report) : Prop :=
  match r with
  | MatchWithDifferentTweakKey _ | MatchWithDifferentEncryptKey _ => True
  | _ => False
  end.

(** ** Tactics *)

(** A list of length 16 is sixteen elements. *)
Ltac explode_block b H :=
  do 16 (destruct b as [|? b]; [discriminate H|]);
  destruct b; [clear H|discriminate H].

(** Name the bytes of a block [x0 .. x15] (or [y0 .. y15]) and put
    [is_byte] of each in the context. *)
Ltac name_block H :=
  match type of H with
  | is_block ?b =>
      let Hl := fresh "Hl" in
      let Hb := fresh "Hb" in
      destruct H as [Hl Hb];
      destruct b as [|x0 [|x1 [|x2 [|x3 [|x4 [|x5 [|x6 [|x7 [|x8 [|x9 [|x10 [|x11 [|x12
                    [|x13 [|x14 [|x15 [|? ?]]]]]]]]]]]]]]]]];
      try discriminate Hl; clear Hl;
      repeat (apply Forall_cons_1 in Hb; destruct Hb as [? Hb]); clear Hb
  end.

Ltac name_block' H :=
  match type of H with
  | is_block ?b =>
      let Hl := fresh "Hl" in
      let Hb := fresh "Hb" in
      destruct H as [Hl Hb];
      destruct b as [|y0 [|y1 [|y2 [|y3 [|y4 [|y5 [|y6 [|y7 [|y8 [|y9 [|y10 [|y11 [|y12
                    [|y13 [|y14 [|y15 [|? ?]]]]]]]]]]]]]]]]];
      try discriminate Hl; clear Hl;
      repeat (apply Forall_cons_1 in Hb; destruct Hb as [? Hb]); clear Hb
  end.

(** Decide the comparisons of the goal and leave what [lia] does not close. *)
Ltac split_cmp :=
  repeat match goal with
    | |- context [?a <=? ?b] => destruct (Z.leb_spec a b)
    | |- context [?a <? ?b] => destruct (Z.ltb_spec a b)
    | |- context [?a =? ?b] => destruct (Z.eqb_spec a b)
    end;
  cbn [andb orb negb]; try reflexivity; try lia.

(** * Properties *)

(** ** Bytes, arrays and counted loops *)

Lemma all_bytes_complete (x : Z) : is_byte x -> In x all_bytes.
Proof.
  intros [H0 H1]. unfold all_bytes.
  apply in_map_iff. exists (Z.to_nat x). split; [lia|].
  apply in_seq. lia.
Qed.

Lemma byte_cases (P : Z -> bool) :
  forallb P all_bytes = true -> forall x, is_byte x -> P x = true.
Proof.
  intros H x Hx. rewrite forallb_forall in H. apply H, all_bytes_complete, Hx.
Qed.

Lemma byte_cases2 (P : Z -> Z -> bool) :
  forallb (fun x => forallb (P x) all_bytes) all_bytes = true ->
  forall x y, is_byte x -> is_byte y -> P x y = true.
Proof.
  intros H x y Hx Hy.
  apply (byte_cases (P x)); [|exact Hy].
  apply (byte_cases (fun x => forallb (P x) all_bytes)); assumption.
Qed.

Lemma u8_byte (x : Z) : is_byte (u8 x).
Proof. unfold is_byte, u8. apply Z.mod_pos_bound. lia. Qed.

Lemma u8_id (x : Z) : is_byte x -> u8 x = x.
Proof. unfold is_byte, u8. intros H. apply Z.mod_small. exact H. Qed.

Lemma lxor_byte (x y : Z) : is_byte x -> is_byte y -> is_byte (Z.lxor x y).
Proof.
  intros Hx Hy.
  pose proof (byte_cases2 (fun x y => (0 <=? Z.lxor x y) && (Z.lxor x y <? 256))
                ltac:(vm_compute; reflexivity) x y Hx Hy) as H.
  cbv beta in H. unfold is_byte. lia.
Qed.

Lemma lxor_cancel (x y : Z) : Z.lxor (Z.lxor x y) y = x.
Proof. rewrite Z.lxor_assoc, Z.lxor_nilpotent, Z.lxor_0_r. reflexivity. Qed.

(** A counted loop with enough fuel runs its body on start, start+1, ...,
    bound-1 in order. *)
Lemma for_u8_run {St : Type} (body : Z -> St -> St) (bound : Z) :
  bound <= 255 ->
  forall (k : nat) (fuel : nat) (a : nat) (s : St),
    Z.of_nat a + Z.of_nat k = Z.max (Z.of_nat a) bound -> (k < fuel)%nat ->
    for_u8 fuel (Z.of_nat a) bound body s =
    fold_left (fun s j => body (Z.of_nat j) s) (seq a k) s.
Proof.
  intros Hb k. induction k as [|k IH]; intros fuel a s Hk Hf.
  - destruct fuel as [|fuel]; [lia|]. simpl.
    destruct (Z.ltb_spec (Z.of_nat a) bound); [lia|reflexivity].
  - destruct fuel as [|fuel]; [lia|]. cbn [for_u8].
    destruct (Z.ltb_spec (Z.of_nat a) bound); [|lia].
    assert (Hu : u8 (Z.of_nat a + 1) = Z.of_nat (S a)).
    { rewrite u8_id; unfold is_byte; lia. }
    rewrite Hu, (IH fuel (S a) (body (Z.of_nat a) s)) by lia.
    reflexivity.
Qed.

Lemma for_u8_fold {St : Type} (body : Z -> St -> St) (bound : Z) (s : St) :
  0 <= bound <= 255 ->
  for_u8 256 0 bound body s =
  fold_left (fun s j => body (Z.of_nat j) s) (seq 0 (Z.to_nat bound)) s.
Proof.
  intros Hb.
  apply (for_u8_run body bound ltac:(lia) (Z.to_nat bound) 256%nat 0%nat s); lia.
Qed.

Lemma for_u8_iter {St : Type} (f : St -> St) (bound : Z) (s : St) :
  0 <= bound <= 255 ->
  for_u8 256 0 bound (fun _ s => f s) s = Nat.iter (Z.to_nat bound) f s.
Proof.
  intros Hb. rewrite for_u8_fold by exact Hb.
  generalize (Z.to_nat bound) as k. intros k.
  generalize 0%nat as a. revert s.
  induction k as [|k IH]; intros s a; [reflexivity|].
  cbn [seq fold_left]. rewrite IH. symmetry. apply Nat.iter_succ_r.
Qed.

Lemma is_block_length (b : list Z) : is_block b -> length b = 16%nat.
Proof. intros [H _]. exact H. Qed.

Lemma is_block_rd (b : list Z) (i : Z) : is_block b -> is_byte (rd b i).
Proof.
  intros [_ H]. unfold rd.
  destruct (b !! Z.to_nat i) as [x|] eqn:E; cbn.
  - rewrite Forall_forall in H. apply H. eapply list_elem_of_lookup_2, E.
  - unfold is_byte. lia.
Qed.

(** ** GF(2^128) doubling *)

Lemma doubleInGF_unfold (b0 b1 b2 b3 b4 b5 b6 b7 b8 b9 b10 b11 b12 b13 b14 b15 : Z) :
  doubleInGF [b0; b1; b2; b3; b4; b5; b6; b7; b8; b9; b10; b11; b12; b13; b14; b15] =
  [low_byte b0 b15; shl_byte b1 b0; shl_byte b2 b1; shl_byte b3 b2; shl_byte b4 b3; shl_byte b5 b4;
   shl_byte b6 b5; shl_byte b7 b6; shl_byte b8 b7; shl_byte b9 b8; shl_byte b10 b9;
   shl_byte b11 b10; shl_byte b12 b11; shl_byte b13 b12; shl_byte b14 b13;
   shl_byte b15 b14].
Proof. reflexivity. Qed.

Lemma shl_byte_arith (x y : Z) :
  is_byte x -> is_byte y -> shl_byte x y = 2 * x - 256 * (x / 128) + y / 128.
Proof.
  intros Hx Hy.
  pose proof (byte_cases2 (fun x y => shl_byte x y =? 2 * x - 256 * (x / 128) + y / 128)
                ltac:(vm_compute; reflexivity) x y Hx Hy) as H.
  cbv beta in H. lia.
Qed.

Lemma shl_byte_bits (x y : Z) :
  is_byte x -> is_byte y ->
  shl_byte x y = Z.lor (u8 (Z.shiftl x 1)) (Z.shiftr y 7).
Proof.
  intros Hx Hy.
  pose proof (byte_cases2 (fun x y => shl_byte x y =? Z.lor (u8 (Z.shiftl x 1)) (Z.shiftr y 7))
                ltac:(vm_compute; reflexivity) x y Hx Hy) as H.
  cbv beta in H. lia.
Qed.

Lemma low_byte_arith (x y : Z) :
  is_byte x -> is_byte y ->
  low_byte x y = Z.lxor (2 * x - 256 * (x / 128)) (0x87 * (y / 128)).
Proof.
  intros Hx Hy.
  pose proof (byte_cases2
                (fun x y => low_byte x y =? Z.lxor (2 * x - 256 * (x / 128)) (0x87 * (y / 128)))
                ltac:(vm_compute; reflexivity) x y Hx Hy) as H.
  cbv beta in H. lia.
Qed.

Lemma low_byte_bits (x y : Z) :
  is_byte x -> is_byte y ->
  low_byte x y = Z.lxor (u8 (Z.shiftl x 1)) (if Z.testbit y 7 then 0x87 else 0).
Proof.
  intros Hx Hy.
  pose proof (byte_cases2
                (fun x y => low_byte x y =?
                            Z.lxor (u8 (Z.shiftl x 1)) (if Z.testbit y 7 then 0x87 else 0))
                ltac:(vm_compute; reflexivity) x y Hx Hy) as H.
  cbv beta in H. lia.
Qed.

Lemma testbit_low (k a b n : Z) :
  0 <= a < 2 ^ k -> 0 <= n < k -> Z.testbit (a + 2 ^ k * b) n = Z.testbit a n.
Proof.
  intros Ha Hn.
  rewrite <- (Z.mod_pow2_bits_low (a + 2 ^ k * b) k n) by lia.
  rewrite (Z.mul_comm (2 ^ k) b), Z.mod_add by lia.
  rewrite Z.mod_small by lia. reflexivity.
Qed.

Lemma testbit_high (k a b n : Z) :
  0 <= a < 2 ^ k -> 0 <= k <= n -> Z.testbit (a + 2 ^ k * b) n = Z.testbit b (n - k).
Proof.
  intros Ha Hn.
  replace n with ((n - k) + k) at 1 by lia.
  rewrite <- Z.div_pow2_bits by lia.
  rewrite (Z.mul_comm (2 ^ k) b), Z.div_add by lia.
  rewrite Z.div_small by lia. reflexivity.
Qed.

Lemma lxor_bound (k a b : Z) :
  0 <= k -> 0 <= a < 2 ^ k -> 0 <= b < 2 ^ k -> 0 <= Z.lxor a b < 2 ^ k.
Proof.
  intros Hk Ha Hb.
  assert (H0 : 0 <= Z.lxor a b) by (apply Z.lxor_nonneg; lia).
  split; [exact H0|].
  destruct (Z.eq_dec (Z.lxor a b) 0) as [E|E]; [lia|].
  assert (Hk0 : 0 < k).
  { destruct (Z.eq_dec k 0) as [->|]; [|lia]. exfalso. apply E.
    change (2 ^ 0) with 1 in Ha, Hb.
    replace a with 0 by lia. replace b with 0 by lia. reflexivity. }
  assert (Hlog : forall x, 0 <= x < 2 ^ k -> Z.log2 x < k).
  { intros x Hx. destruct (Z.eq_dec x 0) as [->|]; [exact Hk0|].
    apply Z.log2_lt_pow2; lia. }
  apply Z.log2_lt_pow2; [lia|].
  pose proof (Z.log2_lxor a b ltac:(lia) ltac:(lia)) as Hl.
  pose proof (Hlog a Ha). pose proof (Hlog b Hb). lia.
Qed.

Lemma lxor_split (k a b a' b' : Z) :
  0 <= k -> 0 <= a < 2 ^ k -> 0 <= a' < 2 ^ k ->
  Z.lxor (a + 2 ^ k * b) (a' + 2 ^ k * b') = Z.lxor a a' + 2 ^ k * Z.lxor b b'.
Proof.
  intros Hk Ha Ha'.
  pose proof (lxor_bound k a a' Hk Ha Ha') as Hx.
  apply Z.bits_inj'. intros n Hn.
  rewrite Z.lxor_spec.
  destruct (Z.lt_ge_cases n k) as [Hlt|Hge].
  - rewrite !testbit_low by lia. rewrite Z.lxor_spec. reflexivity.
  - rewrite !testbit_high by lia. rewrite Z.lxor_spec. reflexivity.
Qed.

Lemma doubleInGF_block (b : list Z) : is_block b -> is_block (doubleInGF b).
Proof.
  intros H. name_block H. rewrite doubleInGF_unfold.
  split; [reflexivity|]. unfold shl_byte. repeat constructor; apply u8_byte.
Qed.

Lemma doubleInGF_value (b : list Z) :
  is_block b -> le_value (doubleInGF b) = gf_times_x (le_value b).
Proof.
  intros H. name_block H. rewrite doubleInGF_unfold.
  rewrite !shl_byte_arith, low_byte_arith by assumption.
  unfold gf_times_x. rewrite Z.shiftl_mul_pow2 by lia. change (2 ^ 1) with 2.
  cbn [le_value].
  unfold is_byte in *.
  set (c := x15 / 128). assert (Hc : c = 0 \/ c = 1) by (subst c; Z.div_mod_to_equations; lia).
  set (L := 2 * x0 - 256 * (x0 / 128)). assert (HL : 0 <= L < 2 ^ 8) by (subst L; Z.div_mod_to_equations; lia).
  match goal with |- Z.lxor L _ + 256 * ?m = _ => set (M := m) end.
  assert (HM : 0 <= M < 2 ^ 120) by (subst M c; Z.div_mod_to_equations; lia).
  match goal with |- _ = (if Z.testbit ?w _ then _ else _) =>
    replace w with ((L + 2 ^ 8 * M) + 2 ^ 128 * c) by (subst L M; ring) end.
  rewrite testbit_high by lia. change (128 - 128) with 0.
  destruct Hc as [-> | ->].
  - change (Z.testbit 0 0) with false. change (135 * 0) with 0. cbv iota.
    rewrite Z.lxor_0_r. lia.
  - change (Z.testbit 1 0) with true. cbv iota.
    replace (L + 2 ^ 8 * M + 2 ^ 128 * 1) with (L + 2 ^ 8 * (M + 2 ^ 120 * 1)) by lia.
    replace gf_poly with (135 + 2 ^ 8 * (0 + 2 ^ 120 * 1)) by reflexivity.
    rewrite (lxor_split 8), (lxor_split 120) by lia.
    rewrite Z.lxor_0_r. change (Z.lxor 1 1) with 0. change (135 * 1) with 135. lia.
Qed.

(** ** XEX mode *)

Lemma xor16Bytes_unfold
    (r0 r1 r2 r3 r4 r5 r6 r7 r8 r9 r10 r11 r12 r13 r14 r15 : Z)
    (d0 d1 d2 d3 d4 d5 d6 d7 d8 d9 d10 d11 d12 d13 d14 d15 : Z) :
  xor16Bytes [r0; r1; r2; r3; r4; r5; r6; r7; r8; r9; r10; r11; r12; r13; r14; r15]
             [d0; d1; d2; d3; d4; d5; d6; d7; d8; d9; d10; d11; d12; d13; d14; d15] =
  [u8 (Z.lxor r0 d0); u8 (Z.lxor r1 d1); u8 (Z.lxor r2 d2); u8 (Z.lxor r3 d3);
   u8 (Z.lxor r4 d4); u8 (Z.lxor r5 d5); u8 (Z.lxor r6 d6); u8 (Z.lxor r7 d7);
   u8 (Z.lxor r8 d8); u8 (Z.lxor r9 d9); u8 (Z.lxor r10 d10); u8 (Z.lxor r11 d11);
   u8 (Z.lxor r12 d12); u8 (Z.lxor r13 d13); u8 (Z.lxor r14 d14); u8 (Z.lxor r15 d15)].
Proof. reflexivity. Qed.

Lemma xor16Bytes_xor_block (r d : list Z) :
  is_block r -> is_block d -> xor16Bytes r d = xor_block r d.
Proof.
  intros Hr Hd. name_block Hr. name_block' Hd.
  rewrite xor16Bytes_unfold. unfold xor_block. cbn [zip_with].
  rewrite !u8_id by (apply lxor_byte; assumption). reflexivity.
Qed.

Lemma xor_block_block (a b : list Z) : is_block a -> is_block b -> is_block (xor_block a b).
Proof.
  intros Ha Hb. name_block Ha. name_block' Hb.
  split; [reflexivity|]. unfold xor_block. cbn [zip_with].
  repeat constructor; apply lxor_byte; assumption.
Qed.

Lemma xor_block_cancel (a b : list Z) :
  length a = length b -> xor_block (xor_block a b) b = a.
Proof.
  unfold xor_block. revert b. induction a as [|x a IH]; intros [|y b] Hl; try discriminate.
  - reflexivity.
  - cbn [zip_with]. rewrite lxor_cancel, IH; [reflexivity|]. cbn in Hl. lia.
Qed.

Lemma copy16 (src : list Z) :
  length src = 16%nat ->
  for_u8 256 0 16 (fun i buffer => wr buffer i (rd src i)) fresh16 = src.
Proof. intros H. explode_block src H. reflexivity. Qed.

Lemma iter_doubleInGF_block (k : nat) (b : list Z) :
  is_block b -> is_block (Nat.iter k doubleInGF b).
Proof.
  intros H. induction k as [|k IH]; [exact H|]. cbn [Nat.iter]. apply doubleInGF_block, IH.
Qed.

Lemma deref_insert (m : gmap positive (list Z)) (p : positive) (v : list Z) :
  deref (<[p := v]> m) p = v.
Proof. unfold deref. rewrite lookup_insert_eq. reflexivity. Qed.

Lemma deref_insert_ne (m : gmap positive (list Z)) (p q : positive) (v : list Z) :
  p <> q -> deref (<[p := v]> m) q = deref m q.
Proof. intros H. unfold deref. rewrite lookup_insert_ne by exact H. reflexivity. Qed.

Section XEXProps.
Context {c : BlockCipher} {Sh : BlockCipherShape c}.

Lemma xex_delta_block (n : list Z) (seq : Z) (tweak_key : list Z) :
  is_block n -> is_block (xex_delta n seq tweak_key).
Proof. intros H. apply iter_doubleInGF_block, aesEncrypt_block, H. Qed.

Lemma xex_enc_block (tk ek n : list Z) (seq : Z) (p : list Z) :
  is_block n -> is_block p -> is_block (xex_enc tk ek n seq p).
Proof.
  intros Hn Hp. pose proof (xex_delta_block n seq tk Hn).
  apply xor_block_block; [apply aesEncrypt_block, xor_block_block|]; assumption.
Qed.

Lemma xex_dec_block (tk ek n : list Z) (seq : Z) (ct : list Z) :
  is_block n -> is_block ct -> is_block (xex_dec tk ek n seq ct).
Proof.
  intros Hn Hp. pose proof (xex_delta_block n seq tk Hn).
  apply xor_block_block; [apply aesDecrypt_block, xor_block_block|]; assumption.
Qed.

(** Decryption undoes encryption under the same tweak and keys. *)
Lemma xex_dec_enc {L : BlockCipherLaws c} (tk ek n : list Z) (seq : Z) (p : list Z) :
  is_block n -> is_block p -> xex_dec tk ek n seq (xex_enc tk ek n seq p) = p.
Proof.
  intros Hn Hp. pose proof (xex_delta_block n seq tk Hn) as Hd.
  unfold xex_dec, xex_enc. cbv zeta.
  pose proof (xor_block_block p _ Hp Hd) as Hpd.
  rewrite xor_block_cancel.
  - rewrite aesDecrypt_aesEncrypt by exact Hpd.
    apply xor_block_cancel. rewrite (is_block_length _ Hp), (is_block_length _ Hd). reflexivity.
  - rewrite (is_block_length _ (aesEncrypt_block _ _ Hpd)), (is_block_length _ Hd). reflexivity.
Qed.

(** The effect of [xexEnDecrypt] on memory: [out] receives the closed form,
    computed from the arrays as they were at the call; nothing else
    changes. *)
Lemma xexEnDecrypt_effect (out in_ n : positive) (seq : Z) (tweak_key encrypt_key : positive)
    (is_decrypt : Z) (m : gmap positive (list Z)) :
  is_block (deref m in_) -> is_block (deref m n) -> 0 <= seq <= 255 ->
  xexEnDecrypt out in_ n seq tweak_key encrypt_key is_decrypt m =
  <[out := if is_decrypt =? 0
           then xex_enc (deref m tweak_key) (deref m encrypt_key) (deref m n) seq (deref m in_)
           else xex_dec (deref m tweak_key) (deref m encrypt_key) (deref m n) seq (deref m in_)]> m.
Proof.
  intros Hin Hn Hseq. unfold xexEnDecrypt. cbv zeta.
  rewrite for_u8_iter by exact Hseq.
  fold (xex_delta (deref m n) seq (deref m tweak_key)).
  pose proof (xex_delta_block (deref m n) seq (deref m tweak_key) Hn) as Hd.
  rewrite copy16 by (apply is_block_length, Hin).
  rewrite (xor16Bytes_xor_block (deref m in_)) by assumption.
  pose proof (xor_block_block _ _ Hin Hd) as Hb.
  destruct (is_decrypt =? 0).
  - rewrite deref_insert, insert_insert_eq.
    rewrite xor16Bytes_xor_block by (try apply aesEncrypt_block; assumption).
    reflexivity.
  - rewrite deref_insert, insert_insert_eq.
    rewrite xor16Bytes_xor_block by (try apply aesDecrypt_block; assumption).
    reflexivity.
Qed.

End XEXProps.

(** ** The adapter's calls into XEX *)

Lemma adapter_mem_deref (ks : key_state) (plaintext ciphertext n : list Z) :
  let m := adapter_mem ks plaintext ciphertext n in
  deref m p_plaintext = plaintext /\ deref m p_ciphertext = ciphertext /\
  deref m p_n = n /\ deref m p_tweak_key = nv_storage_tweak_key ks /\
  deref m p_encrypt_key = nv_storage_encrypt_key ks.
Proof. repeat split; reflexivity. Qed.

Section CallProps.
Context {c : BlockCipher} {Sh : BlockCipherShape c} {rs : RawStore}.

Lemma call_xexDecrypt_value (ks : key_state) (ciphertext n : list Z) (seq : Z) (w : world) :
  is_block ciphertext -> is_block n -> 0 <= seq <= 255 ->
  call_xexDecrypt ks ciphertext n seq w =
  (xex_dec (nv_storage_tweak_key ks) (nv_storage_encrypt_key ks) n seq ciphertext,
   observe w (EvXex true n seq)).
Proof.
  intros Hc Hn Hs. unfold call_xexDecrypt, xexDecrypt. cbv zeta.
  destruct (adapter_mem_deref ks fresh16 ciphertext n) as (_ & E2 & E3 & E4 & E5).
  cbv zeta in *.
  rewrite xexEnDecrypt_effect by (rewrite ?E2, ?E3; assumption).
  rewrite deref_insert, E2, E3, E4, E5. reflexivity.
Qed.

Lemma call_xexEncrypt_value (ks : key_state) (plaintext n : list Z) (seq : Z) (w : world) :
  is_block plaintext -> is_block n -> 0 <= seq <= 255 ->
  call_xexEncrypt ks plaintext n seq w =
  (xex_enc (nv_storage_tweak_key ks) (nv_storage_encrypt_key ks) n seq plaintext,
   observe w (EvXex false n seq)).
Proof.
  intros Hc Hn Hs. unfold call_xexEncrypt, xexEncrypt. cbv zeta.
  destruct (adapter_mem_deref ks plaintext fresh16 n) as (E1 & _ & E3 & E4 & E5).
  cbv zeta in *.
  rewrite xexEnDecrypt_effect by (rewrite ?E1, ?E3; assumption).
  rewrite deref_insert, E1, E3, E4, E5. reflexivity.
Qed.

End CallProps.

(** ** The events of a call *)

Lemma tweak_of_shaped (b : Z) : tweak_shaped (tweak_of b).
Proof. unfold tweak_shaped, tweak_of. do 4 eexists. reflexivity. Qed.

Lemma writeU32LittleEndian_tweak (n : list Z) (b : Z) :
  tweak_shaped n -> writeU32LittleEndian n b = tweak_of b.
Proof. intros (t0 & t1 & t2 & t3 & ->). reflexivity. Qed.

Lemma zeroed_n_shaped : tweak_shaped (for_u8 256 0 16 (fun i n => wr n i 0) fresh16).
Proof. do 4 eexists. reflexivity. Qed.

Lemma tweak_of_block (b : Z) : is_block (tweak_of b).
Proof.
  split; [reflexivity|]. unfold tweak_of.
  repeat constructor; try apply u8_byte; unfold is_byte; lia.
Qed.

Lemma nv_failed_false (r : NonVolatileReturn) : nv_failed r = false -> r = NV_NO_ERROR.
Proof. destruct r; [reflexivity|discriminate]. Qed.

Section Traces.
Context {c : BlockCipher} {rs : RawStore}.

Lemma raw_read_log (w : world) (a len : Z) (r : NonVolatileReturn) (buf : list Z) (w' : world) :
  raw_read w a len = (r, buf, w') -> w_log w' = w_log w ++ [EvRead a len r].
Proof.
  unfold raw_read. destruct (nonVolatileRead (w_nv w) a len) as [[r0 b0] s0].
  intros [= <- <- <-]. reflexivity.
Qed.

Lemma raw_write_log (w : world) (d : list Z) (a len : Z) (r : NonVolatileReturn) (w' : world) :
  raw_write w d a len = (r, w') -> w_log w' = w_log w ++ [EvWrite d a len r].
Proof.
  unfold raw_write. destruct (nonVolatileWrite (w_nv w) d a len) as [r0 s0].
  intros [= <- <-]. reflexivity.
Qed.

Lemma write_loop_trace (ks : key_state) (block_end : Z) (data : list Z) :
  forall (fuel : nat) (b o : Z) (n : list Z) (pos len : Z) (w : world)
         (res : option NonVolatileReturn) (w' : world),
    tweak_shaped n ->
    write_loop fuel ks b block_end o n data pos len w = (res, w') ->
    exists evs, w_log w' = w_log w ++ evs /\ block_trace true block_end b evs res.
Proof.
  induction fuel as [|fuel IH]; intros b o n pos len w res w' Hn H.
  - injection H as <- <-. exists []. rewrite app_nil_r. split; [reflexivity|constructor].
  - cbn [write_loop] in H. destruct (Z.leb_spec b block_end) as [Hle|Hgt].
    2:{ injection H as <- <-. exists []. rewrite app_nil_r.
        split; [reflexivity|constructor; lia]. }
    destruct (raw_read w b 16) as [[r ct] w1] eqn:Er.
    pose proof (raw_read_log _ _ _ _ _ _ Er) as Hl1.
    destruct (nv_failed r) eqn:Ef.
    { injection H as <- <-. exists [EvRead b 16 r]. split; [exact Hl1|].
      constructor; assumption. }
    apply nv_failed_false in Ef. subst r.
    rewrite (writeU32LittleEndian_tweak n b Hn) in H.
    unfold call_xexDecrypt, call_xexEncrypt in H. cbv zeta in H.
    destruct (write_copy 256 _ data pos o len) as [[[pt pos'] o'] len'].
    destruct (raw_write _ _ b 16) as [r2 w2] eqn:Ew.
    pose proof (raw_write_log _ _ _ _ _ _ Ew) as Hl2.
    cbn [observe w_log] in Hl2.
    destruct (nv_failed r2) eqn:Ef2.
    { injection H as <- <-. eexists. split.
      - rewrite Hl2, Hl1. rewrite <- !app_assoc. reflexivity.
      - cbn [app]. apply bt_write_failed; [assumption|reflexivity|assumption]. }
    apply nv_failed_false in Ef2. subst r2.
    destruct (IH _ _ _ _ _ _ _ _ (tweak_of_shaped b) H) as (evs & Hlog & Htr).
    eexists. split.
    + rewrite Hlog, Hl2, Hl1. rewrite <- !app_assoc. reflexivity.
    + cbn [app]. apply bt_written; [assumption|reflexivity|exact Htr].
Qed.

Lemma read_loop_trace (ks : key_state) (block_end : Z) :
  forall (fuel : nat) (b o : Z) (n data : list Z) (pos len : Z) (w : world)
         (res : option NonVolatileReturn) (data' : list Z) (w' : world),
    tweak_shaped n ->
    read_loop fuel ks b block_end o n data pos len w = (res, data', w') ->
    exists evs, w_log w' = w_log w ++ evs /\ block_trace false block_end b evs res.
Proof.
  induction fuel as [|fuel IH]; intros b o n data pos len w res data' w' Hn H.
  - injection H as <- <- <-. exists []. rewrite app_nil_r. split; [reflexivity|constructor].
  - cbn [read_loop] in H. destruct (Z.leb_spec b block_end) as [Hle|Hgt].
    2:{ injection H as <- <- <-. exists []. rewrite app_nil_r.
        split; [reflexivity|constructor; lia]. }
    destruct (raw_read w b 16) as [[r ct] w1] eqn:Er.
    pose proof (raw_read_log _ _ _ _ _ _ Er) as Hl1.
    destruct (nv_failed r) eqn:Ef.
    { injection H as <- <- <-. exists [EvRead b 16 r]. split; [exact Hl1|].
      constructor; assumption. }
    apply nv_failed_false in Ef. subst r.
    rewrite (writeU32LittleEndian_tweak n b Hn) in H.
    unfold call_xexDecrypt in H. cbv zeta in H.
    destruct (read_copy 256 _ data pos o len) as [[[data1 pos'] o'] len'].
    destruct (IH _ _ _ _ _ _ _ _ _ _ (tweak_of_shaped b) H) as (evs & Hlog & Htr).
    eexists. split.
    + rewrite Hlog. cbn [observe w_log]. rewrite Hl1, <- !app_assoc. reflexivity.
    + cbn [app]. apply bt_read; [assumption|reflexivity|exact Htr].
Qed.

End Traces.

(** ** Array reads and writes, and the copy loops *)

Lemma rd_lookup (a : list Z) (i : Z) (x : Z) :
  a !! Z.to_nat i = Some x -> rd a i = x.
Proof. unfold rd. intros ->. reflexivity. Qed.

Lemma rd_wr_eq (a : list Z) (i v : Z) :
  (Z.to_nat i < length a)%nat -> rd (wr a i v) i = v.
Proof. intros H. unfold rd, wr. rewrite list_lookup_insert_eq by exact H. reflexivity. Qed.

Lemma rd_wr_ne (a : list Z) (i j v : Z) :
  0 <= i -> 0 <= j -> i <> j -> rd (wr a i v) j = rd a j.
Proof.
  intros Hi Hj H. unfold rd, wr. rewrite list_lookup_insert_ne by lia. reflexivity.
Qed.

Lemma length_wr (a : list Z) (i v : Z) : length (wr a i v) = length a.
Proof. apply length_insert. Qed.

Lemma rd_byte (a : list Z) (i : Z) : Forall is_byte a -> is_byte (rd a i).
Proof.
  intros H. unfold rd. destruct (a !! Z.to_nat i) as [x|] eqn:E; cbn.
  - rewrite Forall_forall in H. apply H. eapply list_elem_of_lookup_2, E.
  - unfold is_byte. lia.
Qed.

Lemma wr_bytes (a : list Z) (i v : Z) :
  Forall is_byte a -> is_byte v -> Forall is_byte (wr a i v).
Proof. intros Ha Hv. unfold wr. apply Forall_insert; assumption. Qed.

(** Two arrays of the same length with the same elements are equal. *)
Lemma rd_ext (a b : list Z) :
  length a = length b ->
  (forall j, 0 <= j < Z.of_nat (length a) -> rd a j = rd b j) -> a = b.
Proof.
  intros Hl H. apply list_eq. intros i.
  destruct (Nat.lt_ge_cases i (length a)) as [Hlt|Hge].
  - destruct (lookup_lt_is_Some_2 a i Hlt) as [x Hx].
    destruct (lookup_lt_is_Some_2 b i ltac:(lia)) as [y Hy].
    specialize (H (Z.of_nat i) ltac:(lia)).
    unfold rd in H. rewrite Nat2Z.id, Hx, Hy in H. cbn in H. subst y.
    rewrite Hx, Hy. reflexivity.
  - rewrite !lookup_ge_None_2 by lia. reflexivity.
Qed.

(** The overlay loop of the write path copies [k = min(len, 16 - offset)]
    bytes of the caller's data into the plaintext block. *)
Lemma write_copy_spec (data : list Z) :
  forall (fuel : nat) (pt : list Z) (pos o len : Z),
    length pt = 16%nat -> 0 <= o <= 16 -> 0 <= len < 256 -> (Z.to_nat len < fuel)%nat ->
    let k := Z.min len (16 - o) in
    exists pt',
      write_copy fuel pt data pos o len = (pt', pos + k, o + k, len - k) /\
      length pt' = 16%nat /\
      (forall j, 0 <= j ->
         rd pt' j = if (o <=? j) && (j <? o + k) then rd data (pos + (j - o)) else rd pt j) /\
      (Forall is_byte pt -> Forall is_byte data -> Forall is_byte pt').
Proof.
  induction fuel as [|fuel IH]; intros pt pos o len Hl Ho Hlen Hf k; [lia|].
  cbn [write_copy].
  destruct (Z.eqb_spec len 0) as [E0|E0]; cbn [negb andb].
  { exists pt. subst k. replace (Z.min len (16 - o)) with 0 by lia.
    rewrite !Z.add_0_r, Z.sub_0_r.
    split; [reflexivity|]. split; [assumption|].
    split; [intros j Hj; split_cmp|intros; assumption]. }
  destruct (Z.ltb_spec o 16) as [Hlt|Hge].
  2:{ exists pt. subst k. replace (Z.min len (16 - o)) with 0 by lia.
    rewrite !Z.add_0_r, Z.sub_0_r.
    split; [reflexivity|]. split; [assumption|].
    split; [intros j Hj; split_cmp|intros; assumption]. }
  assert (Hu1 : u8 (o + 1) = o + 1) by (apply u8_id; unfold is_byte; lia).
  assert (Hu2 : u8 (len - 1) = len - 1) by (apply u8_id; unfold is_byte; lia).
  rewrite Hu1, Hu2.
  destruct (IH (wr pt o (rd data pos)) (pos + 1) (o + 1) (len - 1))
    as (pt' & E & Hl' & Hrd & Hb); try lia.
  { rewrite length_wr. exact Hl. }
  exists pt'. subst k. rewrite E.
  replace (Z.min len (16 - o)) with (Z.min (len - 1) (16 - (o + 1)) + 1) by lia.
  set (k' := Z.min (len - 1) (16 - (o + 1))) in *.
  split; [f_equal; [f_equal; [f_equal|]|]; lia|].
  split; [exact Hl'|]. split.
  - intros j Hj. rewrite (Hrd j Hj).
    split_cmp;
      try (f_equal; lia);
      try (rewrite rd_wr_ne by lia; reflexivity);
      replace j with o by lia; rewrite rd_wr_eq by lia; f_equal; lia.
  - intros Hp Hd. apply Hb; [|exact Hd]. apply wr_bytes; [exact Hp|]. apply rd_byte, Hd.
Qed.

(** The copy loop of the read path copies [k = min(len, 16 - offset)] bytes
    of the plaintext block into the caller's array. *)
Lemma read_copy_spec (pt : list Z) :
  forall (fuel : nat) (data : list Z) (pos o len : Z),
    0 <= o <= 16 -> 0 <= len < 256 -> (Z.to_nat len < fuel)%nat ->
    0 <= pos -> pos + len <= Z.of_nat (length data) ->
    let k := Z.min len (16 - o) in
    exists data',
      read_copy fuel pt data pos o len = (data', pos + k, o + k, len - k) /\
      length data' = length data /\
      (forall j, 0 <= j ->
         rd data' j = if (pos <=? j) && (j <? pos + k) then rd pt (o + (j - pos)) else rd data j).
Proof.
  induction fuel as [|fuel IH]; intros data pos o len Ho Hlen Hf Hpos Hfit k; [lia|].
  cbn [read_copy].
  destruct (Z.eqb_spec len 0) as [E0|E0]; cbn [negb andb].
  { exists data. subst k. replace (Z.min len (16 - o)) with 0 by lia.
    rewrite !Z.add_0_r, Z.sub_0_r.
    split; [reflexivity|]. split; [reflexivity|]. intros j Hj; split_cmp. }
  destruct (Z.ltb_spec o 16) as [Hlt|Hge].
  2:{ exists data. subst k. replace (Z.min len (16 - o)) with 0 by lia.
    rewrite !Z.add_0_r, Z.sub_0_r.
    split; [reflexivity|]. split; [reflexivity|]. intros j Hj; split_cmp. }
  assert (Hu1 : u8 (o + 1) = o + 1) by (apply u8_id; unfold is_byte; lia).
  assert (Hu2 : u8 (len - 1) = len - 1) by (apply u8_id; unfold is_byte; lia).
  rewrite Hu1, Hu2.
  destruct (IH (wr data pos (rd pt o)) (pos + 1) (o + 1) (len - 1))
    as (data' & E & Hl' & Hrd); try lia.
  { rewrite length_wr. lia. }
  exists data'. subst k. rewrite E.
  replace (Z.min len (16 - o)) with (Z.min (len - 1) (16 - (o + 1)) + 1) by lia.
  set (k' := Z.min (len - 1) (16 - (o + 1))) in *.
  split; [f_equal; [f_equal; [f_equal|]|]; lia|].
  split; [rewrite Hl'; apply length_wr|].
  intros j Hj. rewrite (Hrd j Hj).
  split_cmp;
    try (f_equal; lia);
    try (rewrite rd_wr_ne by lia; reflexivity);
    replace j with pos by lia; rewrite rd_wr_eq by lia; f_equal; lia.
Qed.

(** ** Block arithmetic *)

Lemma land_low4 (a : Z) : Z.land a 0x0000000f = a mod 16.
Proof. change 0x0000000f with (Z.ones 4). rewrite Z.land_ones by lia. reflexivity. Qed.

Lemma land_block_aligned (a : Z) : (Z.land a 0xfffffff0) mod 16 = 0.
Proof.
  rewrite <- land_low4, <- Z.land_assoc. change (Z.land 0xfffffff0 0x0000000f) with 0.
  apply Z.land_0_r.
Qed.

Lemma land_block (a : Z) : 0 <= a < 2 ^ 32 -> Z.land a 0xfffffff0 = a - a mod 16.
Proof.
  intros Ha.
  assert (H0 : Z.land (Z.land a 0xfffffff0) (Z.land a 0x0000000f) = 0).
  { rewrite (Z.land_comm a 0xfffffff0), <- Z.land_assoc, (Z.land_assoc a).
    rewrite Z.land_diag, (Z.land_comm a), Z.land_assoc.
    change (Z.land 0xfffffff0 0x0000000f) with 0. apply Z.land_0_l. }
  assert (H : Z.land a 0xfffffff0 + Z.land a 0x0000000f = a).
  { rewrite (Z.add_nocarry_lxor _ _ H0), (Z.lxor_lor _ _ H0).
    rewrite <- Z.land_lor_distr_r. change (Z.lor 0xfffffff0 0x0000000f) with (Z.ones 32).
    rewrite Z.land_ones by lia. apply Z.mod_small. lia. }
  rewrite land_low4 in H. lia.
Qed.

Lemma land_block_range (a : Z) : 0 <= a < 2 ^ 32 -> 0 <= Z.land a 0xfffffff0 < 2 ^ 32.
Proof. intros Ha. rewrite land_block by exact Ha. Z.div_mod_to_equations. lia. Qed.

Lemma u32_small (x : Z) : 0 <= x < 2 ^ 32 -> u32 x = x.
Proof. intros H. unfold u32. apply Z.mod_small, H. Qed.

Lemma u32_range (x : Z) : 0 <= u32 x < 2 ^ 32.
Proof. unfold u32. apply Z.mod_pos_bound. lia. Qed.

Lemma u32_aligned (x : Z) : x mod 16 = 0 -> u32 x mod 16 = 0.
Proof.
  intros H. unfold u32.
  replace (2 ^ 32) with (16 * 2 ^ 28) by reflexivity.
  rewrite Z.rem_mul_r by lia. rewrite H.
  rewrite Z.add_0_l, Z.mul_comm, Z.mod_mul by lia. reflexivity.
Qed.

Lemma aligned_top (b : Z) : 0 <= b < 2 ^ 32 -> b mod 16 = 0 -> b <= 0xfffffff0.
Proof. intros Hb Hm. Z.div_mod_to_equations. lia. Qed.

(** ** A loop whose last block is the top block of the address space *)

Section Wrap.
Context {c : BlockCipher} {rs : RawStore}.

(** The block counter wraps from 0xfffffff0 to 0, so the loop condition
    stays true: the call cannot return [NV_NO_ERROR]. *)
Lemma write_loop_wraps (ks : key_state) (block_end : Z) (data : list Z) :
  0xfffffff0 <= block_end ->
  forall (fuel : nat) (b o : Z) (n : list Z) (pos len : Z) (w w' : world),
    0 <= b < 2 ^ 32 -> b mod 16 = 0 ->
    write_loop fuel ks b block_end o n data pos len w <> (Some NV_NO_ERROR, w').
Proof.
  intros Hbe. induction fuel as [|fuel IH]; intros b o n pos len w w' Hb Hm H.
  - discriminate H.
  - cbn [write_loop] in H. pose proof (aligned_top b Hb Hm).
    destruct (Z.leb_spec b block_end); [|lia].
    destruct (raw_read w b 16) as [[r ct] w1].
    destruct (nv_failed r) eqn:Ef. { injection H as -> _. discriminate Ef. }
    destruct (call_xexDecrypt _ _ _ _ _) as [pt w2].
    destruct (write_copy 256 _ _ _ _ _) as [[[pt' pos'] o'] len'].
    destruct (call_xexEncrypt _ _ _ _ _) as [ct' w3].
    destruct (raw_write _ _ _ _) as [r2 w4].
    destruct (nv_failed r2) eqn:Ef2. { injection H as -> _. discriminate Ef2. }
    apply IH in H; [exact H|apply u32_range|apply u32_aligned].
    rewrite Z.add_mod, Hm by lia. reflexivity.
Qed.

Lemma read_loop_wraps (ks : key_state) (block_end : Z) :
  0xfffffff0 <= block_end ->
  forall (fuel : nat) (b o : Z) (n data : list Z) (pos len : Z) (w : world)
         (data' : list Z) (w' : world),
    0 <= b < 2 ^ 32 -> b mod 16 = 0 ->
    read_loop fuel ks b block_end o n data pos len w <> (Some NV_NO_ERROR, data', w').
Proof.
  intros Hbe. induction fuel as [|fuel IH]; intros b o n data pos len w data' w' Hb Hm H.
  - discriminate H.
  - cbn [read_loop] in H. pose proof (aligned_top b Hb Hm).
    destruct (Z.leb_spec b block_end); [|lia].
    destruct (raw_read w b 16) as [[r ct] w1].
    destruct (nv_failed r) eqn:Ef. { injection H as -> _ _. discriminate Ef. }
    destruct (call_xexDecrypt _ _ _ _ _) as [pt w2].
    destruct (read_copy 256 _ _ _ _ _) as [[[data1 pos'] o'] len'].
    apply IH in H; [exact H|apply u32_range|apply u32_aligned].
    rewrite Z.add_mod, Hm by lia. reflexivity.
Qed.

End Wrap.

(** ** Decrypted contents of storage *)

Lemma rd_map_block (f : Z -> Z) (b j : Z) :
  0 <= j < 16 -> rd (map f (block_addrs b)) j = f (b + j).
Proof.
  intros Hj. replace j with (Z.of_nat (Z.to_nat j)) by lia.
  assert (Hk : (Z.to_nat j < 16)%nat) by lia.
  generalize dependent (Z.to_nat j). intros k Hk.
  do 16 (destruct k as [|k]; [reflexivity|]). lia.
Qed.

Lemma length_map_block (f : Z -> Z) (b : Z) : length (map f (block_addrs b)) = 16%nat.
Proof. reflexivity. Qed.

Section Content.
Context {c : BlockCipher} {L : BlockCipherLaws c} {rs : RawStore}
        {nv_byte : nv_state -> Z -> Z} {SL : RawStoreLaws rs nv_byte}.
Variable ks : key_state.

Local Abbreviation tk := (nv_storage_tweak_key ks).
Local Abbreviation ek := (nv_storage_encrypt_key ks).

Lemma stored_block (s : nv_state) (b : Z) : is_block (map (nv_byte s) (block_addrs b)).
Proof.
  split; [reflexivity|]. unfold block_addrs. cbn [seq map].
  repeat constructor; apply nv_byte_range.
Qed.

Lemma plain_block_block (s : nv_state) (b : Z) : is_block (plain_block nv_byte ks s b).
Proof. apply xex_dec_block; [apply tweak_of_block|apply stored_block]. Qed.

Lemma raw_read_block (w : world) (b : Z) (ct : list Z) (w1 : world) :
  raw_read w b 16 = (NV_NO_ERROR, ct, w1) ->
  ct = map (nv_byte (w_nv w)) (block_addrs b) /\
  forall x, nv_byte (w_nv w1) x = nv_byte (w_nv w) x.
Proof.
  unfold raw_read. destruct (nonVolatileRead (w_nv w) b 16) as [[r d] s] eqn:E.
  intros [= -> -> <-]. cbn [w_nv]. apply (nonVolatileRead_ok _ _ _ _ E).
Qed.

Lemma raw_write_block (w : world) (d : list Z) (b : Z) (w2 : world) :
  is_block d ->
  raw_write w d b 16 = (NV_NO_ERROR, w2) ->
  map (nv_byte (w_nv w2)) (block_addrs b) = d /\
  forall x, ~ (b <= x < b + 16) -> nv_byte (w_nv w2) x = nv_byte (w_nv w) x.
Proof.
  intros Hd. unfold raw_write.
  destruct (nonVolatileWrite (w_nv w) d b 16) as [r s] eqn:E.
  intros [= -> <-]. cbn [w_nv].
  pose proof (nonVolatileWrite_ok _ _ _ _ Hd E) as H. split.
  - apply rd_ext.
    + rewrite length_map_block. symmetry. apply is_block_length, Hd.
    + rewrite length_map_block. intros j Hj. rewrite rd_map_block by lia.
      rewrite H. split_cmp. f_equal. lia.
  - intros x Hx. rewrite H. split_cmp.
Qed.

Lemma plain_block_ext (s1 s2 : nv_state) (b : Z) :
  (forall x, b <= x < b + 16 -> nv_byte s1 x = nv_byte s2 x) ->
  plain_block nv_byte ks s1 b = plain_block nv_byte ks s2 b.
Proof.
  intros H. unfold plain_block. f_equal. apply rd_ext.
  - reflexivity.
  - rewrite length_map_block. intros j Hj. rewrite !rd_map_block by lia. apply H. lia.
Qed.

Lemma block_of_aligned (x : Z) : (x - x mod 16) mod 16 = 0.
Proof. Z.div_mod_to_equations. lia. Qed.

(** One read-modify-write of the block at [b]: the bytes the overlay loop
    copied are the new decrypted contents, everything else decrypts as
    before. *)
Lemma rmw_block_content (data : list Z) (b o pos len : Z) (w w1 w1' w2 : world)
    (ct pt' : list Z) (pos' o' len' : Z) :
  Forall is_byte data ->
  b mod 16 = 0 -> 0 <= o < 16 -> 0 <= len < 256 ->
  raw_read w b 16 = (NV_NO_ERROR, ct, w1) ->
  write_copy 256 (xex_dec tk ek (tweak_of b) 1 ct) data pos o len = (pt', pos', o', len') ->
  w_nv w1' = w_nv w1 ->
  raw_write w1' (xex_enc tk ek (tweak_of b) 1 pt') b 16 = (NV_NO_ERROR, w2) ->
  (pos' = pos + Z.min len (16 - o) /\ len' = len - Z.min len (16 - o)) /\
  forall x,
    plain_byte nv_byte ks (w_nv w2) x =
    if (b + o <=? x) && (x <? b + o + Z.min len (16 - o))
    then rd data (pos + (x - (b + o)))
    else plain_byte nv_byte ks (w_nv w) x.
Proof.
  intros Hdata Hb Ho Hlen Hrd Hcp Hnv Hwr.
  destruct (raw_read_block _ _ _ _ Hrd) as [Ect Hsame].
  assert (Hpt : is_block (xex_dec tk ek (tweak_of b) 1 ct)).
  { rewrite Ect. apply plain_block_block. }
  destruct (write_copy_spec data 256 _ pos o len (is_block_length _ Hpt)
              ltac:(lia) Hlen ltac:(lia)) as (pt2 & E & Hl2 & Hrd2 & Hb2).
  cbv zeta in E. rewrite E in Hcp. injection Hcp as -> <- <- <-.
  assert (Hpt' : is_block pt') by (split; [exact Hl2|apply Hb2; [apply Hpt|exact Hdata]]).
  destruct (raw_write_block _ _ _ _ (xex_enc_block _ _ _ _ _ (tweak_of_block b) Hpt') Hwr)
    as [Estored Hframe].
  split; [split; reflexivity|]. intros x.
  pose proof (block_of_aligned x) as Hbx.
  destruct (Z.eq_dec (x - x mod 16) b) as [Eb|Nb].
  - unfold plain_byte at 1. rewrite Eb. unfold plain_block. rewrite Estored.
    rewrite xex_dec_enc by (try apply tweak_of_block; exact Hpt').
    rewrite Hrd2 by (Z.div_mod_to_equations; lia).
    assert (Hx : x = b + x mod 16) by lia.
    split_cmp.
    + f_equal. lia.
    + unfold plain_byte. rewrite Eb. unfold plain_block. rewrite <- Ect. reflexivity.
    + unfold plain_byte. rewrite Eb. unfold plain_block. rewrite <- Ect. reflexivity.
  - assert (Hout : ~ (b <= x < b + 16)) by (Z.div_mod_to_equations; lia).
    assert (Hblk : plain_block nv_byte ks (w_nv w2) (x - x mod 16) =
                   plain_block nv_byte ks (w_nv w) (x - x mod 16)).
    { apply plain_block_ext. intros y Hy.
      rewrite Hframe by (Z.div_mod_to_equations; lia).
      rewrite Hnv. apply Hsame. }
    unfold plain_byte. rewrite Hblk. split_cmp.
Qed.

Lemma plain_byte_ext (s1 s2 : nv_state) (x : Z) :
  (forall y, nv_byte s1 y = nv_byte s2 y) ->
  plain_byte nv_byte ks s1 x = plain_byte nv_byte ks s2 x.
Proof.
  intros H. unfold plain_byte.
  rewrite (plain_block_ext s1 s2 (x - x mod 16)); [reflexivity|]. intros y _. apply H.
Qed.

Lemma plain_byte_in_block (s : nv_state) (b i : Z) :
  b mod 16 = 0 -> 0 <= i < 16 ->
  plain_byte nv_byte ks s (b + i) = rd (plain_block nv_byte ks s b) i.
Proof.
  intros Hb Hi. unfold plain_byte.
  replace ((b + i) mod 16) with i by (Z.div_mod_to_equations; lia).
  replace (b + i - i) with b by lia. reflexivity.
Qed.

(** What an error-free run of the write loop leaves in storage: the
    caller's bytes in the part of [[b + o, b + o + len)] that lies in the
    blocks up to [block_end], and the former decrypted contents everywhere
    else. *)
Lemma write_loop_content (data : list Z) (block_end : Z) :
  Forall is_byte data -> block_end mod 16 = 0 -> block_end < 2 ^ 32 ->
  forall (fuel : nat) (b o : Z) (n : list Z) (pos len : Z) (w w' : world),
    0 <= b < 2 ^ 32 -> b mod 16 = 0 -> 0 <= o < 16 -> 0 <= len < 256 -> tweak_shaped n ->
    write_loop fuel ks b block_end o n data pos len w = (Some NV_NO_ERROR, w') ->
    forall x,
      plain_byte nv_byte ks (w_nv w') x =
      if (b + o <=? x) && (x <? b + o + len) && (x <? block_end + 16)
      then rd data (pos + (x - (b + o)))
      else plain_byte nv_byte ks (w_nv w) x.
Proof.
  intros Hdata Hbe Hbe32.
  induction fuel as [|fuel IH]; intros b o n pos len w w' Hb Hbm Ho Hlen Hn H; [discriminate H|].
  pose proof H as Hrun.
  cbn [write_loop] in H. destruct (Z.leb_spec b block_end) as [Hle|Hgt].
  2:{ injection H as <-. intros x.
      assert (block_end + 16 <= b) by (Z.div_mod_to_equations; lia). split_cmp. }
  destruct (raw_read w b 16) as [[r ct] w1] eqn:Er.
  destruct (nv_failed r) eqn:Ef. { injection H as -> _. discriminate Ef. }
  apply nv_failed_false in Ef. subst r.
  rewrite (writeU32LittleEndian_tweak n b Hn) in H.
  destruct (raw_read_block _ _ _ _ Er) as [Ect _].
  assert (Hct : is_block ct) by (rewrite Ect; apply stored_block).
  rewrite call_xexDecrypt_value in H by (try apply tweak_of_block; try exact Hct; lia).
  destruct (write_copy 256 _ data pos o len) as [[[pt' pos'] o'] len'] eqn:Ecp.
  assert (Hpt' : is_block pt').
  { pose proof (xex_dec_block tk ek (tweak_of b) 1 ct (tweak_of_block b) Hct) as Hpt.
    destruct (write_copy_spec data 256 _ pos o len (is_block_length _ Hpt)
                ltac:(lia) Hlen ltac:(lia)) as (pt2 & E & Hl2 & _ & Hb2).
    cbv zeta in E. rewrite E in Ecp. injection Ecp as -> _ _ _.
    split; [exact Hl2|apply Hb2; [apply Hpt|exact Hdata]]. }
  rewrite call_xexEncrypt_value in H by (try apply tweak_of_block; try exact Hpt'; lia).
  destruct (raw_write _ _ b 16) as [r2 w2] eqn:Ew.
  destruct (nv_failed r2) eqn:Ef2. { injection H as -> _. discriminate Ef2. }
  apply nv_failed_false in Ef2. subst r2.
  destruct (rmw_block_content data b o pos len w w1
              (observe (observe w1 (EvXex true (tweak_of b) 1)) (EvXex false (tweak_of b) 1))
              w2 ct pt' pos' o' len' Hdata Hbm Ho Hlen Er Ecp eq_refl Ew) as [[-> ->] Hstep].
  destruct (Z.lt_ge_cases (b + 16) (2 ^ 32)) as [Hnw|Hw].
  - rewrite u32_small in H by lia.
    assert (Hbm' : (b + 16) mod 16 = 0) by (Z.div_mod_to_equations; lia).
    pose proof (fun h1 h3 h4 => IH _ _ _ _ _ _ _ h1 Hbm' h3 h4 (tweak_of_shaped b) H) as Hrest.
    specialize (Hrest ltac:(lia) ltac:(lia) ltac:(lia)).
    intros x. rewrite (Hrest x), (Hstep x). split_cmp; f_equal; lia.
  - exfalso. apply (write_loop_wraps ks block_end data) in H; [exact H| |apply u32_range|].
    + pose proof (aligned_top b Hb Hbm).
      assert (b = 0xfffffff0) by (Z.div_mod_to_equations; lia). lia.
    + apply u32_aligned. Z.div_mod_to_equations; lia.
Qed.

(** What an error-free run of the read loop does: storage is as before, and
    the caller's array holds the decrypted bytes from address [b + o] on, as
    far as the blocks up to [block_end] reach. *)
Lemma read_loop_content (block_end : Z) :
  block_end mod 16 = 0 -> block_end < 2 ^ 32 ->
  forall (fuel : nat) (b o : Z) (n data : list Z) (pos len : Z) (w : world)
         (data' : list Z) (w' : world),
    0 <= b < 2 ^ 32 -> b mod 16 = 0 -> 0 <= o < 16 -> 0 <= len < 256 -> tweak_shaped n ->
    0 <= pos -> pos + len <= Z.of_nat (length data) ->
    read_loop fuel ks b block_end o n data pos len w = (Some NV_NO_ERROR, data', w') ->
    (forall x, nv_byte (w_nv w') x = nv_byte (w_nv w) x) /\
    length data' = length data /\
    forall j, 0 <= j ->
      rd data' j =
      if (pos <=? j) && (j <? pos + len) && (b + o + (j - pos) <? block_end + 16)
      then plain_byte nv_byte ks (w_nv w) (b + o + (j - pos))
      else rd data j.
Proof.
  intros Hbe Hbe32.
  induction fuel as [|fuel IH];
    intros b o n data pos len w data' w' Hb Hbm Ho Hlen Hn Hpos Hfit H; [discriminate H|].
  cbn [read_loop] in H. destruct (Z.leb_spec b block_end) as [Hle|Hgt].
  2:{ injection H as <- <-. split; [reflexivity|]. split; [reflexivity|]. intros j Hj.
      assert (block_end + 16 <= b) by (Z.div_mod_to_equations; lia). split_cmp. }
  destruct (raw_read w b 16) as [[r ct] w1] eqn:Er.
  destruct (nv_failed r) eqn:Ef. { injection H as -> _. discriminate Ef. }
  apply nv_failed_false in Ef. subst r.
  rewrite (writeU32LittleEndian_tweak n b Hn) in H.
  destruct (raw_read_block _ _ _ _ Er) as [Ect Hsame].
  assert (Hct : is_block ct) by (rewrite Ect; apply stored_block).
  rewrite call_xexDecrypt_value in H by (try apply tweak_of_block; try exact Hct; lia).
  destruct (read_copy_spec (xex_dec tk ek (tweak_of b) 1 ct) 256 data pos o len
              ltac:(lia) Hlen ltac:(lia) Hpos Hfit) as (data1 & E & Hl1 & Hrd1).
  cbv zeta in E. rewrite E in H.
  destruct (Z.lt_ge_cases (b + 16) (2 ^ 32)) as [Hnw|Hw].
  - rewrite u32_small in H by lia.
    assert (Hbm' : (b + 16) mod 16 = 0) by (Z.div_mod_to_equations; lia).
    pose proof (fun h1 h3 h4 h6 h7 =>
                  IH _ _ _ _ _ _ _ _ _ h1 Hbm' h3 h4 (tweak_of_shaped b) h6 h7 H) as Hrest.
    specialize (Hrest ltac:(lia) ltac:(lia) ltac:(lia) ltac:(lia) ltac:(lia)).
    destruct Hrest as (Hnv & Hl & Hrest).
    cbn [observe w_nv] in Hnv, Hrest.
    split; [intros x; rewrite Hnv; apply Hsame|].
    split; [rewrite Hl; exact Hl1|].
    intros j Hj. rewrite (Hrest j Hj), (Hrd1 j Hj).
    assert (Hblk : xex_dec tk ek (tweak_of b) 1 ct = plain_block nv_byte ks (w_nv w) b).
    { rewrite Ect. reflexivity. }
    rewrite Hblk.
    split_cmp;
      first [ match goal with
              | |- plain_byte _ _ _ ?x = plain_byte _ _ _ ?y =>
                  replace x with y by lia; apply plain_byte_ext; intros y'; apply Hsame
              end
            | replace (b + o + (j - pos)) with (b + (o + (j - pos))) by lia;
              rewrite plain_byte_in_block by lia; reflexivity ].
  - exfalso. apply (read_loop_wraps ks block_end) in H; [exact H| |apply u32_range|].
    + pose proof (aligned_top b Hb Hbm).
      assert (b = 0xfffffff0) by (Z.div_mod_to_equations; lia). lia.
    + apply u32_aligned. Z.div_mod_to_equations; lia.
Qed.

End Content.

(** ** Termination of the block loops *)

Section Returns.
Context {c : BlockCipher} {rs : RawStore}.

Lemma raw_accepts_read (lo hi : Z) (w : world) (b : Z) :
  raw_accepts rs lo hi -> lo <= b <= hi -> b mod 16 = 0 ->
  exists ct w1, raw_read w b 16 = (NV_NO_ERROR, ct, w1).
Proof.
  intros Ha Hb Hm. destruct (Ha (w_nv w) b Hb Hm) as [Hr _].
  unfold raw_read. destruct (nonVolatileRead (w_nv w) b 16) as [[r d] s].
  cbn in Hr. subst r. eauto.
Qed.

Lemma raw_accepts_write (lo hi : Z) (w : world) (d : list Z) (b : Z) :
  raw_accepts rs lo hi -> lo <= b <= hi -> b mod 16 = 0 ->
  exists w2, raw_write w d b 16 = (NV_NO_ERROR, w2).
Proof.
  intros Ha Hb Hm. destruct (Ha (w_nv w) b Hb Hm) as [_ Hw]. specialize (Hw d).
  unfold raw_write. destruct (nonVolatileWrite (w_nv w) d b 16) as [r s].
  cbn in Hw. subst r. eauto.
Qed.

Lemma raw_accepts_narrow (lo lo' hi : Z) :
  lo <= lo' -> raw_accepts rs lo hi -> raw_accepts rs lo' hi.
Proof. intros Hl Ha s a Hin Hm. apply Ha; [lia|exact Hm]. Qed.

(** With the last block below the top of the address space and a driver
    that accepts the blocks of the range, the write loop returns
    [NV_NO_ERROR] once the fuel exceeds the number of blocks. *)
Lemma write_loop_returns (ks : key_state) (data : list Z) (block_end : Z) :
  block_end < 0xfffffff0 ->
  forall (fuel : nat) (b o : Z) (n : list Z) (pos len : Z) (w : world),
    0 <= b -> b mod 16 = 0 -> raw_accepts rs b block_end ->
    (Z.to_nat ((block_end + 16 - b) / 16) < fuel)%nat ->
    exists w', write_loop fuel ks b block_end o n data pos len w = (Some NV_NO_ERROR, w').
Proof.
  intros Hbe. induction fuel as [|fuel IH]; intros b o n pos len w Hb Hm Ha Hf; [lia|].
  cbn [write_loop]. destruct (Z.leb_spec b block_end) as [Hle|Hgt]; [|eauto].
  destruct (raw_accepts_read b block_end w b Ha ltac:(lia) Hm) as (ct & w1 & ->).
  cbn [nv_failed].
  destruct (call_xexDecrypt _ _ _ _ _) as [pt w2].
  destruct (write_copy 256 _ _ _ _ _) as [[[pt' pos'] o'] len'].
  destruct (call_xexEncrypt _ _ _ _ _) as [ct' w3].
  destruct (raw_accepts_write b block_end w3 ct' b Ha ltac:(lia) Hm) as (w4 & ->).
  cbn [nv_failed].
  rewrite u32_small by lia.
  apply IH.
  - lia.
  - Z.div_mod_to_equations; lia.
  - apply (raw_accepts_narrow b); [lia|exact Ha].
  - Z.div_mod_to_equations; lia.
Qed.

Lemma read_loop_returns (ks : key_state) (block_end : Z) :
  block_end < 0xfffffff0 ->
  forall (fuel : nat) (b o : Z) (n data : list Z) (pos len : Z) (w : world),
    0 <= b -> b mod 16 = 0 -> raw_accepts rs b block_end ->
    (Z.to_nat ((block_end + 16 - b) / 16) < fuel)%nat ->
    exists data' w',
      read_loop fuel ks b block_end o n data pos len w = (Some NV_NO_ERROR, data', w').
Proof.
  intros Hbe. induction fuel as [|fuel IH]; intros b o n data pos len w Hb Hm Ha Hf; [lia|].
  cbn [read_loop]. destruct (Z.leb_spec b block_end) as [Hle|Hgt]; [|eauto].
  destruct (raw_accepts_read b block_end w b Ha ltac:(lia) Hm) as (ct & w1 & ->).
  cbn [nv_failed].
  destruct (call_xexDecrypt _ _ _ _ _) as [pt w2].
  destruct (read_copy 256 _ _ _ _ _) as [[[data1 pos'] o'] len'].
  rewrite u32_small by lia.
  apply IH.
  - lia.
  - Z.div_mod_to_equations; lia.
  - apply (raw_accepts_narrow b); [lia|exact Ha].
  - Z.div_mod_to_equations; lia.
Qed.

(** With the last block at the top of the address space and a driver that
    accepts every block, the loops never return. *)
Lemma write_loop_diverges (ks : key_state) (data : list Z) :
  raw_accepts rs 0 0xfffffff0 ->
  forall (fuel : nat) (b o : Z) (n : list Z) (pos len : Z) (w : world),
    0 <= b < 2 ^ 32 -> b mod 16 = 0 ->
    fst (write_loop fuel ks b 0xfffffff0 o n data pos len w) = None.
Proof.
  intros Ha. induction fuel as [|fuel IH]; intros b o n pos len w Hb Hm; [reflexivity|].
  cbn [write_loop]. pose proof (aligned_top b Hb Hm).
  destruct (Z.leb_spec b 0xfffffff0) as [Hle|Hgt]; [|lia].
  destruct (raw_accepts_read 0 0xfffffff0 w b Ha ltac:(lia) Hm) as (ct & w1 & ->).
  cbn [nv_failed].
  destruct (call_xexDecrypt _ _ _ _ _) as [pt w2].
  destruct (write_copy 256 _ _ _ _ _) as [[[pt' pos'] o'] len'].
  destruct (call_xexEncrypt _ _ _ _ _) as [ct' w3].
  destruct (raw_accepts_write 0 0xfffffff0 w3 ct' b Ha ltac:(lia) Hm) as (w4 & ->).
  cbn [nv_failed].
  apply IH; [apply u32_range|apply u32_aligned; Z.div_mod_to_equations; lia].
Qed.

Lemma read_loop_diverges (ks : key_state) :
  raw_accepts rs 0 0xfffffff0 ->
  forall (fuel : nat) (b o : Z) (n data : list Z) (pos len : Z) (w : world),
    0 <= b < 2 ^ 32 -> b mod 16 = 0 ->
    fst (fst (read_loop fuel ks b 0xfffffff0 o n data pos len w)) = None.
Proof.
  intros Ha. induction fuel as [|fuel IH]; intros b o n data pos len w Hb Hm; [reflexivity|].
  cbn [read_loop]. pose proof (aligned_top b Hb Hm).
  destruct (Z.leb_spec b 0xfffffff0) as [Hle|Hgt]; [|lia].
  destruct (raw_accepts_read 0 0xfffffff0 w b Ha ltac:(lia) Hm) as (ct & w1 & ->).
  cbn [nv_failed].
  destruct (call_xexDecrypt _ _ _ _ _) as [pt w2].
  destruct (read_copy 256 _ _ _ _ _) as [[[data1 pos'] o'] len'].
  apply IH; [apply u32_range|apply u32_aligned; Z.div_mod_to_equations; lia].
Qed.

End Returns.

(** ** The instances of the examples meet the laws *)

Lemma shift_cipher_laws : BlockCipherLaws shift_cipher.
Proof.
  split; [split|].
  - intros b k H. name_block H. split; [reflexivity|].
    cbn [aesEncrypt shift_cipher map rev app]. repeat constructor; apply u8_byte.
  - intros b k H. name_block H. split; [reflexivity|].
    cbn [aesDecrypt shift_cipher map rev app]. repeat constructor; apply u8_byte.
  - intros b k H. name_block H.
    cbn [aesEncrypt aesDecrypt shift_cipher map rev app].
    assert (E : forall x, is_byte x -> u8 (u8 (x + rd k 0) - rd k 0) = x).
    { intros x Hx. unfold u8. rewrite Zminus_mod_idemp_l.
      replace (x + rd k 0 - rd k 0) with x by lia. apply Z.mod_small, Hx. }
    rewrite !E by assumption. reflexivity.
Qed.

Lemma array_write_lookup (d : list Z) (a x : Z) (k : nat) (s : gmap Z Z) :
  fold_left (fun s i => <[a + Z.of_nat i := rd d (Z.of_nat i)]> s) (seq 0 k) s !! x =
  if (a <=? x) && (x <? a + Z.of_nat k) then Some (rd d (x - a)) else s !! x.
Proof.
  induction k as [|k IH].
  - cbn. split_cmp.
  - rewrite seq_S, fold_left_app. cbn [fold_left Nat.add].
    destruct (Z.eq_dec x (a + Z.of_nat k)) as [->|Hne].
    + rewrite lookup_insert_eq. split_cmp. do 2 f_equal. lia.
    + rewrite lookup_insert_ne by lia. rewrite IH. split_cmp.
Qed.

Lemma array_store_laws (lo hi : Z) : RawStoreLaws (array_store lo hi) array_byte.
Proof.
  split.
  - intros s x. apply u8_byte.
  - intros s a d s'. cbn [nonVolatileRead array_store].
    destruct ((lo <=? a) && (a + 16 <=? hi)); [|discriminate].
    intros [= <- <-]. split; reflexivity.
  - intros s d a s' Hd. cbn [nonVolatileWrite array_store].
    destruct ((lo <=? a) && (a + 16 <=? hi)); [|discriminate].
    intros [= <-] x. unfold array_byte, array_write.
    change (Z.to_nat 16) with 16%nat. rewrite array_write_lookup.
    change (Z.of_nat 16) with 16.
    destruct ((a <=? x) && (x <? a + 16)); [|reflexivity].
    cbn [default]. apply u8_id, is_block_rd, Hd.
Qed.

Lemma array_store_accepts (lo hi a b : Z) :
  lo <= a -> b + 16 <= hi -> raw_accepts (array_store lo hi) a b.
Proof.
  intros Ha Hb s x Hx Hm. cbn [nonVolatileRead nonVolatileWrite array_store].
  assert (E : (lo <=? x) && (x + 16 <=? hi) = true) by (split_cmp).
  rewrite E. split; [reflexivity|]. intros d. reflexivity.
Qed.

Lemma example_keys_ok : key_state_ok example_keys.
Proof.
  split; (split; [reflexivity|]); cbn; repeat constructor; unfold is_byte; lia.
Qed.

(** ** What the event language says about a call *)

(** A raw driver call that fails is the last event, and its status is the
    result of the call. *)
Lemma block_trace_failure_last (writes : bool) (block_end b : Z) (evs : list event)
    (res : option NonVolatileReturn) :
  block_trace writes block_end b evs res ->
  forall evs1 e evs2 r,
    evs = evs1 ++ e :: evs2 -> event_status e = Some r -> r <> NV_NO_ERROR ->
    evs2 = [] /\ res = Some r.
Proof.
  induction 1 as [b Hb|b|b r0 Hb Hf|b ct r0 Hb Hw Hf|b ct evs res Hb Hw Ht IH|b evs res Hb Hw Ht IH];
    intros evs1 e evs2 r E Hs Hr.
  - destruct evs1; discriminate E.
  - destruct evs1; discriminate E.
  - destruct evs1 as [|e1 evs1]; [|destruct evs1; discriminate E].
    injection E as <- <-. injection Hs as <-. split; reflexivity.
  - do 4 (destruct evs1 as [|? evs1];
          [injection E as <- <-; cbn in Hs; try discriminate Hs;
           injection Hs as <-; try contradiction; split; reflexivity|];
          injection E as <- E).
    destruct evs1; discriminate E.
  - do 4 (destruct evs1 as [|? evs1];
          [injection E as <- <-; cbn in Hs; try discriminate Hs;
           injection Hs as <-; contradiction|];
          injection E as <- E).
    apply (IH _ _ _ _ E Hs Hr).
  - do 2 (destruct evs1 as [|? evs1];
          [injection E as <- <-; cbn in Hs; try discriminate Hs;
           injection Hs as <-; contradiction|];
          injection E as <- E).
    apply (IH _ _ _ _ E Hs Hr).
Qed.

(** Every XEX call is given the tweak of the block read just before, and
    the sequence number 1. *)
Lemma block_trace_tweaks (writes : bool) (block_end b : Z) (evs : list event)
    (res : option NonVolatileReturn) :
  block_trace writes block_end b evs res ->
  0 <= b < 2 ^ 32 -> b mod 16 = 0 -> forall cur, tweaks_follow_reads cur evs.
Proof.
  induction 1 as [b Hb|b|b r0 Hb Hf|b ct r0 Hb Hw Hf|b ct evs res Hb Hw Ht IH|b evs res Hb Hw Ht IH];
    intros Hr Hm cur; cbn [tweaks_follow_reads]; try exact I.
  - repeat split; eauto 7.
  - repeat split; eauto 7.
    apply IH; [apply u32_range|apply u32_aligned; Z.div_mod_to_equations; lia].
  - repeat split; eauto 7.
    apply IH; [apply u32_range|apply u32_aligned; Z.div_mod_to_equations; lia].
Qed.

(** Below the top of the address space the blocks are read at
    [b], [b + 16], [b + 32], ..., none beyond [block_end]. *)
Lemma block_trace_reads (writes : bool) (block_end b : Z) (evs : list event)
    (res : option NonVolatileReturn) :
  block_trace writes block_end b evs res ->
  0 <= b -> block_end < 0xfffffff0 ->
  forall (i : nat) (a : Z),
    read_addresses evs !! i = Some a -> a = b + 16 * Z.of_nat i /\ a <= block_end.
Proof.
  induction 1 as [b Hb|b|b r0 Hb Hf|b ct r0 Hb Hw Hf|b ct evs res Hb Hw Ht IH|b evs res Hb Hw Ht IH];
    intros H0 Hbe i a Hi; cbn in Hi.
  - discriminate Hi.
  - discriminate Hi.
  - destruct i; [|discriminate Hi]. injection Hi as <-. lia.
  - destruct i; [|discriminate Hi]. injection Hi as <-. lia.
  - destruct i as [|i]; [injection Hi as <-; lia|].
    rewrite u32_small in IH by lia.
    destruct (IH ltac:(lia) Hbe i a Hi). lia.
  - destruct i as [|i]; [injection Hi as <-; lia|].
    rewrite u32_small in IH by lia.
    destruct (IH ltac:(lia) Hbe i a Hi). lia.
Qed.

(** In general the blocks are read at [b], [b + 16], ... modulo 2^32. *)
Lemma block_trace_reads_mod (writes : bool) (block_end b : Z) (evs : list event)
    (res : option NonVolatileReturn) :
  block_trace writes block_end b evs res ->
  0 <= b < 2 ^ 32 ->
  forall (i : nat) (a : Z),
    read_addresses evs !! i = Some a -> a = u32 (b + 16 * Z.of_nat i).
Proof.
  induction 1 as [b Hb|b|b r0 Hb Hf|b ct r0 Hb Hw Hf|b ct evs res Hb Hw Ht IH|b evs res Hb Hw Ht IH];
    intros H0 i a Hi; cbn in Hi.
  - discriminate Hi.
  - discriminate Hi.
  - destruct i; [|discriminate Hi]. injection Hi as <-. rewrite u32_small; lia.
  - destruct i; [|discriminate Hi]. injection Hi as <-. rewrite u32_small; lia.
  - destruct i as [|i]; [injection Hi as <-; rewrite u32_small; lia|].
    rewrite (IH (u32_range _) i a Hi). unfold u32.
    rewrite Zplus_mod_idemp_l. f_equal. lia.
  - destruct i as [|i]; [injection Hi as <-; rewrite u32_small; lia|].
    rewrite (IH (u32_range _) i a Hi). unfold u32.
    rewrite Zplus_mod_idemp_l. f_equal. lia.
Qed.

(** The read path writes nothing. *)
Lemma block_trace_no_writes (block_end b : Z) (evs : list event)
    (res : option NonVolatileReturn) :
  block_trace false block_end b evs res -> write_addresses evs = [].
Proof.
  induction 1 as [| | | |b ct evs res Hb Hw Ht IH|b evs res Hb Hw Ht IH];
    try reflexivity; try discriminate.
  exact IH.
Qed.

(** The i-th raw write goes to the block of the i-th raw read, and there
    is at most one read that has no write yet. *)
Lemma block_trace_writes (writes : bool) (block_end b : Z) (evs : list event)
    (res : option NonVolatileReturn) :
  block_trace writes block_end b evs res ->
  (forall (i : nat) (a : Z),
     write_addresses evs !! i = Some a -> read_addresses evs !! i = Some a) /\
  (writes = true ->
   (length (read_addresses evs) <= length (write_addresses evs) + 1)%nat).
Proof.
  intros H. destruct writes.
  2:{ rewrite (block_trace_no_writes _ _ _ _ H).
      split; [intros i a Hi; discriminate Hi|discriminate]. }
  unfold read_addresses, write_addresses.
  induction H as [b Hb|b|b r0 Hb Hf|b ct r0 Hb Hw Hf|b ct evs res Hb Hw Ht IH|b evs res Hb Hw Ht IH];
    cbn.
  - split; [intros i a Hi; discriminate Hi|intros _; clear; lia].
  - split; [intros i a Hi; discriminate Hi|intros _; clear; lia].
  - split; [intros i a Hi; discriminate Hi|intros _; clear; lia].
  - split; [|intros _; clear; lia]. intros [|i] a Hi; [exact Hi|discriminate Hi].
  - destruct IH as [IH1 IH2]. split.
    + intros [|i] a Hi; [exact Hi|]. apply IH1, Hi.
    + intros _. specialize (IH2 eq_refl). lia.
  - discriminate Hw.
Qed.

(** ** Single bytes of the doubled block *)

Lemma doubleInGF_rd (op1 : list Z) (i : Z) :
  is_block op1 -> 1 <= i <= 15 ->
  rd (doubleInGF op1) i = shl_byte (rd op1 i) (rd op1 (i - 1)).
Proof.
  intros H Hi. name_block H.
  assert (Hc : i = 1 \/ i = 2 \/ i = 3 \/ i = 4 \/ i = 5 \/ i = 6 \/ i = 7 \/ i = 8 \/
               i = 9 \/ i = 10 \/ i = 11 \/ i = 12 \/ i = 13 \/ i = 14 \/ i = 15) by lia.
  repeat (destruct Hc as [-> | Hc]; [reflexivity|]). subst i. reflexivity.
Qed.

Lemma doubleInGF_rd0 (op1 : list Z) :
  is_block op1 -> rd (doubleInGF op1) 0 = low_byte (rd op1 0) (rd op1 15).
Proof. intros H. name_block H. reflexivity. Qed.

(** ** The blocks and data of the examples *)

Lemma example_block_ok : is_block example_block.
Proof. split; [reflexivity|]. cbn. repeat constructor; unfold is_byte; lia. Qed.

Lemma example_tweak_ok : is_block example_tweak.
Proof. split; [reflexivity|]. cbn. repeat constructor; unfold is_byte; lia. Qed.

Lemma example_mem_deref :
  deref example_mem 1 = example_block /\ deref example_mem 2 = example_tweak.
Proof. split; reflexivity. Qed.

Lemma example_data_bytes : Forall is_byte example_data.
Proof. cbn. repeat constructor; unfold is_byte; lia. Qed.

(** ** The block range of a call *)

Lemma adapter_blocks (address len : Z) :
  0 <= address < 2 ^ 32 ->
  let b0 := Z.land address 0xfffffff0 in
  let o := u8 (Z.land address 0x0000000f) in
  let be := Z.land (u32 (address + len - 1)) 0xfffffff0 in
  b0 = address - address mod 16 /\ o = address mod 16 /\
  0 <= b0 < 2 ^ 32 /\ b0 mod 16 = 0 /\ 0 <= o < 16 /\
  be = u32 (address + len - 1) - u32 (address + len - 1) mod 16 /\
  be mod 16 = 0 /\ 0 <= be < 2 ^ 32.
Proof.
  intros Ha b0 o be. subst b0 o be.
  pose proof (u32_range (address + len - 1)) as Hu.
  rewrite !land_block by assumption. rewrite land_low4.
  assert (Ho : 0 <= address mod 16 < 16) by (apply Z.mod_pos_bound; lia).
  rewrite u8_id by (unfold is_byte; lia).
  repeat split; try lia; try apply block_of_aligned; Z.div_mod_to_equations; lia.
Qed.

Lemma tweak_of_little_endian (b : Z) :
  0 <= b < 2 ^ 32 ->
  length (tweak_of b) = 16%nat /\ le_value (take 4 (tweak_of b)) = b /\
  drop 4 (tweak_of b) = replicate 12 0.
Proof.
  intros Hb. split; [reflexivity|]. split; [|reflexivity].
  unfold tweak_of. cbn [take le_value]. unfold u8.
  rewrite !Z.shiftr_div_pow2 by lia.
  change (2 ^ 8) with 256. change (2 ^ 16) with 65536. change (2 ^ 24) with 16777216.
  Z.div_mod_to_equations. lia.
Qed.

Lemma block_trace_orderly (writes : bool) (first_block block_end : Z) (evs : list event)
    (res : option NonVolatileReturn) :
  0 <= first_block ->
  block_trace writes block_end first_block evs res ->
  orderly_trace writes first_block block_end evs res.
Proof.
  intros H0 Ht. split; [exact Ht|].
  split; [exact (block_trace_failure_last _ _ _ _ _ Ht)|].
  destruct (block_trace_writes _ _ _ _ _ Ht) as [Hw1 Hw2].
  split; [exact Hw1|]. split; [exact Hw2|].
  intros Hbe. exact (block_trace_reads _ _ _ _ _ Ht H0 Hbe).
Qed.

Lemma land_block_nonneg (a : Z) : 0 <= Z.land a 0xfffffff0.
Proof. apply Z.land_nonneg. right. lia. Qed.

Lemma land_block_any (a : Z) : 0 <= Z.land a 0xfffffff0 < 2 ^ 32.
Proof.
  change 0xfffffff0 with (Z.land (Z.ones 32) 0xfffffff0).
  rewrite Z.land_assoc, Z.land_ones by lia.
  apply land_block_range, Z.mod_pos_bound. lia.
Qed.

(** ** Reading one byte *)

(** An error-free read of one byte returns the decrypted byte at the
    address. *)
Lemma read_one_byte {c : BlockCipher} {L : BlockCipherLaws c} {rs : RawStore}
    {nv_byte : nv_state -> Z -> Z} {SL : RawStoreLaws rs nv_byte}
    (fuel : nat) (ks : key_state) (buf : list Z) (x : Z) (w : world)
    (d : list Z) (w1 : world) :
  0 <= x < 2 ^ 32 -> length buf = 1%nat ->
  encryptedNonVolatileRead fuel ks buf x 1 w = (Some NV_NO_ERROR, d, w1) ->
  d = [plain_byte nv_byte ks (w_nv w) x].
Proof.
  intros Hx Hbuf Hrun. unfold encryptedNonVolatileRead in Hrun. cbv zeta in Hrun.
  destruct (adapter_blocks x 1 Hx) as (Eb & Eo & Hb & Hbm & Ho & Ee & Hem & He).
  cbv zeta in *.
  assert (He32 : Z.land (u32 (x + 1 - 1)) 0xfffffff0 < 2 ^ 32) by lia.
  assert (Hlen : 0 <= 1 < 256) by lia.
  assert (Hpos : 0 <= 0) by lia.
  assert (Hfit : 0 + 1 <= Z.of_nat (length buf)) by lia.
  destruct (read_loop_content ks _ Hem He32 _ _ _ _ _ _ _ _ _ _
              Hb Hbm Ho Hlen zeroed_n_shaped Hpos Hfit Hrun) as (_ & Hl & Hrd).
  apply rd_ext; [rewrite Hl, Hbuf; reflexivity|].
  intros j Hj. rewrite Hl, Hbuf in Hj. assert (j = 0) by lia. subst j. rewrite Hrd by lia.
  assert (Eu : u32 (x + 1 - 1) = x) by (unfold u32; rewrite Z.mod_small by lia; lia).
  rewrite Ee, Eu, Eb, Eo.
  assert (x < x - x mod 16 + 16) by (Z.div_mod_to_equations; lia).
  split_cmp.
  replace (x - x mod 16 + x mod 16 + (0 - 0)) with x by lia. reflexivity.
Qed.

(** ** Calls of length zero and loops over one block *)

Section ZeroLength.
Context {c : BlockCipher} {rs : RawStore}.

(** A loop over the single block [b], below the top block, returns after
    one iteration. *)
Lemma write_loop_single (ks : key_state) (data : list Z) (fuel : nat) (b o : Z)
    (n : list Z) (pos len : Z) (w : world) :
  (1 < fuel)%nat -> 0 <= b < 0xfffffff0 ->
  exists r w', write_loop fuel ks b b o n data pos len w = (Some r, w').
Proof.
  intros Hf Hb. destruct fuel as [|[|fuel]]; [lia|lia|].
  cbn [write_loop]. rewrite Z.leb_refl.
  destruct (raw_read w b 16) as [[r ct] w1].
  destruct (nv_failed r); [eauto|].
  destruct (call_xexDecrypt _ _ _ _ _) as [pt w2].
  destruct (write_copy 256 _ _ _ _ _) as [[[pt' pos'] o'] len'].
  destruct (call_xexEncrypt _ _ _ _ _) as [ct' w3].
  destruct (raw_write _ _ _ _) as [r2 w4].
  destruct (nv_failed r2); [eauto|].
  rewrite u32_small by lia.
  destruct (Z.leb_spec (b + 16) b); [lia|eauto].
Qed.

Lemma read_loop_single (ks : key_state) (fuel : nat) (b o : Z)
    (n data : list Z) (pos len : Z) (w : world) :
  (1 < fuel)%nat -> 0 <= b < 0xfffffff0 ->
  exists r data' w', read_loop fuel ks b b o n data pos len w = (Some r, data', w').
Proof.
  intros Hf Hb. destruct fuel as [|[|fuel]]; [lia|lia|].
  cbn [read_loop]. rewrite Z.leb_refl.
  destruct (raw_read w b 16) as [[r ct] w1].
  destruct (nv_failed r); [eauto|].
  destruct (call_xexDecrypt _ _ _ _ _) as [pt w2].
  destruct (read_copy 256 _ _ _ _ _) as [[[data1 pos'] o'] len'].
  rewrite u32_small by lia.
  destruct (Z.leb_spec (b + 16) b); [lia|eauto].
Qed.

(** With no byte left to copy the read loop leaves the caller's array
    alone. *)
Lemma read_loop_len0 (ks : key_state) (block_end : Z) :
  forall (fuel : nat) (b o : Z) (n data : list Z) (pos : Z) (w : world)
         (res : option NonVolatileReturn) (data' : list Z) (w' : world),
    read_loop fuel ks b block_end o n data pos 0 w = (res, data', w') -> data' = data.
Proof.
  induction fuel as [|fuel IH]; intros b o n data pos w res data' w' H.
  - injection H as _ <- _. reflexivity.
  - cbn [read_loop] in H. destruct (b <=? block_end).
    2:{ injection H as _ <- _. reflexivity. }
    destruct (raw_read w b 16) as [[r ct] w1].
    destruct (nv_failed r). { injection H as _ <- _. reflexivity. }
    destruct (call_xexDecrypt _ _ _ _ _) as [pt w2].
    change (read_copy 256 pt data pos o 0) with (data, pos, o, 0) in H.
    apply IH in H. exact H.
Qed.

(** With no byte left to copy the write loop does not look at the caller's
    data. *)
Lemma write_loop_len0 (ks : key_state) (block_end : Z) (data : list Z) :
  forall (fuel : nat) (b o : Z) (n : list Z) (pos : Z) (w : world),
    write_loop fuel ks b block_end o n data pos 0 w =
    write_loop fuel ks b block_end o n [] pos 0 w.
Proof.
  induction fuel as [|fuel IH]; intros b o n pos w; [reflexivity|].
  cbn [write_loop]. destruct (b <=? block_end); [|reflexivity].
  destruct (raw_read w b 16) as [[r ct] w1].
  destruct (nv_failed r); [reflexivity|].
  destruct (call_xexDecrypt _ _ _ _ _) as [pt w2].
  change (write_copy 256 pt data pos o 0) with (pt, pos, o, 0).
  change (write_copy 256 pt [] pos o 0) with (pt, pos, o, 0).
  cbv beta iota.
  destruct (call_xexEncrypt _ _ _ _ _) as [ct' w3].
  destruct (raw_write _ _ _ _) as [r2 w4].
  destruct (nv_failed r2); [reflexivity|]. apply IH.
Qed.

End ZeroLength.

(** The events of a returned loop over the single block [b]. *)
Lemma block_trace_single (writes : bool) (b : Z) (evs : list event) (r : NonVolatileReturn) :
  0 <= b < 0xfffffff0 ->
  block_trace writes b b evs (Some r) ->
  (nv_failed r = true /\ evs = [EvRead b 16 r]) \/
  (writes = true /\ exists ct,
     evs = [EvRead b 16 NV_NO_ERROR; EvXex true (tweak_of b) 1; EvXex false (tweak_of b) 1;
            EvWrite ct b 16 r]) \/
  (writes = false /\ r = NV_NO_ERROR /\
   evs = [EvRead b 16 NV_NO_ERROR; EvXex true (tweak_of b) 1]).
Proof.
  intros Hb H. inversion H as [b' Hlt| |b' r' Hle Hf|b' ct r' Hle Hw Hf
                               |b' ct evs' res' Hle Hw Ht|b' evs' res' Hle Hw Ht]; subst.
  - lia.
  - left. split; [assumption|reflexivity].
  - right. left. split; [reflexivity|]. exists ct. reflexivity.
  - right. left. split; [reflexivity|]. exists ct.
    rewrite u32_small in Ht by lia. inversion Ht; subst; try lia. reflexivity.
  - right. right. split; [reflexivity|].
    rewrite u32_small in Ht by lia. inversion Ht; subst; try lia. split; reflexivity.
Qed.

(** * The claims *)

(** ** C1: Read-your-write *)

(** C1, as the code has it.  When the last byte written lies below the top
    block of the 32-bit address space ([address + len - 1 < 0xfffffff0])
    and the raw driver returns no error on the blocks of the range, then,
    with fuel for the at most 17 blocks, [encryptedNonVolatileWrite] of the
    [len >= 1] bytes [B] at [address] returns [NV_NO_ERROR], the following
    [encryptedNonVolatileRead] of the same range returns [NV_NO_ERROR], and
    the buffer read is [B]. *)
Theorem read_your_write {c : BlockCipher} {L : BlockCipherLaws c} {rs : RawStore}
    {nv_byte : nv_state -> Z -> Z} {SL : RawStoreLaws rs nv_byte}
    (fuel : nat) (ks : key_state) (B buf : list Z) (address len : Z) (w : world) :
  0 <= address -> 1 <= len <= 255 -> address + len - 1 < 0xfffffff0 ->
  Z.of_nat (length B) = len -> Forall is_byte B -> Z.of_nat (length buf) = len ->
  raw_accepts rs (Z.land address 0xfffffff0) (Z.land (address + len - 1) 0xfffffff0) ->
  (17 < fuel)%nat ->
  exists w1 buf' w2,
    encryptedNonVolatileWrite fuel ks B address len w = (Some NV_NO_ERROR, w1) /\
    encryptedNonVolatileRead fuel ks buf address len w1 = (Some NV_NO_ERROR, buf', w2) /\
    buf' = B.
Proof.
  intros Ha Hlen Htop HB HBb Hbuf Hacc Hfuel.
  assert (Ha32 : 0 <= address < 2 ^ 32) by lia.
  destruct (adapter_blocks address len Ha32) as (Eb & Eo & Hb & Hbm & Ho & Ee & Hem & He).
  cbv zeta in *.
  assert (Eu : u32 (address + len - 1) = address + len - 1) by (apply u32_small; lia).
  rewrite Eu in *.
  unfold encryptedNonVolatileWrite, encryptedNonVolatileRead. cbv zeta. rewrite Eu.
  set (b0 := Z.land address 0xfffffff0) in *.
  set (be := Z.land (address + len - 1) 0xfffffff0) in *.
  set (o := u8 (Z.land address 0x0000000f)) in *.
  set (n0 := for_u8 256 0 16 (fun i n => wr n i 0) fresh16).
  assert (Hfu : (Z.to_nat ((be + 16 - b0) / 16) < fuel)%nat).
  { assert ((be + 16 - b0) / 16 <= 17) by (Z.div_mod_to_equations; lia). lia. }
  assert (Hbe : be < 0xfffffff0) by (Z.div_mod_to_equations; lia).
  destruct (write_loop_returns ks B be Hbe fuel b0 o n0 0 len w ltac:(lia) Hbm Hacc Hfu)
    as (w1 & Hw).
  destruct (read_loop_returns ks be Hbe fuel b0 o n0 buf 0 len w1 ltac:(lia) Hbm Hacc Hfu)
    as (buf' & w2 & Hr).
  exists w1, buf', w2. split; [exact Hw|]. split; [exact Hr|].
  assert (He32 : be < 2 ^ 32) by lia.
  assert (Hlen' : 0 <= len < 256) by lia.
  assert (Hpos : 0 <= 0) by lia.
  assert (Hfit : 0 + len <= Z.of_nat (length buf)) by lia.
  pose proof (write_loop_content ks B be HBb Hem He32 _ _ _ _ _ _ _ _
                Hb Hbm Ho Hlen' zeroed_n_shaped Hw) as Hcontent.
  destruct (read_loop_content ks be Hem He32 _ _ _ _ _ _ _ _ _ _
              Hb Hbm Ho Hlen' zeroed_n_shaped Hpos Hfit Hr)
    as (_ & Hl & Hrd).
  apply rd_ext; [lia|].
  intros j Hj. rewrite Hrd by lia. rewrite Hcontent.
  assert (Hin : address + len - 1 < be + 16) by (Z.div_mod_to_equations; lia).
  split_cmp. f_equal. lia.
Qed.

Lemma read_your_write_witness :
  let w0 := empty_world small_store ∅ in
  (0 <= 5 /\ 1 <= 20 <= 255 /\ 5 + 20 - 1 < 0xfffffff0 /\
   Z.of_nat (length example_data) = 20 /\ Forall is_byte example_data /\
   Z.of_nat (length (replicate 20 0)) = 20 /\
   raw_accepts small_store (Z.land 5 0xfffffff0) (Z.land (5 + 20 - 1) 0xfffffff0) /\
   (17 < 18)%nat) /\
  exists w1 buf' w2,
    @encryptedNonVolatileWrite shift_cipher small_store 18 example_keys example_data 5 20 w0
      = (Some NV_NO_ERROR, w1) /\
    @encryptedNonVolatileRead shift_cipher small_store 18 example_keys (replicate 20 0) 5 20 w1
      = (Some NV_NO_ERROR, buf', w2) /\
    buf' = example_data.
Proof.
  cbv zeta.
  assert (Hacc : raw_accepts small_store (Z.land 5 0xfffffff0) (Z.land (5 + 20 - 1) 0xfffffff0)).
  { apply array_store_accepts; vm_compute; discriminate. }
  split.
  - split; [lia|]. split; [lia|]. split; [lia|]. split; [reflexivity|].
    split; [exact example_data_bytes|]. split; [reflexivity|]. split; [exact Hacc|lia].
  - apply (@read_your_write shift_cipher shift_cipher_laws small_store array_byte
             (array_store_laws 0 1024) 18 example_keys example_data (replicate 20 0) 5 20
             (empty_world small_store ∅));
      [lia|lia|lia|reflexivity|exact example_data_bytes|reflexivity|exact Hacc|lia].
Defined.

(** C1, as the claim states it, fails at the top of the address space.  On
    a driver that holds all 2^32 bytes and never returns an error, a write
    of 16 bytes at 0xfffffff0 is within bounds and [address + len - 1]
    does not overflow, yet the call does not return: after the block at
    0xfffffff0 the 32-bit counter [block_start] wraps to 0, which is again
    [<= block_end]. *)
Lemma read_your_write_top_counterexample :
  (0xfffffff0 + 16 <= 2 ^ 32 /\ 0xfffffff0 + 16 - 1 < 2 ^ 32) /\
  BlockCipherLaws shift_cipher /\ RawStoreLaws full_store array_byte /\
  raw_accepts full_store 0 0xfffffff0 /\
  forall fuel,
    fst (@encryptedNonVolatileWrite shift_cipher full_store fuel example_keys
           (replicate 16 7) 0xfffffff0 16 (empty_world full_store ∅)) = None.
Proof.
  assert (Hacc : raw_accepts full_store 0 0xfffffff0).
  { apply array_store_accepts; vm_compute; discriminate. }
  split; [split; vm_compute; congruence|].
  split; [exact shift_cipher_laws|]. split; [exact (array_store_laws 0 (2 ^ 32))|].
  split; [exact Hacc|].
  intros fuel. unfold encryptedNonVolatileWrite. cbv zeta.
  change (Z.land (u32 (0xfffffff0 + 16 - 1)) 0xfffffff0) with 0xfffffff0.
  change (Z.land 0xfffffff0 0xfffffff0) with 0xfffffff0.
  apply write_loop_diverges; [exact Hacc|lia|reflexivity].
Qed.

(** ** C2: XEX round trip *)

(** C2.  For a block at [in], a tweak at [n], a sequence number [seq] (a
    [uint8_t]; in particular every [seq >= 1]) and any two keys:
    [xexEncrypt] into [ct] followed by [xexDecrypt] of [ct] into [pt] with
    the same tweak, sequence number and keys leaves the original block in
    [pt].  ([ct] may be [in] itself, but not the tweak or a key, which the
    second call reads again.) *)
Theorem xex_round_trip {c : BlockCipher} {L : BlockCipherLaws c}
    (m : gmap positive (list Z)) (ct pt in_ n tweak_key encrypt_key : positive) (seq : Z) :
  is_block (deref m in_) -> is_block (deref m n) -> 0 <= seq <= 255 ->
  ct <> n -> ct <> tweak_key -> ct <> encrypt_key ->
  deref (xexDecrypt pt ct n seq tweak_key encrypt_key
           (xexEncrypt ct in_ n seq tweak_key encrypt_key m)) pt
  = deref m in_.
Proof.
  intros Hin Hn Hseq N1 N2 N3. unfold xexEncrypt, xexDecrypt.
  rewrite (xexEnDecrypt_effect ct in_) by assumption. cbn [Z.eqb].
  set (m1 := <[ct := _]> m).
  assert (E1 : deref m1 ct =
               xex_enc (deref m tweak_key) (deref m encrypt_key) (deref m n) seq (deref m in_))
    by apply deref_insert.
  assert (E2 : deref m1 n = deref m n) by (apply deref_insert_ne; exact N1).
  assert (E3 : deref m1 tweak_key = deref m tweak_key) by (apply deref_insert_ne; exact N2).
  assert (E4 : deref m1 encrypt_key = deref m encrypt_key) by (apply deref_insert_ne; exact N3).
  rewrite xexEnDecrypt_effect.
  - cbn [Z.eqb]. rewrite deref_insert, E1, E2, E3, E4. apply xex_dec_enc; assumption.
  - rewrite E1. apply xex_enc_block; assumption.
  - rewrite E2. exact Hn.
  - exact Hseq.
Qed.

Lemma xex_round_trip_witness :
  (is_block (deref example_mem 1) /\ is_block (deref example_mem 2) /\ 0 <= 1 <= 255 /\
   5%positive <> 2%positive /\ 5%positive <> 3%positive /\ 5%positive <> 4%positive) /\
  deref (@xexDecrypt shift_cipher 6 5 2 1 3 4 (@xexEncrypt shift_cipher 5 1 2 1 3 4 example_mem)) 6
  = deref example_mem 1.
Proof.
  destruct example_mem_deref as [E1 E2].
  assert (H1 : is_block (deref example_mem 1)) by (rewrite E1; exact example_block_ok).
  assert (H2 : is_block (deref example_mem 2)) by (rewrite E2; exact example_tweak_ok).
  split; [split; [exact H1|split; [exact H2|split; [lia|repeat split; discriminate]]]|].
  apply (@xex_round_trip shift_cipher shift_cipher_laws example_mem 5 6 1 2 3 4 1 H1 H2);
    [lia|discriminate|discriminate|discriminate].
Defined.

(** ** C3: XEX construction *)

(** C3.  With [Delta] the AES encryption of the array at [n] under the
    tweak key, doubled [seq] times, [xexEncrypt] leaves
    [E (in xor Delta) xor Delta] in the array at [out] and [xexDecrypt]
    leaves [D (in xor Delta) xor Delta] there, [E] and [D] being AES under
    the encryption key; every other array is left as it was, so [in] is
    unchanged unless it is the same array as [out]. *)
Theorem xex_construction {c : BlockCipher} {Sh : BlockCipherShape c}
    (m : gmap positive (list Z)) (out in_ n tweak_key encrypt_key : positive) (seq : Z) :
  is_block (deref m in_) -> is_block (deref m n) -> 0 <= seq <= 255 ->
  let delta :=
    Nat.iter (Z.to_nat seq) doubleInGF
      (aesEncrypt (deref m n) (aesExpandKey (deref m tweak_key))) in
  let enc := xexEncrypt out in_ n seq tweak_key encrypt_key m in
  let dec := xexDecrypt out in_ n seq tweak_key encrypt_key m in
  deref enc out =
    xor_block (aesEncrypt (xor_block (deref m in_) delta)
                 (aesExpandKey (deref m encrypt_key))) delta /\
  deref dec out =
    xor_block (aesDecrypt (xor_block (deref m in_) delta)
                 (aesExpandKey (deref m encrypt_key))) delta /\
  (forall p, p <> out -> enc !! p = m !! p /\ dec !! p = m !! p) /\
  (in_ <> out -> deref enc in_ = deref m in_ /\ deref dec in_ = deref m in_).
Proof.
  intros Hin Hn Hseq delta enc dec. subst enc dec. unfold xexEncrypt, xexDecrypt.
  rewrite !xexEnDecrypt_effect by assumption. cbn [Z.eqb].
  split; [apply deref_insert|]. split; [apply deref_insert|]. split.
  - intros p Hp. rewrite !lookup_insert_ne by congruence. split; reflexivity.
  - intros Hne. rewrite !deref_insert_ne by congruence. split; reflexivity.
Qed.

Lemma xex_construction_witness :
  let m := example_mem in
  let delta :=
    Nat.iter (Z.to_nat 3) doubleInGF
      (@aesEncrypt shift_cipher (deref m 2) (aesExpandKey (deref m 3))) in
  let enc := @xexEncrypt shift_cipher 5 1 2 3 3 4 m in
  let dec := @xexDecrypt shift_cipher 5 1 2 3 3 4 m in
  (is_block (deref m 1) /\ is_block (deref m 2) /\ 0 <= 3 <= 255) /\
  (deref enc 5 =
     xor_block (@aesEncrypt shift_cipher (xor_block (deref m 1) delta)
                  (aesExpandKey (deref m 4))) delta /\
   deref dec 5 =
     xor_block (@aesDecrypt shift_cipher (xor_block (deref m 1) delta)
                  (aesExpandKey (deref m 4))) delta /\
   (forall p, p <> 5%positive -> enc !! p = m !! p /\ dec !! p = m !! p) /\
   (1%positive <> 5%positive -> deref enc 1 = deref m 1 /\ deref dec 1 = deref m 1)).
Proof.
  cbv zeta. destruct example_mem_deref as [E1 E2].
  assert (H1 : is_block (deref example_mem 1)) by (rewrite E1; exact example_block_ok).
  assert (H2 : is_block (deref example_mem 2)) by (rewrite E2; exact example_tweak_ok).
  split; [split; [exact H1|split; [exact H2|lia]]|].
  apply (@xex_construction shift_cipher (@cipher_shape _ shift_cipher_laws)
           example_mem 5 1 2 3 4 3 H1 H2). lia.
Defined.

(** ** C4: GF doubler *)

(** C4.  [doubleInGF] maps a 16-byte buffer to a 16-byte buffer whose
    little-endian value is the product of the input's value by x in
    GF(2)[x] modulo x^128 + x^7 + x^2 + x + 1.  Byte for byte: byte 0 is
    its old value shifted left by one bit, exclusive-ored with 0x87 exactly
    when bit 7 of the old byte 15 was set; byte i, for i from 1 to 15, is
    its old value shifted left by one bit with bit 7 of the old byte i-1
    moved into bit 0.  The all-zero buffer is mapped to itself. *)
Theorem doubleInGF_correct (op1 : list Z) :
  is_block op1 ->
  is_block (doubleInGF op1) /\
  le_value (doubleInGF op1) = gf_times_x (le_value op1) /\
  rd (doubleInGF op1) 0 =
    Z.lxor (u8 (Z.shiftl (rd op1 0) 1)) (if Z.testbit (rd op1 15) 7 then 0x87 else 0) /\
  (forall i, 1 <= i <= 15 ->
     rd (doubleInGF op1) i =
       Z.lor (u8 (Z.shiftl (rd op1 i) 1)) (Z.shiftr (rd op1 (i - 1)) 7)) /\
  doubleInGF (replicate 16 0) = replicate 16 0.
Proof.
  intros H. split; [apply doubleInGF_block, H|].
  split; [apply doubleInGF_value, H|].
  split; [|split; [|reflexivity]].
  - rewrite doubleInGF_rd0 by exact H. apply low_byte_bits; apply is_block_rd, H.
  - intros i Hi. rewrite doubleInGF_rd by assumption.
    apply shl_byte_bits; apply is_block_rd, H.
Qed.

Lemma doubleInGF_correct_witness :
  is_block example_block /\
  (is_block (doubleInGF example_block) /\
   le_value (doubleInGF example_block) = gf_times_x (le_value example_block) /\
   rd (doubleInGF example_block) 0 =
     Z.lxor (u8 (Z.shiftl (rd example_block 0) 1))
       (if Z.testbit (rd example_block 15) 7 then 0x87 else 0) /\
   (forall i, 1 <= i <= 15 ->
      rd (doubleInGF example_block) i =
        Z.lor (u8 (Z.shiftl (rd example_block i) 1)) (Z.shiftr (rd example_block (i - 1)) 7)) /\
   doubleInGF (replicate 16 0) = replicate 16 0).
Proof.
  split; [exact example_block_ok|].
  apply (doubleInGF_correct example_block). exact example_block_ok.
Defined.

(** ** C5: Tweak derivation *)

(** C5.  The events of a call of [encryptedNonVolatileWrite] and of
    [encryptedNonVolatileRead] are those of the block loop from the first
    block of the range on, and they give the result of the call: every
    iteration reads its block and, unless that raw read fails and ends the
    call, calls the XEX cipher (once to decrypt in a read, to decrypt and
    then to encrypt in a write) with the sequence number 1 and the tweak of
    the block of that iteration: the block's starting address, a 32-bit
    multiple of 16, as a 32-bit little-endian number in bytes 0..3, and
    zero in bytes 4..15.  It holds of every run, also one that is cut short
    by an error or is still in progress. *)
Theorem adapter_tweak_derivation {c : BlockCipher} {rs : RawStore}
    (fuel : nat) (ks : key_state) (data : list Z) (address len : Z) (w : world) :
  let first_block := Z.land address 0xfffffff0 in
  let block_end := Z.land (u32 (address + len - 1)) 0xfffffff0 in
  (exists evs,
     w_log (snd (encryptedNonVolatileWrite fuel ks data address len w)) = w_log w ++ evs /\
     block_trace true block_end first_block evs
       (fst (encryptedNonVolatileWrite fuel ks data address len w)) /\
     tweaks_follow_reads None evs) /\
  (exists evs,
     w_log (snd (encryptedNonVolatileRead fuel ks data address len w)) = w_log w ++ evs /\
     block_trace false block_end first_block evs
       (fst (fst (encryptedNonVolatileRead fuel ks data address len w))) /\
     tweaks_follow_reads None evs) /\
  (0 <= first_block < 2 ^ 32 /\ first_block mod 16 = 0) /\
  (forall b, 0 <= b < 2 ^ 32 ->
     length (tweak_of b) = 16%nat /\ le_value (take 4 (tweak_of b)) = b /\
     drop 4 (tweak_of b) = replicate 12 0).
Proof.
  intros first_block block_end.
  split; [|split; [|split; [|exact tweak_of_little_endian]]].
  - unfold encryptedNonVolatileWrite. cbv zeta.
    destruct (write_loop _ _ _ _ _ _ _ _ _ _) as [res w'] eqn:E.
    destruct (write_loop_trace _ _ _ _ _ _ _ _ _ _ _ _ zeroed_n_shaped E) as (evs & Hl & Ht).
    exists evs. split; [exact Hl|]. split; [exact Ht|].
    apply (block_trace_tweaks _ _ _ _ _ Ht); [apply land_block_any|apply land_block_aligned].
  - unfold encryptedNonVolatileRead. cbv zeta.
    destruct (read_loop _ _ _ _ _ _ _ _ _ _) as [[res data'] w'] eqn:E.
    destruct (read_loop_trace _ _ _ _ _ _ _ _ _ _ _ _ _ zeroed_n_shaped E) as (evs & Hl & Ht).
    exists evs. split; [exact Hl|]. split; [exact Ht|].
    apply (block_trace_tweaks _ _ _ _ _ Ht); [apply land_block_any|apply land_block_aligned].
  - split; [apply land_block_any|apply land_block_aligned].
Qed.

(** ** C6: Error propagation and order *)

(** C6, as the code has it.  The raw driver calls of a write are, block
    after block from the first block on: the read of the block, then the
    write of the same block.  A driver call that returns an error is the
    last event of the call and its status is the result, so the blocks
    read before it have all been written and nothing is touched after it.
    The blocks follow each other in steps of 16 modulo 2^32; when the last
    block is below the top block 0xfffffff0 that is strictly increasing
    address order.  A read behaves the same, without the writes. *)
Theorem adapter_error_propagation {c : BlockCipher} {rs : RawStore}
    (fuel : nat) (ks : key_state) (data : list Z) (address len : Z) (w : world) :
  let first_block := Z.land address 0xfffffff0 in
  let block_end := Z.land (u32 (address + len - 1)) 0xfffffff0 in
  (exists evs,
     w_log (snd (encryptedNonVolatileWrite fuel ks data address len w)) = w_log w ++ evs /\
     orderly_trace true first_block block_end evs
       (fst (encryptedNonVolatileWrite fuel ks data address len w))) /\
  (exists evs,
     w_log (snd (encryptedNonVolatileRead fuel ks data address len w)) = w_log w ++ evs /\
     orderly_trace false first_block block_end evs
       (fst (fst (encryptedNonVolatileRead fuel ks data address len w)))).
Proof.
  cbv zeta. split.
  - unfold encryptedNonVolatileWrite. cbv zeta.
    destruct (write_loop _ _ _ _ _ _ _ _ _ _) as [res w'] eqn:E.
    destruct (write_loop_trace _ _ _ _ _ _ _ _ _ _ _ _ zeroed_n_shaped E) as (evs & Hl & Ht).
    exists evs. split; [exact Hl|].
    apply block_trace_orderly; [apply land_block_nonneg|exact Ht].
  - unfold encryptedNonVolatileRead. cbv zeta.
    destruct (read_loop _ _ _ _ _ _ _ _ _ _) as [[res data'] w'] eqn:E.
    destruct (read_loop_trace _ _ _ _ _ _ _ _ _ _ _ _ _ zeroed_n_shaped E) as (evs & Hl & Ht).
    exists evs. split; [exact Hl|].
    apply block_trace_orderly; [apply land_block_nonneg|exact Ht].
Qed.

(** C6, as the claim states it, fails at the top of the address space.  On
    a driver that accepts every block but the one at address 0, a write of
    one byte at 0xfffffff0 rewrites the block at 0xfffffff0, then reads
    the block at 0, which fails: the blocks were not processed in
    increasing address order, and a block above the failing one has been
    rewritten. *)
Lemma adapter_order_counterexample :
  let run :=
    @encryptedNonVolatileWrite shift_cipher headless_store 5 example_keys [7] 0xfffffff0 1
      (empty_world headless_store ∅) in
  fst run = Some (NV_OTHER 1) /\
  read_addresses (w_log (snd run)) = [0xfffffff0; 0] /\
  write_addresses (w_log (snd run)) = [0xfffffff0] /\
  ~ (0xfffffff0 < 0).
Proof. cbv zeta. repeat split; try (vm_compute; reflexivity). lia. Qed.

(** ** C7: Write locality *)

(** C7.  After an error-free [encryptedNonVolatileWrite] of [len] bytes at
    [address], every byte of storage outside
    [[address, address + len)] decrypts to what it decrypted to before,
    also the bytes that share the first or the last block with the range;
    so an [encryptedNonVolatileRead] of such a byte returns after the write
    what it returned before. *)
Theorem write_locality {c : BlockCipher} {L : BlockCipherLaws c} {rs : RawStore}
    {nv_byte : nv_state -> Z -> Z} {SL : RawStoreLaws rs nv_byte}
    (fuel : nat) (ks : key_state) (data : list Z) (address len : Z) (w w' : world) :
  0 <= address < 2 ^ 32 -> 0 <= len < 256 -> Forall is_byte data ->
  encryptedNonVolatileWrite fuel ks data address len w = (Some NV_NO_ERROR, w') ->
  forall x, ~ (address <= x < address + len) ->
    plain_byte nv_byte ks (w_nv w') x = plain_byte nv_byte ks (w_nv w) x /\
    (forall fuel1 fuel2 buf d1 w1 d2 w2,
       0 <= x < 2 ^ 32 -> length buf = 1%nat ->
       encryptedNonVolatileRead fuel1 ks buf x 1 w = (Some NV_NO_ERROR, d1, w1) ->
       encryptedNonVolatileRead fuel2 ks buf x 1 w' = (Some NV_NO_ERROR, d2, w2) ->
       d1 = d2).
Proof.
  intros Ha Hlen Hdata Hrun x Hx.
  assert (Hplain : plain_byte nv_byte ks (w_nv w') x = plain_byte nv_byte ks (w_nv w) x).
  { unfold encryptedNonVolatileWrite in Hrun. cbv zeta in Hrun.
    destruct (adapter_blocks address len Ha) as (Eb & Eo & Hb & Hbm & Ho & _ & Hem & He).
    cbv zeta in *.
    assert (He32 : Z.land (u32 (address + len - 1)) 0xfffffff0 < 2 ^ 32) by lia.
    rewrite (write_loop_content ks data _ Hdata Hem He32 _ _ _ _ _ _ _ _
               Hb Hbm Ho Hlen zeroed_n_shaped Hrun x).
    rewrite Eb, Eo. split_cmp. }
  split; [exact Hplain|].
  intros fuel1 fuel2 buf d1 w1 d2 w2 Hx32 Hbuf H1 H2.
  rewrite (read_one_byte _ _ _ _ _ _ _ Hx32 Hbuf H1).
  rewrite (read_one_byte _ _ _ _ _ _ _ Hx32 Hbuf H2).
  rewrite Hplain. reflexivity.
Qed.

Lemma write_locality_witness :
  let w0 := empty_world small_store ∅ in
  let run :=
    @encryptedNonVolatileWrite shift_cipher small_store 10 example_keys example_data 5 20 w0 in
  (0 <= 5 < 2 ^ 32 /\ 0 <= 20 < 256 /\ Forall is_byte example_data /\
   run = (Some NV_NO_ERROR, snd run)) /\
  forall x, ~ (5 <= x < 5 + 20) ->
    @plain_byte shift_cipher small_store array_byte example_keys (w_nv (snd run)) x =
    @plain_byte shift_cipher small_store array_byte example_keys (w_nv w0) x.
Proof.
  cbv zeta.
  assert (Hrun : @encryptedNonVolatileWrite shift_cipher small_store 10 example_keys
                   example_data 5 20 (empty_world small_store ∅) =
                 (Some NV_NO_ERROR,
                  snd (@encryptedNonVolatileWrite shift_cipher small_store 10 example_keys
                         example_data 5 20 (empty_world small_store ∅))))
    by (vm_compute; reflexivity).
  split; [split; [lia|split; [lia|split; [exact example_data_bytes|exact Hrun]]]|].
  intros x Hx.
  apply (@write_locality shift_cipher shift_cipher_laws small_store array_byte
           (array_store_laws 0 1024) 10 example_keys example_data 5 20
           (empty_world small_store ∅) _ ltac:(lia) ltac:(lia) example_data_bytes Hrun x Hx).
Defined.

(** ** C8: GF doubling known answer *)

(** C8, as the code has it.  Starting from the buffer 0x01 00 ... 00, sixteen
    doublings only shift the bit into byte 2 (no reduction takes place);
    127 doublings move it to bit 7 of byte 15, and the 128th doubling
    reduces: byte 0 becomes 0x87 and every other byte zero. *)
Theorem doubleInGF_known_answer :
  doubleInGF (Nat.iter 15 doubleInGF gf_one) = [0; 0; 1; 0; 0; 0; 0; 0; 0; 0; 0; 0; 0; 0; 0; 0] /\
  Nat.iter 127 doubleInGF gf_one = [0; 0; 0; 0; 0; 0; 0; 0; 0; 0; 0; 0; 0; 0; 0; 0x80] /\
  doubleInGF (Nat.iter 127 doubleInGF gf_one) =
    [0x87; 0; 0; 0; 0; 0; 0; 0; 0; 0; 0; 0; 0; 0; 0; 0].
Proof. repeat split; vm_compute; reflexivity. Qed.

(** C8, as the claim states it, fails: after fifteen doublings and a
    sixteenth, byte 0 is 0 and byte 2 is 1; the buffer is not
    0x87 00 ... 00. *)
Lemma doubleInGF_sixteen_counterexample :
  rd (doubleInGF (Nat.iter 15 doubleInGF gf_one)) 0 = 0 /\
  rd (doubleInGF (Nat.iter 15 doubleInGF gf_one)) 2 = 1 /\
  doubleInGF (Nat.iter 15 doubleInGF gf_one) <>
    [0x87; 0; 0; 0; 0; 0; 0; 0; 0; 0; 0; 0; 0; 0; 0; 0].
Proof. repeat split; vm_compute; congruence. Qed.

(** ** C9: Key clear *)

(** C9.  Whatever the two 16-byte key arrays hold, [clearEncryptionKey]
    leaves both all zero, a second call changes nothing, and
    [isEncryptionKeyNonZero] then returns zero; after [setEncryptionKey]
    with the 32 bytes that are all 0x00 except byte 16, which is 0x01,
    [isEncryptionKeyNonZero] returns a non-zero value (it returns 1). *)
Theorem clear_key_idempotent (ks : key_state) :
  key_state_ok ks ->
  clearEncryptionKey ks =
    {| nv_storage_encrypt_key := replicate 16 0; nv_storage_tweak_key := replicate 16 0 |} /\
  clearEncryptionKey (clearEncryptionKey ks) = clearEncryptionKey ks /\
  isEncryptionKeyNonZero (clearEncryptionKey ks) = 0 /\
  isEncryptionKeyNonZero (setEncryptionKey (replicate 16 0 ++ 1 :: replicate 15 0) ks) = 1 /\
  isEncryptionKeyNonZero (setEncryptionKey (replicate 16 0 ++ 1 :: replicate 15 0) ks) <> 0.
Proof.
  intros [[He _] [Ht _]]. destruct ks as [ek tk]. cbn [nv_storage_encrypt_key nv_storage_tweak_key] in *.
  explode_block ek He. explode_block tk Ht.
  repeat split; try reflexivity.
  match goal with |- ?x <> 0 => change x with 1 end. discriminate.
Qed.

Lemma clear_key_idempotent_witness :
  key_state_ok example_keys /\
  (clearEncryptionKey example_keys =
     {| nv_storage_encrypt_key := replicate 16 0; nv_storage_tweak_key := replicate 16 0 |} /\
   clearEncryptionKey (clearEncryptionKey example_keys) = clearEncryptionKey example_keys /\
   isEncryptionKeyNonZero (clearEncryptionKey example_keys) = 0 /\
   isEncryptionKeyNonZero
     (setEncryptionKey (replicate 16 0 ++ 1 :: replicate 15 0) example_keys) = 1 /\
   isEncryptionKeyNonZero
     (setEncryptionKey (replicate 16 0 ++ 1 :: replicate 15 0) example_keys) <> 0).
Proof.
  split; [exact example_keys_ok|].
  apply (clear_key_idempotent example_keys). exact example_keys_ok.
Defined.

(** ** C10: Zero-length calls *)

(** C10, as the code has it.  For [length = 0] the last block is
    [(address - 1) & 0xfffffff0], so:
    (i) at a non-zero multiple of 16 the loop body does not run: the call
    returns [NV_NO_ERROR] and the world, its log included, is as before;
    (ii) at an address that is not a multiple of 16 and lies below the top
    block ([address < 0xfffffff0]) exactly the block of the address is
    processed: one raw read, followed on the write path by the XEX
    decryption, the XEX encryption and one raw write; the call returns the
    status of the driver call that failed, or [NV_NO_ERROR], and then the
    decrypted contents of storage are as before;
    (iii) at address 0 the subtraction wraps, the last block is
    0xfffffff0, the blocks are taken from address 0 upward in steps of 16,
    and the call can only end on a driver error: it never returns
    [NV_NO_ERROR], and with a driver that accepts every block it does not
    return at all. *)
Theorem zero_length_calls {c : BlockCipher} {L : BlockCipherLaws c} {rs : RawStore}
    {nv_byte : nv_state -> Z -> Z} {SL : RawStoreLaws rs nv_byte}
    (ks : key_state) (data : list Z) (address : Z) (w : world) :
  0 <= address < 2 ^ 32 ->
  (address mod 16 = 0 -> address <> 0 -> forall fuel, (0 < fuel)%nat ->
     encryptedNonVolatileWrite fuel ks data address 0 w = (Some NV_NO_ERROR, w) /\
     encryptedNonVolatileRead fuel ks data address 0 w = (Some NV_NO_ERROR, data, w)) /\
  (address mod 16 <> 0 -> address < 0xfffffff0 -> forall fuel, (1 < fuel)%nat ->
     let b := address - address mod 16 in
     (exists r w',
        encryptedNonVolatileWrite fuel ks data address 0 w = (Some r, w') /\
        ((nv_failed r = true /\ w_log w' = w_log w ++ [EvRead b 16 r]) \/
         (exists ct,
            w_log w' = w_log w ++
              [EvRead b 16 NV_NO_ERROR; EvXex true (tweak_of b) 1;
               EvXex false (tweak_of b) 1; EvWrite ct b 16 r])) /\
        (r = NV_NO_ERROR ->
         forall x, plain_byte nv_byte ks (w_nv w') x = plain_byte nv_byte ks (w_nv w) x)) /\
     (exists r w',
        encryptedNonVolatileRead fuel ks data address 0 w = (Some r, data, w') /\
        ((nv_failed r = true /\ w_log w' = w_log w ++ [EvRead b 16 r]) \/
         (r = NV_NO_ERROR /\
          w_log w' = w_log w ++ [EvRead b 16 NV_NO_ERROR; EvXex true (tweak_of b) 1])) /\
        (r = NV_NO_ERROR ->
         forall x, plain_byte nv_byte ks (w_nv w') x = plain_byte nv_byte ks (w_nv w) x))) /\
  (address = 0 ->
     Z.land (u32 (address + 0 - 1)) 0xfffffff0 = 0xfffffff0 /\
     forall fuel,
       (forall w', encryptedNonVolatileWrite fuel ks data address 0 w <> (Some NV_NO_ERROR, w')) /\
       (forall data' w',
          encryptedNonVolatileRead fuel ks data address 0 w <> (Some NV_NO_ERROR, data', w')) /\
       (exists evs,
          w_log (snd (encryptedNonVolatileWrite fuel ks data address 0 w)) = w_log w ++ evs /\
          forall (i : nat) (a : Z),
            read_addresses evs !! i = Some a -> a = u32 (16 * Z.of_nat i)) /\
       (exists evs,
          w_log (snd (encryptedNonVolatileRead fuel ks data address 0 w)) = w_log w ++ evs /\
          forall (i : nat) (a : Z),
            read_addresses evs !! i = Some a -> a = u32 (16 * Z.of_nat i)) /\
       (raw_accepts rs 0 0xfffffff0 ->
        fst (encryptedNonVolatileWrite fuel ks data address 0 w) = None /\
        fst (fst (encryptedNonVolatileRead fuel ks data address 0 w)) = None)).
Proof.
  intros Ha.
  destruct (adapter_blocks address 0 Ha) as (Eb & Eo & Hb & Hbm & Ho & Ee & Hem & He).
  cbv zeta in *.
  split; [|split].
  - intros Hm Hnz fuel Hf.
    assert (Eu : u32 (address + 0 - 1) = address - 1)
      by (unfold u32; rewrite Z.mod_small by lia; lia).
    assert (Ebe : Z.land (u32 (address + 0 - 1)) 0xfffffff0 = address - 16).
    { rewrite Ee, Eu. Z.div_mod_to_equations. lia. }
    unfold encryptedNonVolatileWrite, encryptedNonVolatileRead. cbv zeta.
    destruct fuel as [|fuel]; [lia|]. cbn [write_loop read_loop].
    destruct (Z.leb_spec (Z.land address 0xfffffff0) (Z.land (u32 (address + 0 - 1)) 0xfffffff0));
      [exfalso; Z.div_mod_to_equations; lia|].
    split; reflexivity.
  - intros Hm Htop fuel Hf.
    assert (Eu : u32 (address + 0 - 1) = address - 1)
      by (unfold u32; rewrite Z.mod_small by lia; lia).
    assert (Ebe : Z.land (u32 (address + 0 - 1)) 0xfffffff0 = address - address mod 16).
    { rewrite Ee, Eu. Z.div_mod_to_equations. lia. }
    assert (Hb1 : 0 <= address - address mod 16 < 0xfffffff0) by (Z.div_mod_to_equations; lia).
    assert (He32 : address - address mod 16 < 2 ^ 32) by lia.
    assert (Hlen0 : 0 <= 0 < 256) by lia.
    unfold encryptedNonVolatileWrite, encryptedNonVolatileRead. cbv zeta.
    rewrite Ebe, Eb. rewrite Eb in Hb, Hbm.
    set (b := address - address mod 16) in *.
    set (o := u8 (Z.land address 0x0000000f)) in *.
    set (n0 := for_u8 256 0 16 (fun i n => wr n i 0) fresh16).
    split.
    + destruct (write_loop_single ks data fuel b o n0 0 0 w Hf Hb1) as (r & w' & E).
      exists r, w'. split; [exact E|].
      destruct (write_loop_trace _ _ _ _ _ _ _ _ _ _ _ _ zeroed_n_shaped E) as (evs & Hl & Ht).
      split.
      * destruct (block_trace_single _ _ _ _ Hb1 Ht)
          as [[Hf1 ->]|[[_ [ct ->]]|[Hw _]]]; [left|right|discriminate Hw].
        -- split; assumption.
        -- exists ct. exact Hl.
      * intros -> x. rewrite write_loop_len0 in E.
        rewrite (write_loop_content ks [] b (Forall_nil_2 _) Hbm He32 _ _ _ _ _ _ _ _
                   Hb Hbm Ho Hlen0 zeroed_n_shaped E x).
        split_cmp.
    + destruct (read_loop_single ks fuel b o n0 data 0 0 w Hf Hb1) as (r & data' & w' & E).
      pose proof (read_loop_len0 _ _ _ _ _ _ _ _ _ _ _ _ E) as ->.
      exists r, w'. split; [exact E|].
      destruct (read_loop_trace _ _ _ _ _ _ _ _ _ _ _ _ _ zeroed_n_shaped E) as (evs & Hl & Ht).
      split.
      * destruct (block_trace_single _ _ _ _ Hb1 Ht)
          as [[Hf1 ->]|[[Hw _]|[_ [-> ->]]]]; [left|discriminate Hw|right].
        -- split; assumption.
        -- split; [reflexivity|exact Hl].
      * intros -> x.
        assert (Hpos : 0 <= 0) by lia.
        assert (Hfit : 0 + 0 <= Z.of_nat (length data)) by lia.
        destruct (read_loop_content ks b Hbm He32 _ _ _ _ _ _ _ _ _ _
                    Hb Hbm Ho Hlen0 zeroed_n_shaped Hpos Hfit E) as (Hnv & _).
        apply plain_byte_ext, Hnv.
  - intros ->. split; [reflexivity|]. intros fuel.
    unfold encryptedNonVolatileWrite, encryptedNonVolatileRead. cbv zeta.
    change (Z.land (u32 (0 + 0 - 1)) 0xfffffff0) with 0xfffffff0.
    change (Z.land 0 0xfffffff0) with 0.
    split; [|split; [|split; [|split]]].
    + intros w'. apply write_loop_wraps; [lia|lia|reflexivity].
    + intros data' w'. apply read_loop_wraps; [lia|lia|reflexivity].
    + destruct (write_loop _ _ _ _ _ _ _ _ _ _) as [res w'] eqn:E.
      destruct (write_loop_trace _ _ _ _ _ _ _ _ _ _ _ _ zeroed_n_shaped E) as (evs & Hl & Ht).
      exists evs. split; [exact Hl|]. intros i a Hi.
      rewrite (block_trace_reads_mod _ _ _ _ _ Ht ltac:(lia) i a Hi). reflexivity.
    + destruct (read_loop _ _ _ _ _ _ _ _ _ _) as [[res data'] w'] eqn:E.
      destruct (read_loop_trace _ _ _ _ _ _ _ _ _ _ _ _ _ zeroed_n_shaped E) as (evs & Hl & Ht).
      exists evs. split; [exact Hl|]. intros i a Hi.
      rewrite (block_trace_reads_mod _ _ _ _ _ Ht ltac:(lia) i a Hi). reflexivity.
    + intros Hacc. split.
      * apply write_loop_diverges; [exact Hacc|lia|reflexivity].
      * apply read_loop_diverges; [exact Hacc|lia|reflexivity].
Qed.

Lemma zero_length_calls_witness :
  let w0 := empty_world small_store ∅ in
  0 <= 37 < 2 ^ 32 /\
  exists r w',
    @encryptedNonVolatileWrite shift_cipher small_store 2 example_keys [] 37 0 w0 = (Some r, w') /\
    (r = NV_NO_ERROR ->
     forall x,
       @plain_byte shift_cipher small_store array_byte example_keys (w_nv w') x =
       @plain_byte shift_cipher small_store array_byte example_keys (w_nv w0) x).
Proof.
  cbv zeta. split; [lia|].
  destruct (@zero_length_calls shift_cipher shift_cipher_laws small_store array_byte
              (array_store_laws 0 1024) example_keys [] 37 (empty_world small_store ∅)
              ltac:(lia)) as (_ & H & _).
  destruct (H ltac:(vm_compute; discriminate) ltac:(lia) 2%nat ltac:(lia))
    as ((r & w' & E & _ & Hc) & _).
  exists r, w'. split; [exact E|exact Hc].
Defined.

(** C10 (ii), as the claim states it, fails in the top block.  On a driver
    that accepts every block, a write of length 0 at 0xfffffff5 does not
    stop after the block at 0xfffffff0: the counter wraps, the blocks at 0
    and at 16 are processed next, and the call does not return. *)
Lemma zero_length_top_counterexample :
  let call fuel :=
    @encryptedNonVolatileWrite shift_cipher full_store fuel example_keys [] 0xfffffff5 0
      (empty_world full_store ∅) in
  0xfffffff5 mod 16 <> 0 /\
  raw_accepts full_store 0 0xfffffff0 /\
  read_addresses (w_log (snd (call 3%nat))) = [0xfffffff0; 0; 16] /\
  write_addresses (w_log (snd (call 3%nat))) = [0xfffffff0; 0; 16] /\
  forall fuel, fst (call fuel) = None.
Proof.
  cbv zeta.
  assert (Hacc : raw_accepts full_store 0 0xfffffff0).
  { apply array_store_accepts; vm_compute; discriminate. }
  split; [vm_compute; discriminate|]. split; [exact Hacc|].
  split; [vm_compute; reflexivity|]. split; [vm_compute; reflexivity|].
  intros fuel. unfold encryptedNonVolatileWrite. cbv zeta.
  change (Z.land (u32 (0xfffffff5 + 0 - 1)) 0xfffffff0) with 0xfffffff0.
  change (Z.land 0xfffffff5 0xfffffff0) with 0xfffffff0.
  apply write_loop_diverges; [exact Hacc|lia|reflexivity].
Qed.

(** * Further properties *)

(** ** The key state *)

Lemma explode32 (l : list Z) :
  (32 <= length l)%nat ->
  exists a0 a1 a2 a3 a4 a5 a6 a7 a8 a9 a10 a11 a12 a13 a14 a15
         b0 b1 b2 b3 b4 b5 b6 b7 b8 b9 b10 b11 b12 b13 b14 b15 rest,
    l = [a0; a1; a2; a3; a4; a5; a6; a7; a8; a9; a10; a11; a12; a13; a14; a15;
         b0; b1; b2; b3; b4; b5; b6; b7; b8; b9; b10; b11; b12; b13; b14; b15] ++ rest.
Proof.
  intros H.
  do 32 (destruct l as [|? l]; [cbn in H; lia|]).
  repeat eexists.
Qed.

(** X1.  [setEncryptionKey] stores bytes 0..15 of its argument as the
    encryption key and bytes 16..31 as the tweak key, whatever the keys
    were before; it reads no byte of the argument beyond the 32nd. *)
Theorem setEncryptionKey_layout (in_ : list Z) (ks : key_state) :
  length (nv_storage_encrypt_key ks) = 16%nat ->
  length (nv_storage_tweak_key ks) = 16%nat ->
  (32 <= length in_)%nat ->
  setEncryptionKey in_ ks =
    {| nv_storage_encrypt_key := take 16 in_;
       nv_storage_tweak_key := take 16 (drop 16 in_) |}.
Proof.
  intros He Ht Hin. destruct ks as [ek tk].
  cbn [nv_storage_encrypt_key nv_storage_tweak_key] in *.
  explode_block ek He. explode_block tk Ht.
  destruct (explode32 in_ Hin) as
    (a0 & a1 & a2 & a3 & a4 & a5 & a6 & a7 & a8 & a9 & a10 & a11 & a12 & a13 & a14 & a15 &
     b0 & b1 & b2 & b3 & b4 & b5 & b6 & b7 & b8 & b9 & b10 & b11 & b12 & b13 & b14 & b15 &
     rest & ->).
  reflexivity.
Qed.

Lemma setEncryptionKey_layout_witness :
  let in_ := map Z.of_nat (seq 100 40) in
  (length (nv_storage_encrypt_key example_keys) = 16%nat /\
   length (nv_storage_tweak_key example_keys) = 16%nat /\
   (32 <= length in_)%nat) /\
  setEncryptionKey in_ example_keys =
    {| nv_storage_encrypt_key := take 16 in_;
       nv_storage_tweak_key := take 16 (drop 16 in_) |}.
Proof.
  cbv zeta. split; [repeat split; cbn; lia|].
  apply (setEncryptionKey_layout (map Z.of_nat (seq 100 40)) example_keys);
    [reflexivity|reflexivity|cbn; lia].
Defined.

(** X2.  [getEncryptionKey] after [setEncryptionKey] gives back the 32
    key bytes in [out[0..31]] and leaves the bytes of [out] from index 32
    on as they were. *)
Theorem getEncryptionKey_setEncryptionKey (in_ out : list Z) (ks : key_state) :
  length (nv_storage_encrypt_key ks) = 16%nat ->
  length (nv_storage_tweak_key ks) = 16%nat ->
  (32 <= length in_)%nat -> (32 <= length out)%nat ->
  getEncryptionKey out (setEncryptionKey in_ ks) = take 32 in_ ++ drop 32 out.
Proof.
  intros He Ht Hin Hout. destruct ks as [ek tk].
  cbn [nv_storage_encrypt_key nv_storage_tweak_key] in *.
  explode_block ek He. explode_block tk Ht.
  destruct (explode32 in_ Hin) as
    (a0 & a1 & a2 & a3 & a4 & a5 & a6 & a7 & a8 & a9 & a10 & a11 & a12 & a13 & a14 & a15 &
     b0 & b1 & b2 & b3 & b4 & b5 & b6 & b7 & b8 & b9 & b10 & b11 & b12 & b13 & b14 & b15 &
     rest & ->).
  destruct (explode32 out Hout) as
    (c0 & c1 & c2 & c3 & c4 & c5 & c6 & c7 & c8 & c9 & c10 & c11 & c12 & c13 & c14 & c15 &
     d0 & d1 & d2 & d3 & d4 & d5 & d6 & d7 & d8 & d9 & d10 & d11 & d12 & d13 & d14 & d15 &
     rest' & ->).
  reflexivity.
Qed.

Lemma getEncryptionKey_setEncryptionKey_witness :
  let in_ := map Z.of_nat (seq 100 40) in
  let out := replicate 35 7 in
  (length (nv_storage_encrypt_key example_keys) = 16%nat /\
   length (nv_storage_tweak_key example_keys) = 16%nat /\
   (32 <= length in_)%nat /\ (32 <= length out)%nat) /\
  getEncryptionKey out (setEncryptionKey in_ example_keys) = take 32 in_ ++ drop 32 out.
Proof.
  cbv zeta. split; [repeat split; cbn; lia|].
  apply (getEncryptionKey_setEncryptionKey (map Z.of_nat (seq 100 40)) (replicate 35 7)
           example_keys); [reflexivity|reflexivity|cbn; lia|cbn; lia].
Defined.

(** X3.  [getEncryptionKey] writes the encryption key to [out[0..15]]
    and the tweak key to [out[16..31]] and leaves the rest of [out] alone;
    [setEncryptionKey] of that array restores the key state it was taken
    from, whatever the keys are at the time of the call. *)
Theorem setEncryptionKey_getEncryptionKey (out : list Z) (ks ks' : key_state) :
  length (nv_storage_encrypt_key ks) = 16%nat ->
  length (nv_storage_tweak_key ks) = 16%nat ->
  length (nv_storage_encrypt_key ks') = 16%nat ->
  length (nv_storage_tweak_key ks') = 16%nat ->
  (32 <= length out)%nat ->
  getEncryptionKey out ks =
    nv_storage_encrypt_key ks ++ nv_storage_tweak_key ks ++ drop 32 out /\
  setEncryptionKey (getEncryptionKey out ks) ks' = ks.
Proof.
  intros He Ht He' Ht' Hout. destruct ks as [ek tk]. destruct ks' as [ek' tk'].
  cbn [nv_storage_encrypt_key nv_storage_tweak_key] in *.
  explode_block ek He. explode_block tk Ht. explode_block ek' He'. explode_block tk' Ht'.
  destruct (explode32 out Hout) as
    (c0 & c1 & c2 & c3 & c4 & c5 & c6 & c7 & c8 & c9 & c10 & c11 & c12 & c13 & c14 & c15 &
     d0 & d1 & d2 & d3 & d4 & d5 & d6 & d7 & d8 & d9 & d10 & d11 & d12 & d13 & d14 & d15 &
     rest' & ->).
  split; reflexivity.
Qed.

Lemma setEncryptionKey_getEncryptionKey_witness :
  let out := replicate 35 7 in
  let ks' := clearEncryptionKey example_keys in
  (length (nv_storage_encrypt_key example_keys) = 16%nat /\
   length (nv_storage_tweak_key example_keys) = 16%nat /\
   length (nv_storage_encrypt_key ks') = 16%nat /\
   length (nv_storage_tweak_key ks') = 16%nat /\
   (32 <= length out)%nat) /\
  getEncryptionKey out example_keys =
    nv_storage_encrypt_key example_keys ++ nv_storage_tweak_key example_keys ++ drop 32 out /\
  setEncryptionKey (getEncryptionKey out example_keys) ks' = example_keys.
Proof.
  cbv zeta. split; [repeat split; cbn; lia|].
  apply (setEncryptionKey_getEncryptionKey (replicate 35 7) example_keys
           (clearEncryptionKey example_keys));
    [reflexivity|reflexivity|reflexivity|reflexivity|cbn; lia].
Defined.

Lemma u8_lor_zero (r x : Z) :
  is_byte r -> is_byte x -> (u8 (Z.lor r x) = 0 <-> r = 0 /\ x = 0).
Proof.
  intros Hr Hx.
  pose proof (byte_cases2 (fun r x => Bool.eqb (u8 (Z.lor r x) =? 0) ((r =? 0) && (x =? 0)))
                ltac:(vm_compute; reflexivity) r x Hr Hx) as H.
  cbv beta in H. apply eqb_prop in H.
  destruct (Z.eqb_spec (u8 (Z.lor r x)) 0), (Z.eqb_spec r 0), (Z.eqb_spec x 0);
    cbn in H; try discriminate H; intuition lia.
Qed.

(** X4.  [isEncryptionKeyNonZero] returns a byte, and it returns zero
    exactly when all 32 bytes of the two keys are zero. *)
Theorem isEncryptionKeyNonZero_iff (ks : key_state) :
  key_state_ok ks ->
  is_byte (isEncryptionKeyNonZero ks) /\
  (isEncryptionKeyNonZero ks = 0 <->
   ks = {| nv_storage_encrypt_key := replicate 16 0; nv_storage_tweak_key := replicate 16 0 |}).
Proof.
  intros [He Ht]. destruct ks as [ek tk].
  cbn [nv_storage_encrypt_key nv_storage_tweak_key] in *.
  name_block He. name_block' Ht.
  split; [apply u8_byte|].
  change (isEncryptionKeyNonZero _) with
    (u8 (Z.lor (u8 (Z.lor (u8 (Z.lor (u8 (Z.lor (u8 (Z.lor (u8 (Z.lor (u8 (Z.lor (u8 (Z.lor
     (u8 (Z.lor (u8 (Z.lor (u8 (Z.lor (u8 (Z.lor (u8 (Z.lor (u8 (Z.lor (u8 (Z.lor (u8 (Z.lor
     (u8 (Z.lor (u8 (Z.lor (u8 (Z.lor (u8 (Z.lor (u8 (Z.lor (u8 (Z.lor (u8 (Z.lor (u8 (Z.lor
     (u8 (Z.lor (u8 (Z.lor (u8 (Z.lor (u8 (Z.lor (u8 (Z.lor (u8 (Z.lor (u8 (Z.lor (u8 (Z.lor
       0 x0)) y0)) x1)) y1)) x2)) y2)) x3)) y3)) x4)) y4)) x5)) y5)) x6)) y6)) x7)) y7))
       x8)) y8)) x9)) y9)) x10)) y10)) x11)) y11)) x12)) y12)) x13)) y13)) x14)) y14))
       x15)) y15)).
  repeat rewrite u8_lor_zero by (try apply u8_byte; try assumption; unfold is_byte; lia).
  split.
  - intros Hz. repeat match goal with Hc : _ /\ _ |- _ => destruct Hc end. subst. reflexivity.
  - intros [= -> -> -> -> -> -> -> -> -> -> -> -> -> -> -> ->
               -> -> -> -> -> -> -> -> -> -> -> -> -> -> -> ->].
    repeat split.
Qed.

Lemma isEncryptionKeyNonZero_iff_witness :
  key_state_ok example_keys /\
  is_byte (isEncryptionKeyNonZero example_keys) /\
  (isEncryptionKeyNonZero example_keys = 0 <->
   example_keys =
     {| nv_storage_encrypt_key := replicate 16 0; nv_storage_tweak_key := replicate 16 0 |}).
Proof.
  split; [exact example_keys_ok|].
  apply (isEncryptionKeyNonZero_iff example_keys). exact example_keys_ok.
Defined.

(** ** GF(2^128) doubling: linearity and injectivity *)

(** The two parts of a byte of the doubled block: the byte shifted up,
    and the bit carried in from below. *)
Lemma shl_byte_lxor (x y : Z) :
  is_byte x -> is_byte y ->
  shl_byte x y = Z.lxor (u8 (Z.shiftl x 1)) (Z.shiftr y 7).
Proof.
  intros Hx Hy.
  pose proof (byte_cases2 (fun x y => shl_byte x y =? Z.lxor (u8 (Z.shiftl x 1)) (Z.shiftr y 7))
                ltac:(vm_compute; reflexivity) x y Hx Hy) as H.
  cbv beta in H. lia.
Qed.

Lemma shifted_lxor (x y : Z) :
  is_byte x -> is_byte y ->
  u8 (Z.shiftl (Z.lxor x y) 1) = Z.lxor (u8 (Z.shiftl x 1)) (u8 (Z.shiftl y 1)).
Proof.
  intros Hx Hy.
  pose proof (byte_cases2
                (fun x y => u8 (Z.shiftl (Z.lxor x y) 1) =?
                            Z.lxor (u8 (Z.shiftl x 1)) (u8 (Z.shiftl y 1)))
                ltac:(vm_compute; reflexivity) x y Hx Hy) as H.
  cbv beta in H. lia.
Qed.

Lemma carry_lxor (x y : Z) :
  is_byte x -> is_byte y ->
  Z.shiftr (Z.lxor x y) 7 = Z.lxor (Z.shiftr x 7) (Z.shiftr y 7).
Proof. intros _ _. apply Z.shiftr_lxor. Qed.

Lemma reduce_lxor (x y : Z) :
  is_byte x -> is_byte y ->
  (if Z.testbit (Z.lxor x y) 7 then 0x87 else 0) =
  Z.lxor (if Z.testbit x 7 then 0x87 else 0) (if Z.testbit y 7 then 0x87 else 0).
Proof.
  intros _ _. rewrite Z.lxor_spec.
  destruct (Z.testbit x 7), (Z.testbit y 7); reflexivity.
Qed.

Lemma lxor_swap4 (a b c d : Z) :
  Z.lxor (Z.lxor a b) (Z.lxor c d) = Z.lxor (Z.lxor a c) (Z.lxor b d).
Proof.
  rewrite !Z.lxor_assoc. f_equal. rewrite <- !Z.lxor_assoc. f_equal. apply Z.lxor_comm.
Qed.

Lemma shl_byte_linear (x x' y y' : Z) :
  is_byte x -> is_byte x' -> is_byte y -> is_byte y' ->
  shl_byte (Z.lxor x x') (Z.lxor y y') = Z.lxor (shl_byte x y) (shl_byte x' y').
Proof.
  intros Hx Hx' Hy Hy'.
  rewrite !shl_byte_lxor by (try apply lxor_byte; assumption).
  rewrite shifted_lxor, carry_lxor by assumption. apply lxor_swap4.
Qed.

Lemma low_byte_linear (x x' y y' : Z) :
  is_byte x -> is_byte x' -> is_byte y -> is_byte y' ->
  low_byte (Z.lxor x x') (Z.lxor y y') = Z.lxor (low_byte x y) (low_byte x' y').
Proof.
  intros Hx Hx' Hy Hy'.
  rewrite !low_byte_bits by (try apply lxor_byte; assumption).
  rewrite shifted_lxor, reduce_lxor by assumption. apply lxor_swap4.
Qed.

(** X5.  [doubleInGF] is linear over exclusive or: doubling the
    byte-wise exclusive or of two blocks gives the exclusive or of the
    doubled blocks. *)
Theorem doubleInGF_linear (a b : list Z) :
  is_block a -> is_block b ->
  doubleInGF (xor_block a b) = xor_block (doubleInGF a) (doubleInGF b).
Proof.
  intros Ha Hb. name_block Ha. name_block' Hb.
  unfold xor_block. cbn [zip_with].
  rewrite !doubleInGF_unfold. cbn [zip_with].
  rewrite low_byte_linear by assumption.
  rewrite !shl_byte_linear by assumption.
  reflexivity.
Qed.

Lemma doubleInGF_linear_witness :
  (is_block example_block /\ is_block example_tweak) /\
  doubleInGF (xor_block example_block example_tweak) =
  xor_block (doubleInGF example_block) (doubleInGF example_tweak).
Proof.
  split; [split; [exact example_block_ok|exact example_tweak_ok]|].
  apply (doubleInGF_linear example_block example_tweak example_block_ok example_tweak_ok).
Defined.

(** What a byte of the doubled block determines of the block. *)
Lemma shl_byte_inj (x y x' y' : Z) :
  is_byte x -> is_byte y -> is_byte x' -> is_byte y' ->
  shl_byte x y = shl_byte x' y' -> x mod 128 = x' mod 128 /\ y / 128 = y' / 128.
Proof.
  intros Hx Hy Hx' Hy'. rewrite !shl_byte_arith by assumption.
  unfold is_byte in *. Z.div_mod_to_equations. lia.
Qed.

Lemma low_byte_parts (x y : Z) :
  is_byte x -> is_byte y ->
  low_byte x y mod 2 = y / 128 /\
  Z.lxor (low_byte x y) (0x87 * (y / 128)) = 2 * (x mod 128).
Proof.
  intros Hx Hy.
  pose proof (byte_cases2
                (fun x y => (low_byte x y mod 2 =? y / 128) &&
                            (Z.lxor (low_byte x y) (0x87 * (y / 128)) =? 2 * (x mod 128)))
                ltac:(vm_compute; reflexivity) x y Hx Hy) as H.
  cbv beta in H. lia.
Qed.

Lemma low_byte_inj (x y x' y' : Z) :
  is_byte x -> is_byte y -> is_byte x' -> is_byte y' ->
  low_byte x y = low_byte x' y' -> x mod 128 = x' mod 128 /\ y / 128 = y' / 128.
Proof.
  intros Hx Hy Hx' Hy' E.
  destruct (low_byte_parts x y Hx Hy) as [P1 P2].
  destruct (low_byte_parts x' y' Hx' Hy') as [P1' P2'].
  rewrite E in P1, P2. split; [|lia].
  assert (Ey : y / 128 = y' / 128) by lia. rewrite Ey in P2. lia.
Qed.

Lemma byte_of_parts (x x' : Z) :
  is_byte x -> is_byte x' -> x mod 128 = x' mod 128 -> x / 128 = x' / 128 -> x = x'.
Proof. intros _ _. Z.div_mod_to_equations. lia. Qed.

Lemma doubleInGF_inj (a b : list Z) :
  is_block a -> is_block b -> doubleInGF a = doubleInGF b -> a = b.
Proof.
  intros Ha Hb. name_block Ha. name_block' Hb.
  rewrite !doubleInGF_unfold. intros E.
  injection E as E0 E1 E2 E3 E4 E5 E6 E7 E8 E9 E10 E11 E12 E13 E14 E15.
  apply low_byte_inj in E0; [|assumption..].
  apply shl_byte_inj in E1, E2, E3, E4, E5, E6, E7, E8, E9, E10, E11, E12, E13, E14, E15;
    [|assumption..].
  repeat match goal with Hc : _ /\ _ |- _ => destruct Hc end.
  repeat match goal with
    | Hm : ?x mod 128 = ?y mod 128 |- _ =>
        assert (x = y) by (apply byte_of_parts; assumption); clear Hm
    end.
  subst. reflexivity.
Qed.

(** X6.  [doubleInGF] is injective on 16-byte blocks, and the only
    block it maps to zero is the zero block. *)
Theorem doubleInGF_injective (a b : list Z) :
  is_block a -> is_block b ->
  (doubleInGF a = doubleInGF b -> a = b) /\
  (doubleInGF a = replicate 16 0 -> a = replicate 16 0).
Proof.
  intros Ha Hb. split; [apply doubleInGF_inj; assumption|].
  intros E. apply doubleInGF_inj; [exact Ha| |].
  - split; [reflexivity|]. cbn. repeat constructor; unfold is_byte; lia.
  - rewrite E. reflexivity.
Qed.

Lemma doubleInGF_injective_witness :
  (is_block example_block /\ is_block example_tweak) /\
  (doubleInGF example_block = doubleInGF example_tweak -> example_block = example_tweak) /\
  (doubleInGF example_block = replicate 16 0 -> example_block = replicate 16 0).
Proof.
  split; [split; [exact example_block_ok|exact example_tweak_ok]|].
  apply (doubleInGF_injective example_block example_tweak example_block_ok example_tweak_ok).
Defined.

(** ** XEX mode: the other round trip, and the tweak masks *)

Section XEXMore.
Context {c : BlockCipher}.

Lemma xex_enc_dec {Sh : BlockCipherShape c} (tk ek n : list Z) (seq : Z) (ct : list Z) :
  (forall b k, is_block b -> aesEncrypt (aesDecrypt b k) k = b) ->
  is_block n -> is_block ct -> xex_enc tk ek n seq (xex_dec tk ek n seq ct) = ct.
Proof.
  intros Hinv Hn Hc. pose proof (xex_delta_block n seq tk Hn) as Hd.
  unfold xex_dec, xex_enc. cbv zeta.
  pose proof (xor_block_block ct _ Hc Hd) as Hcd.
  rewrite xor_block_cancel.
  - rewrite Hinv by exact Hcd.
    apply xor_block_cancel. rewrite (is_block_length _ Hc), (is_block_length _ Hd). reflexivity.
  - rewrite (is_block_length _ (aesDecrypt_block _ _ Hcd)), (is_block_length _ Hd). reflexivity.
Qed.

Lemma iter_doubleInGF_inj (k : nat) (a b : list Z) :
  is_block a -> is_block b ->
  Nat.iter k doubleInGF a = Nat.iter k doubleInGF b -> a = b.
Proof.
  intros Ha Hb. induction k as [|k IH]; [intros E; exact E|].
  rewrite !Nat.iter_succ. intros E. apply IH.
  exact (doubleInGF_inj _ _ (iter_doubleInGF_block k a Ha) (iter_doubleInGF_block k b Hb) E).
Qed.

Lemma aesEncrypt_inj {L : BlockCipherLaws c} (a b : list Z) (k : expanded_key) :
  is_block a -> is_block b -> aesEncrypt a k = aesEncrypt b k -> a = b.
Proof.
  intros Ha Hb E. rewrite <- (aesDecrypt_aesEncrypt a k Ha), E. apply aesDecrypt_aesEncrypt, Hb.
Qed.

Lemma xex_delta_inj {L : BlockCipherLaws c} (n1 n2 tk : list Z) (seq : Z) :
  is_block n1 -> is_block n2 ->
  xex_delta n1 seq tk = xex_delta n2 seq tk -> n1 = n2.
Proof.
  intros H1 H2 E. unfold xex_delta in E.
  apply iter_doubleInGF_inj in E; [|apply aesEncrypt_block; assumption..].
  apply (aesEncrypt_inj _ _ _ H1 H2 E).
Qed.

End XEXMore.

Lemma tweak_of_inj (b1 b2 : Z) :
  0 <= b1 < 2 ^ 32 -> 0 <= b2 < 2 ^ 32 -> tweak_of b1 = tweak_of b2 -> b1 = b2.
Proof.
  intros H1 H2 E.
  destruct (tweak_of_little_endian b1 H1) as (_ & E1 & _).
  destruct (tweak_of_little_endian b2 H2) as (_ & E2 & _).
  rewrite <- E1, <- E2, E. reflexivity.
Qed.

Lemma shift_cipher_encrypt_decrypt (b : list Z) (k : list Z) :
  is_block b -> @aesEncrypt shift_cipher (@aesDecrypt shift_cipher b k) k = b.
Proof.
  intros H. name_block H.
  cbn [aesEncrypt aesDecrypt shift_cipher map rev app].
  assert (E : forall x, is_byte x -> u8 (u8 (x - rd k 0) + rd k 0) = x).
  { intros x Hx. unfold u8. rewrite Zplus_mod_idemp_l.
    replace (x - rd k 0 + rd k 0) with x by lia. apply Z.mod_small, Hx. }
  rewrite !E by assumption. reflexivity.
Qed.

(** X7.  The round trip the other way round.  When AES encryption
    also undoes AES decryption, [xexDecrypt] into [pt] followed by
    [xexEncrypt] of [pt] into [ct] with the same tweak, sequence number and
    keys leaves the original block in [ct].  ([pt] may be [in] itself, but
    not the tweak or a key.) *)
Theorem xex_decrypt_encrypt {c : BlockCipher} {Sh : BlockCipherShape c}
    (m : gmap positive (list Z)) (pt ct in_ n tweak_key encrypt_key : positive) (seq : Z) :
  (forall b k, is_block b -> aesEncrypt (aesDecrypt b k) k = b) ->
  is_block (deref m in_) -> is_block (deref m n) -> 0 <= seq <= 255 ->
  pt <> n -> pt <> tweak_key -> pt <> encrypt_key ->
  deref (xexEncrypt ct pt n seq tweak_key encrypt_key
           (xexDecrypt pt in_ n seq tweak_key encrypt_key m)) ct
  = deref m in_.
Proof.
  intros Hinv Hin Hn Hseq N1 N2 N3. unfold xexEncrypt, xexDecrypt.
  rewrite (xexEnDecrypt_effect pt in_) by assumption. cbn [Z.eqb].
  set (m1 := <[pt := _]> m).
  assert (E1 : deref m1 pt =
               xex_dec (deref m tweak_key) (deref m encrypt_key) (deref m n) seq (deref m in_))
    by apply deref_insert.
  assert (E2 : deref m1 n = deref m n) by (apply deref_insert_ne; exact N1).
  assert (E3 : deref m1 tweak_key = deref m tweak_key) by (apply deref_insert_ne; exact N2).
  assert (E4 : deref m1 encrypt_key = deref m encrypt_key) by (apply deref_insert_ne; exact N3).
  rewrite xexEnDecrypt_effect.
  - cbn [Z.eqb]. rewrite deref_insert, E1, E2, E3, E4. apply xex_enc_dec; assumption.
  - rewrite E1. apply xex_dec_block; assumption.
  - rewrite E2. exact Hn.
  - exact Hseq.
Qed.

Lemma xex_decrypt_encrypt_witness :
  ((forall b k, is_block b -> @aesEncrypt shift_cipher (@aesDecrypt shift_cipher b k) k = b) /\
   is_block (deref example_mem 1) /\ is_block (deref example_mem 2) /\ 0 <= 1 <= 255 /\
   5%positive <> 2%positive /\ 5%positive <> 3%positive /\ 5%positive <> 4%positive) /\
  deref (@xexEncrypt shift_cipher 6 5 2 1 3 4 (@xexDecrypt shift_cipher 5 1 2 1 3 4 example_mem)) 6
  = deref example_mem 1.
Proof.
  destruct example_mem_deref as [E1 E2].
  assert (H1 : is_block (deref example_mem 1)) by (rewrite E1; exact example_block_ok).
  assert (H2 : is_block (deref example_mem 2)) by (rewrite E2; exact example_tweak_ok).
  split; [split; [exact shift_cipher_encrypt_decrypt|
                  split; [exact H1|split; [exact H2|split; [lia|repeat split; discriminate]]]]|].
  apply (@xex_decrypt_encrypt shift_cipher (@cipher_shape _ shift_cipher_laws)
           example_mem 5 6 1 2 3 4 1 shift_cipher_encrypt_decrypt H1 H2);
    [lia|discriminate|discriminate|discriminate].
Defined.

(** X8.  For a given tweak key and sequence number, two different
    16-byte tweaks get different masks (the encrypted tweak, doubled [seq]
    times); so the masks of two different 32-bit block addresses differ. *)
Theorem xex_masks_distinct {c : BlockCipher} {L : BlockCipherLaws c}
    (tweak_key : list Z) (seq : Z) :
  (forall n1 n2, is_block n1 -> is_block n2 -> n1 <> n2 ->
     Nat.iter (Z.to_nat seq) doubleInGF (aesEncrypt n1 (aesExpandKey tweak_key)) <>
     Nat.iter (Z.to_nat seq) doubleInGF (aesEncrypt n2 (aesExpandKey tweak_key))) /\
  (forall b1 b2, 0 <= b1 < 2 ^ 32 -> 0 <= b2 < 2 ^ 32 -> b1 <> b2 ->
     xex_delta (tweak_of b1) seq tweak_key <> xex_delta (tweak_of b2) seq tweak_key).
Proof.
  split.
  - intros n1 n2 H1 H2 Hne E. apply Hne.
    apply (xex_delta_inj n1 n2 tweak_key seq H1 H2 E).
  - intros b1 b2 H1 H2 Hne E. apply Hne. apply tweak_of_inj; [assumption..|].
    apply (xex_delta_inj _ _ tweak_key seq (tweak_of_block b1) (tweak_of_block b2) E).
Qed.

Lemma xex_masks_distinct_witness :
  let tk := nv_storage_tweak_key example_keys in
  (forall n1 n2, is_block n1 -> is_block n2 -> n1 <> n2 ->
     Nat.iter (Z.to_nat 1) doubleInGF (@aesEncrypt shift_cipher n1 (aesExpandKey tk)) <>
     Nat.iter (Z.to_nat 1) doubleInGF (@aesEncrypt shift_cipher n2 (aesExpandKey tk))) /\
  (forall b1 b2, 0 <= b1 < 2 ^ 32 -> 0 <= b2 < 2 ^ 32 -> b1 <> b2 ->
     @xex_delta shift_cipher (tweak_of b1) 1 tk <> @xex_delta shift_cipher (tweak_of b2) 1 tk).
Proof.
  exact (@xex_masks_distinct shift_cipher shift_cipher_laws
           (nv_storage_tweak_key example_keys) 1).
Defined.

(** ** When a call returns *)

Section Ends.
Context {c : BlockCipher} {rs : RawStore}.

(** With the last block below the top of the address space the loops
    return, whatever the driver does, once the fuel exceeds the number of
    blocks. *)
Lemma write_loop_ends (ks : key_state) (data : list Z) (block_end : Z) :
  block_end < 0xfffffff0 ->
  forall (fuel : nat) (b o : Z) (n : list Z) (pos len : Z) (w : world),
    0 <= b -> b mod 16 = 0 ->
    (Z.to_nat ((block_end + 16 - b) / 16) < fuel)%nat ->
    exists r w', write_loop fuel ks b block_end o n data pos len w = (Some r, w').
Proof.
  intros Hbe. induction fuel as [|fuel IH]; intros b o n pos len w Hb Hm Hf; [lia|].
  cbn [write_loop]. destruct (Z.leb_spec b block_end) as [Hle|Hgt]; [|eauto].
  destruct (raw_read w b 16) as [[r ct] w1].
  destruct (nv_failed r); [eauto|].
  destruct (call_xexDecrypt _ _ _ _ _) as [pt w2].
  destruct (write_copy 256 _ _ _ _ _) as [[[pt' pos'] o'] len'].
  destruct (call_xexEncrypt _ _ _ _ _) as [ct' w3].
  destruct (raw_write w3 ct' b 16) as [r2 w4].
  destruct (nv_failed r2); [eauto|].
  rewrite u32_small by lia.
  apply IH; [lia|Z.div_mod_to_equations; lia|Z.div_mod_to_equations; lia].
Qed.

Lemma read_loop_ends (ks : key_state) (block_end : Z) :
  block_end < 0xfffffff0 ->
  forall (fuel : nat) (b o : Z) (n data : list Z) (pos len : Z) (w : world),
    0 <= b -> b mod 16 = 0 ->
    (Z.to_nat ((block_end + 16 - b) / 16) < fuel)%nat ->
    exists r data' w', read_loop fuel ks b block_end o n data pos len w = (Some r, data', w').
Proof.
  intros Hbe. induction fuel as [|fuel IH]; intros b o n data pos len w Hb Hm Hf; [lia|].
  cbn [read_loop]. destruct (Z.leb_spec b block_end) as [Hle|Hgt]; [|eauto].
  destruct (raw_read w b 16) as [[r ct] w1].
  destruct (nv_failed r); [eauto|].
  destruct (call_xexDecrypt _ _ _ _ _) as [pt w2].
  destruct (read_copy 256 _ _ _ _ _) as [[[data1 pos'] o'] len'].
  rewrite u32_small by lia.
  apply IH; [lia|Z.div_mod_to_equations; lia|Z.div_mod_to_equations; lia].
Qed.

End Ends.

(** The number of blocks of a call. *)
Lemma adapter_block_count (address len : Z) :
  0 <= address < 2 ^ 32 -> 0 <= len < 256 ->
  Z.land (u32 (address + len - 1)) 0xfffffff0 < 0xfffffff0 ->
  (Z.land (u32 (address + len - 1)) 0xfffffff0 + 16 - Z.land address 0xfffffff0) / 16 <= 17.
Proof.
  intros Ha Hlen Htop.
  destruct (adapter_blocks address len Ha) as (Eb & _ & _ & _ & _ & Ee & _ & _).
  cbv zeta in *. rewrite Ee in Htop. rewrite Eb, Ee. clear Eb Ee.
  unfold u32 in *.
  destruct (Z.lt_ge_cases (address + len - 1) 0) as [Hn|Hn].
  - assert (E : address + len - 1 = -1) by lia. rewrite E in *.
    change ((-1) mod 2 ^ 32) with 4294967295 in *.
    change (4294967295 mod 16) with 15 in *. lia.
  - destruct (Z.lt_ge_cases (address + len - 1) (2 ^ 32)) as [Hs|Hs].
    + rewrite Z.mod_small by lia. Z.div_mod_to_equations. lia.
    + assert (E : (address + len - 1) mod 2 ^ 32 = address + len - 1 - 2 ^ 32).
      { symmetry. apply (Z.mod_unique _ _ 1); lia. }
      rewrite E. Z.div_mod_to_equations. lia.
Qed.

(** X9.  A call whose last block is not the top block 0xfffffff0
    returns, whatever the raw driver answers: the block loop ends within 17
    iterations (fuel 18 is enough for every address and every length). *)
Theorem adapter_returns_below_top {c : BlockCipher} {rs : RawStore}
    (fuel : nat) (ks : key_state) (data : list Z) (address len : Z) (w : world) :
  0 <= address < 2 ^ 32 -> 0 <= len < 256 ->
  Z.land (u32 (address + len - 1)) 0xfffffff0 < 0xfffffff0 ->
  (17 < fuel)%nat ->
  (exists r w', encryptedNonVolatileWrite fuel ks data address len w = (Some r, w')) /\
  (exists r data' w',
     encryptedNonVolatileRead fuel ks data address len w = (Some r, data', w')).
Proof.
  intros Ha Hlen Htop Hfuel.
  pose proof (adapter_block_count address len Ha Hlen Htop) as Hcount.
  destruct (adapter_blocks address len Ha) as (_ & _ & Hb & Hbm & _).
  cbv zeta in *.
  unfold encryptedNonVolatileWrite, encryptedNonVolatileRead. cbv zeta.
  split.
  - apply write_loop_ends; [exact Htop|lia|exact Hbm|lia].
  - apply read_loop_ends; [exact Htop|lia|exact Hbm|lia].
Qed.

Lemma adapter_returns_below_top_witness :
  let w0 := empty_world headless_store ∅ in
  (0 <= 5 < 2 ^ 32 /\ 0 <= 255 < 256 /\
   Z.land (u32 (5 + 255 - 1)) 0xfffffff0 < 0xfffffff0 /\ (17 < 18)%nat) /\
  (exists r w',
     @encryptedNonVolatileWrite shift_cipher headless_store 18 example_keys example_data 5 255 w0
     = (Some r, w')) /\
  (exists r data' w',
     @encryptedNonVolatileRead shift_cipher headless_store 18 example_keys example_data 5 255 w0
     = (Some r, data', w')).
Proof.
  cbv zeta.
  assert (H1 : 0 <= 5 < 2 ^ 32) by lia.
  assert (H2 : 0 <= 255 < 256) by lia.
  assert (H3 : Z.land (u32 (5 + 255 - 1)) 0xfffffff0 < 0xfffffff0) by (vm_compute; reflexivity).
  assert (H4 : (17 < 18)%nat) by lia.
  split; [split; [exact H1|split; [exact H2|split; [exact H3|exact H4]]]|].
  apply (@adapter_returns_below_top shift_cipher headless_store 18 example_keys example_data
           5 255 (empty_world headless_store ∅) H1 H2 H3 H4).
Defined.

(** X10.  A call whose last byte [address + length - 1] (modulo
    2^32) lies in the top sixteen bytes of the address space never returns
    [NV_NO_ERROR], on any driver: the block counter wraps to 0 and the loop
    can only end on a driver error. *)
Theorem adapter_top_block_never_succeeds {c : BlockCipher} {rs : RawStore}
    (fuel : nat) (ks : key_state) (data : list Z) (address len : Z) (w : world) :
  0 <= address < 2 ^ 32 -> 0xfffffff0 <= u32 (address + len - 1) ->
  (forall w', encryptedNonVolatileWrite fuel ks data address len w <> (Some NV_NO_ERROR, w')) /\
  (forall data' w',
     encryptedNonVolatileRead fuel ks data address len w <> (Some NV_NO_ERROR, data', w')).
Proof.
  intros Ha Htop.
  destruct (adapter_blocks address len Ha) as (_ & _ & Hb & Hbm & _ & Ee & _ & _).
  cbv zeta in *.
  assert (Hbe : 0xfffffff0 <= Z.land (u32 (address + len - 1)) 0xfffffff0).
  { rewrite Ee. pose proof (u32_range (address + len - 1)). Z.div_mod_to_equations. lia. }
  unfold encryptedNonVolatileWrite, encryptedNonVolatileRead. cbv zeta.
  split.
  - intros w'. apply write_loop_wraps; assumption.
  - intros data' w'. apply read_loop_wraps; assumption.
Qed.

Lemma adapter_top_block_never_succeeds_witness :
  let w0 := empty_world full_store ∅ in
  (0 <= 0xffffffe8 < 2 ^ 32 /\ 0xfffffff0 <= u32 (0xffffffe8 + 16 - 1)) /\
  (forall w',
     @encryptedNonVolatileWrite shift_cipher full_store 40 example_keys example_data
       0xffffffe8 16 w0 <> (Some NV_NO_ERROR, w')) /\
  (forall data' w',
     @encryptedNonVolatileRead shift_cipher full_store 40 example_keys example_data
       0xffffffe8 16 w0 <> (Some NV_NO_ERROR, data', w')).
Proof.
  cbv zeta.
  assert (H1 : 0 <= 0xffffffe8 < 2 ^ 32) by lia.
  assert (H2 : 0xfffffff0 <= u32 (0xffffffe8 + 16 - 1)) by (vm_compute; discriminate).
  split; [split; [exact H1|exact H2]|].
  apply (@adapter_top_block_never_succeeds shift_cipher full_store 40 example_keys example_data
           0xffffffe8 16 (empty_world full_store ∅) H1 H2).
Defined.

(** X11.  A range that runs past the end of the 32-bit address space
    ([address + length > 2^32]) is skipped: [block_end] wraps below
    [block_start], the loop body does not run, the call returns
    [NV_NO_ERROR], and the world, its log included, and the caller's array
    are as before. *)
Theorem adapter_wrapped_range_skipped {c : BlockCipher} {rs : RawStore}
    (fuel : nat) (ks : key_state) (data : list Z) (address len : Z) (w : world) :
  0 <= address < 2 ^ 32 -> 0 <= len < 256 -> 2 ^ 32 < address + len -> (0 < fuel)%nat ->
  encryptedNonVolatileWrite fuel ks data address len w = (Some NV_NO_ERROR, w) /\
  encryptedNonVolatileRead fuel ks data address len w = (Some NV_NO_ERROR, data, w).
Proof.
  intros Ha Hlen Hwrap Hfuel.
  destruct (adapter_blocks address len Ha) as (Eb & _ & _ & _ & _ & Ee & _ & _).
  cbv zeta in *.
  assert (E : u32 (address + len - 1) = address + len - 1 - 2 ^ 32).
  { unfold u32. symmetry. apply (Z.mod_unique _ _ 1); lia. }
  assert (Hlt : Z.land (u32 (address + len - 1)) 0xfffffff0 < Z.land address 0xfffffff0).
  { rewrite Ee, Eb, E. Z.div_mod_to_equations. lia. }
  unfold encryptedNonVolatileWrite, encryptedNonVolatileRead. cbv zeta.
  destruct fuel as [|fuel]; [lia|]. cbn [write_loop read_loop].
  destruct (Z.leb_spec (Z.land address 0xfffffff0) (Z.land (u32 (address + len - 1)) 0xfffffff0));
    [lia|]. split; reflexivity.
Qed.

Lemma adapter_wrapped_range_skipped_witness :
  let w0 := empty_world full_store ∅ in
  (0 <= 0xfffffffe < 2 ^ 32 /\ 0 <= 20 < 256 /\ 2 ^ 32 < 0xfffffffe + 20 /\ (0 < 1)%nat) /\
  @encryptedNonVolatileWrite shift_cipher full_store 1 example_keys example_data 0xfffffffe 20 w0
    = (Some NV_NO_ERROR, w0) /\
  @encryptedNonVolatileRead shift_cipher full_store 1 example_keys example_data 0xfffffffe 20 w0
    = (Some NV_NO_ERROR, example_data, w0).
Proof.
  cbv zeta.
  assert (H1 : 0 <= 0xfffffffe < 2 ^ 32) by lia.
  assert (H2 : 0 <= 20 < 256) by lia.
  assert (H3 : 2 ^ 32 < 0xfffffffe + 20) by lia.
  assert (H4 : (0 < 1)%nat) by lia.
  split; [split; [exact H1|split; [exact H2|split; [exact H3|exact H4]]]|].
  apply (@adapter_wrapped_range_skipped shift_cipher full_store 1 example_keys example_data
           0xfffffffe 20 (empty_world full_store ∅) H1 H2 H3 H4).
Defined.

(** ** The raw driver calls of a call *)

Lemma block_trace_whole_blocks (writes : bool) (block_end b : Z) (evs : list event)
    (res : option NonVolatileReturn) :
  block_trace writes block_end b evs res ->
  0 <= b < 2 ^ 32 -> b mod 16 = 0 -> Forall whole_block_access evs.
Proof.
  induction 1 as [b Hb|b|b r0 Hb Hf|b ct r0 Hb Hw Hf|b ct evs res Hb Hw Ht IH|b evs res Hb Hw Ht IH];
    intros Hr Hm;
    repeat (apply Forall_cons_2; [cbn; repeat split; first [assumption|lia]|]);
    try apply Forall_nil_2.
  - apply IH; [apply u32_range|apply u32_aligned; Z.div_mod_to_equations; lia].
  - apply IH; [apply u32_range|apply u32_aligned; Z.div_mod_to_equations; lia].
Qed.

Lemma block_trace_reading (block_end b : Z) (evs : list event)
    (res : option NonVolatileReturn) :
  block_trace false block_end b evs res -> Forall reading_event evs.
Proof.
  induction 1 as [| | | |b ct evs res Hb Hw Ht IH|b evs res Hb Hw Ht IH];
    try discriminate;
    repeat (apply Forall_cons_2; [cbn; repeat split|]); try apply Forall_nil_2.
  exact IH.
Qed.

Lemma blocks_from_done (b block_end : Z) :
  b mod 16 = 0 -> block_end mod 16 = 0 -> block_end < b -> blocks_from b block_end = [].
Proof.
  intros Hb He Hlt. unfold blocks_from.
  replace (Z.to_nat ((block_end + 16 - b) / 16)) with 0%nat; [reflexivity|].
  Z.div_mod_to_equations. lia.
Qed.

Lemma blocks_from_step (b block_end : Z) :
  b mod 16 = 0 -> block_end mod 16 = 0 -> b <= block_end ->
  blocks_from b block_end = b :: blocks_from (b + 16) block_end.
Proof.
  intros Hb He Hle. unfold blocks_from.
  replace (Z.to_nat ((block_end + 16 - b) / 16))
    with (S (Z.to_nat ((block_end + 16 - (b + 16)) / 16)))
    by (Z.div_mod_to_equations; lia).
  cbn [seq map]. f_equal; [lia|].
  rewrite <- seq_shift, map_map. apply map_ext. intros i. lia.
Qed.

(** An error-free run below the top block reads the blocks from [b] to
    [block_end], each once, and on the write path writes each of them. *)
Lemma block_trace_success (writes : bool) (block_end b : Z) (evs : list event) :
  block_trace writes block_end b evs (Some NV_NO_ERROR) ->
  0 <= b -> b mod 16 = 0 -> block_end mod 16 = 0 -> block_end < 0xfffffff0 ->
  read_addresses evs = blocks_from b block_end /\
  (writes = true -> write_addresses evs = blocks_from b block_end).
Proof.
  intros H. remember (Some NV_NO_ERROR) as res eqn:Eres.
  induction H as [b Hb|b|b r0 Hb Hf|b ct r0 Hb Hw Hf|b ct evs res Hb Hw Ht IH|b evs res Hb Hw Ht IH];
    intros H0 Hm Hem Hbe.
  - rewrite blocks_from_done by assumption. split; reflexivity.
  - discriminate Eres.
  - injection Eres as ->. discriminate Hf.
  - injection Eres as ->. discriminate Hf.
  - rewrite u32_small in IH by lia.
    destruct (IH Eres ltac:(lia) ltac:(Z.div_mod_to_equations; lia) Hem Hbe) as [IH1 IH2].
    rewrite (blocks_from_step b block_end) by assumption.
    unfold read_addresses, write_addresses in *. cbn [omap]. cbn.
    split; [f_equal; exact IH1|intros _; f_equal; apply IH2; exact Hw].
  - rewrite u32_small in IH by lia.
    destruct (IH Eres ltac:(lia) ltac:(Z.div_mod_to_equations; lia) Hem Hbe) as [IH1 IH2].
    rewrite (blocks_from_step b block_end) by assumption.
    unfold read_addresses, write_addresses in *. cbn.
    split; [f_equal; exact IH1|intros Hw'; congruence].
Qed.

(** X12.  Every raw driver call of [encryptedNonVolatileWrite] and of
    [encryptedNonVolatileRead] is for sixteen bytes at a 32-bit address
    that is a multiple of 16, in every run; and [encryptedNonVolatileRead]
    calls neither [nonVolatileWrite] nor [xexEncrypt]. *)
Theorem adapter_raw_accesses {c : BlockCipher} {rs : RawStore}
    (fuel : nat) (ks : key_state) (data : list Z) (address len : Z) (w : world) :
  (exists evs,
     w_log (snd (encryptedNonVolatileWrite fuel ks data address len w)) = w_log w ++ evs /\
     Forall whole_block_access evs) /\
  (exists evs,
     w_log (snd (encryptedNonVolatileRead fuel ks data address len w)) = w_log w ++ evs /\
     Forall whole_block_access evs /\ Forall reading_event evs /\ write_addresses evs = []).
Proof.
  split.
  - unfold encryptedNonVolatileWrite. cbv zeta.
    destruct (write_loop _ _ _ _ _ _ _ _ _ _) as [res w'] eqn:E.
    destruct (write_loop_trace _ _ _ _ _ _ _ _ _ _ _ _ zeroed_n_shaped E) as (evs & Hl & Ht).
    exists evs. split; [exact Hl|].
    apply (block_trace_whole_blocks _ _ _ _ _ Ht); [apply land_block_any|apply land_block_aligned].
  - unfold encryptedNonVolatileRead. cbv zeta.
    destruct (read_loop _ _ _ _ _ _ _ _ _ _) as [[res data'] w'] eqn:E.
    destruct (read_loop_trace _ _ _ _ _ _ _ _ _ _ _ _ _ zeroed_n_shaped E) as (evs & Hl & Ht).
    exists evs. split; [exact Hl|]. split; [|split].
    + apply (block_trace_whole_blocks _ _ _ _ _ Ht);
        [apply land_block_any|apply land_block_aligned].
    + apply (block_trace_reading _ _ _ _ Ht).
    + apply (block_trace_no_writes _ _ _ _ Ht).
Qed.

Lemma blocks_from_length (address len : Z) :
  0 <= address < 2 ^ 32 -> 0 <= len < 256 ->
  Z.land (u32 (address + len - 1)) 0xfffffff0 < 0xfffffff0 ->
  (length (blocks_from (Z.land address 0xfffffff0)
             (Z.land (u32 (address + len - 1)) 0xfffffff0)) <= 17)%nat.
Proof.
  intros Ha Hlen Htop. unfold blocks_from. rewrite length_map, length_seq.
  pose proof (adapter_block_count address len Ha Hlen Htop). lia.
Qed.

(** X13.  An error-free call reads exactly the blocks from
    [address & 0xfffffff0] to [(address + length - 1) & 0xfffffff0], each
    once and in this order, at most 17 of them; [encryptedNonVolatileWrite]
    writes exactly the same blocks, [encryptedNonVolatileRead] writes
    none. *)
Theorem adapter_blocks_touched {c : BlockCipher} {rs : RawStore}
    (fuel : nat) (ks : key_state) (data : list Z) (address len : Z) (w : world) :
  0 <= address < 2 ^ 32 -> 0 <= len < 256 ->
  let first_block := Z.land address 0xfffffff0 in
  let block_end := Z.land (u32 (address + len - 1)) 0xfffffff0 in
  (forall w',
     encryptedNonVolatileWrite fuel ks data address len w = (Some NV_NO_ERROR, w') ->
     exists evs, w_log w' = w_log w ++ evs /\
       read_addresses evs = blocks_from first_block block_end /\
       write_addresses evs = blocks_from first_block block_end /\
       (length (blocks_from first_block block_end) <= 17)%nat) /\
  (forall data' w',
     encryptedNonVolatileRead fuel ks data address len w = (Some NV_NO_ERROR, data', w') ->
     exists evs, w_log w' = w_log w ++ evs /\
       read_addresses evs = blocks_from first_block block_end /\
       write_addresses evs = [] /\
       (length (blocks_from first_block block_end) <= 17)%nat).
Proof.
  intros Ha Hlen first_block block_end.
  destruct (adapter_blocks address len Ha) as (_ & _ & Hb & Hbm & _ & _ & Hem & He).
  cbv zeta in *. fold first_block block_end in Hb, Hbm, Hem, He.
  split.
  - intros w' Hrun. unfold encryptedNonVolatileWrite in Hrun. cbv zeta in Hrun.
    fold first_block block_end in Hrun.
    assert (Htop : block_end < 0xfffffff0).
    { destruct (Z.lt_ge_cases block_end 0xfffffff0) as [Hlt|Hge]; [exact Hlt|].
      exfalso. exact (write_loop_wraps ks block_end data Hge _ _ _ _ _ _ _ w' Hb Hbm Hrun). }
    destruct (write_loop_trace _ _ _ _ _ _ _ _ _ _ _ _ zeroed_n_shaped Hrun) as (evs & Hl & Ht).
    destruct (block_trace_success _ _ _ _ Ht ltac:(lia) Hbm Hem Htop) as [Hr Hw].
    exists evs. split; [exact Hl|]. split; [exact Hr|]. split; [exact (Hw eq_refl)|].
    apply blocks_from_length; assumption.
  - intros data' w' Hrun. unfold encryptedNonVolatileRead in Hrun. cbv zeta in Hrun.
    fold first_block block_end in Hrun.
    assert (Htop : block_end < 0xfffffff0).
    { destruct (Z.lt_ge_cases block_end 0xfffffff0) as [Hlt|Hge]; [exact Hlt|].
      exfalso. exact (read_loop_wraps ks block_end Hge _ _ _ _ _ _ _ _ data' w' Hb Hbm Hrun). }
    destruct (read_loop_trace _ _ _ _ _ _ _ _ _ _ _ _ _ zeroed_n_shaped Hrun) as (evs & Hl & Ht).
    destruct (block_trace_success _ _ _ _ Ht ltac:(lia) Hbm Hem Htop) as [Hr _].
    exists evs. split; [exact Hl|]. split; [exact Hr|].
    split; [exact (block_trace_no_writes _ _ _ _ Ht)|].
    apply blocks_from_length; assumption.
Qed.

Lemma adapter_blocks_touched_witness :
  let w0 := empty_world small_store ∅ in
  (0 <= 5 < 2 ^ 32 /\ 0 <= 20 < 256) /\
  (forall w',
     @encryptedNonVolatileWrite shift_cipher small_store 18 example_keys example_data 5 20 w0
       = (Some NV_NO_ERROR, w') ->
     exists evs, w_log w' = w_log w0 ++ evs /\
       read_addresses evs = [0; 16] /\ write_addresses evs = [0; 16]).
Proof.
  cbv zeta.
  assert (H1 : 0 <= 5 < 2 ^ 32) by lia.
  assert (H2 : 0 <= 20 < 256) by lia.
  split; [split; [exact H1|exact H2]|].
  intros w' Hrun.
  destruct (@adapter_blocks_touched shift_cipher small_store 18 example_keys example_data 5 20
              (empty_world small_store ∅) H1 H2) as [Hw _].
  destruct (Hw w' Hrun) as (evs & Hl & Hr & Hwr & _).
  exists evs. split; [exact Hl|]. split; [exact Hr|exact Hwr].
Defined.

(** ** What a read returns *)

Section ReadContent.
Context {c : BlockCipher} {L : BlockCipherLaws c} {rs : RawStore}
        {nv_byte : nv_state -> Z -> Z} {SL : RawStoreLaws rs nv_byte}.
Variable ks : key_state.

(** Whatever the outcome of the read loop, the caller's array keeps its
    length and each of its bytes is either as before or the decrypted byte
    of storage that belongs there. *)
Lemma read_loop_partial (block_end : Z) :
  forall (fuel : nat) (b o : Z) (n data : list Z) (pos len : Z) (w : world)
         (res : option NonVolatileReturn) (data' : list Z) (w' : world),
    0 <= b < 2 ^ 32 -> b mod 16 = 0 -> 0 <= o < 16 -> 0 <= len < 256 -> tweak_shaped n ->
    0 <= pos -> pos + len <= Z.of_nat (length data) -> b + o + len <= 2 ^ 32 ->
    read_loop fuel ks b block_end o n data pos len w = (res, data', w') ->
    length data' = length data /\
    forall j, 0 <= j ->
      rd data' j = rd data j \/
      (pos <= j < pos + len /\
       rd data' j = plain_byte nv_byte ks (w_nv w) (b + o + (j - pos))).
Proof.
  induction fuel as [|fuel IH];
    intros b o n data pos len w res data' w' Hb Hbm Ho Hlen Hn Hpos Hfit Hend H.
  { injection H as <- <- <-. split; [reflexivity|]. intros j Hj. left. reflexivity. }
  cbn [read_loop] in H. destruct (Z.leb_spec b block_end) as [Hle|Hgt].
  2:{ injection H as <- <- <-. split; [reflexivity|]. intros j Hj. left. reflexivity. }
  destruct (raw_read w b 16) as [[r ct] w1] eqn:Er.
  destruct (nv_failed r) eqn:Ef.
  { injection H as <- <- <-. split; [reflexivity|]. intros j Hj. left. reflexivity. }
  apply nv_failed_false in Ef. subst r.
  rewrite (writeU32LittleEndian_tweak n b Hn) in H.
  destruct (raw_read_block _ _ _ _ Er) as [Ect Hsame].
  assert (Hct : is_block ct) by (rewrite Ect; apply stored_block).
  rewrite call_xexDecrypt_value in H by (try apply tweak_of_block; try exact Hct; lia).
  destruct (read_copy_spec (xex_dec (nv_storage_tweak_key ks) (nv_storage_encrypt_key ks)
                              (tweak_of b) 1 ct) 256 data pos o len
              ltac:(lia) Hlen ltac:(lia) Hpos Hfit) as (data1 & E & Hl1 & Hrd1).
  cbv zeta in E. rewrite E in H.
  assert (Hblk : xex_dec (nv_storage_tweak_key ks) (nv_storage_encrypt_key ks)
                   (tweak_of b) 1 ct = plain_block nv_byte ks (w_nv w) b).
  { rewrite Ect. reflexivity. }
  rewrite Hblk in Hrd1.
  assert (Hhere : forall j, 0 <= j ->
            rd data1 j = rd data j \/
            (pos <= j < pos + len /\
             rd data1 j = plain_byte nv_byte ks (w_nv w) (b + o + (j - pos)))).
  { intros j Hj. rewrite (Hrd1 j Hj).
    destruct ((pos <=? j) && (j <? pos + Z.min len (16 - o))) eqn:Ec; [right|left; reflexivity].
    assert (pos <= j < pos + Z.min len (16 - o)) by lia.
    split; [lia|].
    replace (b + o + (j - pos)) with (b + (o + (j - pos))) by lia.
    rewrite plain_byte_in_block by lia. reflexivity. }
  destruct (Z.eq_dec (len - Z.min len (16 - o)) 0) as [Ez|Nz].
  - rewrite Ez in H. apply read_loop_len0 in H. subst data'.
    split; [exact Hl1|exact Hhere].
  - assert (Hk : Z.min len (16 - o) = 16 - o) by lia.
    rewrite Hk in *.
    assert (Hnw : b + 16 < 2 ^ 32) by lia.
    rewrite u32_small in H by lia.
    assert (Hbm' : (b + 16) mod 16 = 0) by (Z.div_mod_to_equations; lia).
    pose proof (fun h1 h3 h4 h6 h7 h8 =>
                  IH _ _ _ _ _ _ _ _ _ _ h1 Hbm' h3 h4 (tweak_of_shaped b) h6 h7 h8 H) as Hrest.
    specialize (Hrest ltac:(lia) ltac:(lia) ltac:(lia) ltac:(lia) ltac:(lia) ltac:(lia)).
    destruct Hrest as (Hl & Hrest). cbn [observe w_nv] in Hrest.
    split; [rewrite Hl; exact Hl1|].
    intros j Hj. destruct (Hrest j Hj) as [Esame|[Hin Eplain]].
    + rewrite Esame. apply Hhere, Hj.
    + right. split; [lia|]. rewrite Eplain.
      replace (b + 16 + 0 + (j - (pos + (16 - o)))) with (b + o + (j - pos)) by lia.
      apply plain_byte_ext. exact Hsame.
Qed.

End ReadContent.

(** An error-free read of a range inside the address space: the first
    [len] bytes of the caller's array are the decrypted bytes of the range,
    the others and the raw store are as before. *)
Lemma read_content {c : BlockCipher} {L : BlockCipherLaws c} {rs : RawStore}
    {nv_byte : nv_state -> Z -> Z} {SL : RawStoreLaws rs nv_byte}
    (fuel : nat) (ks : key_state) (buf : list Z) (address len : Z) (w : world)
    (buf' : list Z) (w' : world) :
  0 <= address < 2 ^ 32 -> 0 <= len < 256 -> address + len <= 2 ^ 32 ->
  len <= Z.of_nat (length buf) ->
  encryptedNonVolatileRead fuel ks buf address len w = (Some NV_NO_ERROR, buf', w') ->
  (forall x, nv_byte (w_nv w') x = nv_byte (w_nv w) x) /\
  length buf' = length buf /\
  forall j, 0 <= j ->
    rd buf' j = if j <? len then plain_byte nv_byte ks (w_nv w) (address + j) else rd buf j.
Proof.
  intros Ha Hlen Hend Hfit Hrun. unfold encryptedNonVolatileRead in Hrun. cbv zeta in Hrun.
  destruct (adapter_blocks address len Ha) as (Eb & Eo & Hb & Hbm & Ho & Ee & Hem & He).
  cbv zeta in *.
  assert (He32 : Z.land (u32 (address + len - 1)) 0xfffffff0 < 2 ^ 32) by lia.
  assert (Hpos : 0 <= 0) by lia.
  assert (Hfit' : 0 + len <= Z.of_nat (length buf)) by lia.
  destruct (read_loop_content ks _ Hem He32 _ _ _ _ _ _ _ _ _ _
              Hb Hbm Ho Hlen zeroed_n_shaped Hpos Hfit' Hrun) as (Hnv & Hl & Hrd).
  split; [exact Hnv|]. split; [exact Hl|].
  intros j Hj. rewrite Hrd by lia.
  destruct (Z.ltb_spec j len) as [Hin|Hout]; [|split_cmp].
  assert (Eu : u32 (address + len - 1) = address + len - 1) by (apply u32_small; lia).
  rewrite Ee, Eu, Eb, Eo.
  assert (address + len - 1 < address + len - 1 - (address + len - 1) mod 16 + 16)
    by (Z.div_mod_to_equations; lia).
  split_cmp.
  replace (address - address mod 16 + address mod 16 + (j - 0)) with (address + j) by lia.
  reflexivity.
Qed.

(** X14.  An error-free [encryptedNonVolatileRead] of a range inside
    the address space puts into [buf[0..len-1]] the decrypted bytes of
    storage at [address .. address + len - 1] (each the byte of its block
    XEX-decrypted under the tweak of the block and sequence number 1),
    leaves the rest of [buf] alone and leaves every raw byte of storage as
    it was. *)
Theorem read_decrypts_storage {c : BlockCipher} {L : BlockCipherLaws c} {rs : RawStore}
    {nv_byte : nv_state -> Z -> Z} {SL : RawStoreLaws rs nv_byte}
    (fuel : nat) (ks : key_state) (buf : list Z) (address len : Z) (w : world)
    (buf' : list Z) (w' : world) :
  0 <= address < 2 ^ 32 -> 0 <= len < 256 -> address + len <= 2 ^ 32 ->
  len <= Z.of_nat (length buf) ->
  encryptedNonVolatileRead fuel ks buf address len w = (Some NV_NO_ERROR, buf', w') ->
  length buf' = length buf /\
  (forall j, 0 <= j < len -> rd buf' j = plain_byte nv_byte ks (w_nv w) (address + j)) /\
  (forall j, len <= j -> rd buf' j = rd buf j) /\
  (forall x, nv_byte (w_nv w') x = nv_byte (w_nv w) x).
Proof.
  intros Ha Hlen Hend Hfit Hrun.
  destruct (read_content fuel ks buf address len w buf' w' Ha Hlen Hend Hfit Hrun)
    as (Hnv & Hl & Hrd).
  split; [exact Hl|]. split; [|split; [|exact Hnv]].
  - intros j Hj. rewrite Hrd by lia.
    destruct (Z.ltb_spec j len); [reflexivity|lia].
  - intros j Hj. rewrite Hrd by lia.
    destruct (Z.ltb_spec j len); [lia|reflexivity].
Qed.

Lemma read_decrypts_storage_witness :
  let w0 := empty_world small_store ∅ in
  let run := @encryptedNonVolatileRead shift_cipher small_store 5 example_keys
               (replicate 25 9) 5 20 w0 in
  (0 <= 5 < 2 ^ 32 /\ 0 <= 20 < 256 /\ 5 + 20 <= 2 ^ 32 /\
   20 <= Z.of_nat (length (replicate 25 9)) /\
   run = (Some NV_NO_ERROR, snd (fst run), snd run)) /\
  length (snd (fst run)) = length (replicate 25 9) /\
  (forall j, 0 <= j < 20 ->
     rd (snd (fst run)) j =
     @plain_byte shift_cipher small_store array_byte example_keys (w_nv w0) (5 + j)) /\
  (forall j, 20 <= j -> rd (snd (fst run)) j = rd (replicate 25 9) j) /\
  (forall x, array_byte (w_nv (snd run)) x = array_byte (w_nv w0) x).
Proof.
  cbv zeta.
  assert (H1 : 0 <= 5 < 2 ^ 32) by lia.
  assert (H2 : 0 <= 20 < 256) by lia.
  assert (H3 : 5 + 20 <= 2 ^ 32) by lia.
  assert (H4 : 20 <= Z.of_nat (length (replicate 25 9))) by (cbn; lia).
  pose (run := @encryptedNonVolatileRead shift_cipher small_store 5 example_keys
                 (replicate 25 9) 5 20 (empty_world small_store ∅)).
  assert (H5 : run = (Some NV_NO_ERROR, snd (fst run), snd run)) by (vm_compute; reflexivity).
  split; [split; [exact H1|split; [exact H2|split; [exact H3|split; [exact H4|exact H5]]]]|].
  exact (@read_decrypts_storage shift_cipher shift_cipher_laws small_store array_byte
           (array_store_laws 0 1024) 5 example_keys (replicate 25 9) 5 20
           (empty_world small_store ∅) (snd (fst run)) (snd run) H1 H2 H3 H4 H5).
Defined.

(** X15.  Whatever the outcome of [encryptedNonVolatileRead] (also an
    error, or a run that is still in progress), the caller's array keeps its
    length, every byte below [len] is either as before or the decrypted
    byte of storage that belongs there, and no byte from index [len] on is
    touched. *)
Theorem read_never_leaves_garbage {c : BlockCipher} {L : BlockCipherLaws c} {rs : RawStore}
    {nv_byte : nv_state -> Z -> Z} {SL : RawStoreLaws rs nv_byte}
    (fuel : nat) (ks : key_state) (buf : list Z) (address len : Z) (w : world) :
  0 <= address < 2 ^ 32 -> 0 <= len < 256 -> address + len <= 2 ^ 32 ->
  len <= Z.of_nat (length buf) ->
  let buf' := snd (fst (encryptedNonVolatileRead fuel ks buf address len w)) in
  length buf' = length buf /\
  (forall j, 0 <= j < len ->
     rd buf' j = rd buf j \/ rd buf' j = plain_byte nv_byte ks (w_nv w) (address + j)) /\
  (forall j, len <= j -> rd buf' j = rd buf j).
Proof.
  intros Ha Hlen Hend Hfit buf'. subst buf'.
  unfold encryptedNonVolatileRead. cbv zeta.
  destruct (adapter_blocks address len Ha) as (Eb & Eo & Hb & Hbm & Ho & _).
  cbv zeta in *.
  destruct (read_loop _ _ _ _ _ _ _ _ _ _) as [[res data'] w'] eqn:Hrun.
  cbn [fst snd].
  assert (Hpos : 0 <= 0) by lia.
  assert (Hfit' : 0 + len <= Z.of_nat (length buf)) by lia.
  assert (Hend' : Z.land address 0xfffffff0 + u8 (Z.land address 0x0000000f) + len <= 2 ^ 32)
    by (rewrite Eb, Eo; lia).
  destruct (read_loop_partial ks _ _ _ _ _ _ _ _ _ _ _ _
              Hb Hbm Ho Hlen zeroed_n_shaped Hpos Hfit' Hend' Hrun) as (Hl & Hrd).
  split; [exact Hl|]. split.
  - intros j Hj. destruct (Hrd j ltac:(lia)) as [E|[_ E]]; [left; exact E|right].
    rewrite E, Eb, Eo. f_equal. lia.
  - intros j Hj. destruct (Hrd j ltac:(lia)) as [E|[Hin _]]; [exact E|lia].
Qed.

Lemma read_never_leaves_garbage_witness :
  let w0 := empty_world (array_store 0 16) ∅ in
  let buf' := snd (fst (@encryptedNonVolatileRead shift_cipher (array_store 0 16) 5 example_keys
                          (replicate 25 9) 5 20 w0)) in
  (0 <= 5 < 2 ^ 32 /\ 0 <= 20 < 256 /\ 5 + 20 <= 2 ^ 32 /\
   20 <= Z.of_nat (length (replicate 25 9))) /\
  length buf' = length (replicate 25 9) /\
  (forall j, 0 <= j < 20 ->
     rd buf' j = rd (replicate 25 9) j \/
     rd buf' j =
       @plain_byte shift_cipher (array_store 0 16) array_byte example_keys (w_nv w0) (5 + j)) /\
  (forall j, 20 <= j -> rd buf' j = rd (replicate 25 9) j).
Proof.
  cbv zeta.
  assert (H1 : 0 <= 5 < 2 ^ 32) by lia.
  assert (H2 : 0 <= 20 < 256) by lia.
  assert (H3 : 5 + 20 <= 2 ^ 32) by lia.
  assert (H4 : 20 <= Z.of_nat (length (replicate 25 9))) by (cbn; lia).
  split; [split; [exact H1|split; [exact H2|split; [exact H3|exact H4]]]|].
  exact (@read_never_leaves_garbage shift_cipher shift_cipher_laws (array_store 0 16) array_byte
           (array_store_laws 0 16) 5 example_keys (replicate 25 9) 5 20
           (empty_world (array_store 0 16) ∅) H1 H2 H3 H4).
Defined.

(** ** What a write leaves in the raw store *)

Section RawContent.
Context {c : BlockCipher} {L : BlockCipherLaws c} {rs : RawStore}
        {nv_byte : nv_state -> Z -> Z} {SL : RawStoreLaws rs nv_byte}.
Variable ks : key_state.

Local Abbreviation tk := (nv_storage_tweak_key ks).
Local Abbreviation ek := (nv_storage_encrypt_key ks).

Lemma map_block_ext (s1 s2 : nv_state) (b : Z) :
  (forall x, b <= x < b + 16 -> nv_byte s1 x = nv_byte s2 x) ->
  map (nv_byte s1) (block_addrs b) = map (nv_byte s2) (block_addrs b).
Proof.
  intros H. apply rd_ext; [reflexivity|].
  rewrite length_map_block. intros j Hj. rewrite !rd_map_block by lia. apply H. lia.
Qed.

(** What an error-free run of the write loop leaves in the raw store: the
    blocks from [b] to [block_end] hold the XEX encryption of their new
    decrypted contents, every other byte is as before. *)
Lemma write_loop_raw (data : list Z) (block_end : Z) :
  Forall is_byte data -> block_end mod 16 = 0 -> block_end < 2 ^ 32 ->
  forall (fuel : nat) (b o : Z) (n : list Z) (pos len : Z) (w w' : world),
    0 <= b < 2 ^ 32 -> b mod 16 = 0 -> 0 <= o < 16 -> 0 <= len < 256 -> tweak_shaped n ->
    write_loop fuel ks b block_end o n data pos len w = (Some NV_NO_ERROR, w') ->
    (forall x, ~ (b <= x < block_end + 16) -> nv_byte (w_nv w') x = nv_byte (w_nv w) x) /\
    (forall b', b <= b' <= block_end -> b' mod 16 = 0 -> sealed_block nv_byte ks (w_nv w') b').
Proof.
  intros Hdata Hbe Hbe32.
  induction fuel as [|fuel IH]; intros b o n pos len w w' Hb Hbm Ho Hlen Hn H; [discriminate H|].
  cbn [write_loop] in H. destruct (Z.leb_spec b block_end) as [Hle|Hgt].
  2:{ injection H as <-. split; [reflexivity|]. intros b' Hb'. lia. }
  destruct (raw_read w b 16) as [[r ct] w1] eqn:Er.
  destruct (nv_failed r) eqn:Ef. { injection H as -> _. discriminate Ef. }
  apply nv_failed_false in Ef. subst r.
  rewrite (writeU32LittleEndian_tweak n b Hn) in H.
  destruct (raw_read_block _ _ _ _ Er) as [Ect Hsame].
  assert (Hct : is_block ct) by (rewrite Ect; apply stored_block).
  rewrite call_xexDecrypt_value in H by (try apply tweak_of_block; try exact Hct; lia).
  destruct (write_copy 256 _ data pos o len) as [[[pt' pos'] o'] len'] eqn:Ecp.
  pose proof (xex_dec_block tk ek (tweak_of b) 1 ct (tweak_of_block b) Hct) as Hpt.
  destruct (write_copy_spec data 256 _ pos o len (is_block_length _ Hpt)
              ltac:(lia) Hlen ltac:(lia)) as (pt2 & E & Hl2 & _ & Hb2).
  cbv zeta in E. rewrite E in Ecp. injection Ecp as -> <- <- <-.
  assert (Hpt' : is_block pt') by (split; [exact Hl2|apply Hb2; [apply Hpt|exact Hdata]]).
  rewrite call_xexEncrypt_value in H by (try apply tweak_of_block; try exact Hpt'; lia).
  destruct (raw_write _ _ b 16) as [r2 w2] eqn:Ew.
  destruct (nv_failed r2) eqn:Ef2. { injection H as -> _. discriminate Ef2. }
  apply nv_failed_false in Ef2. subst r2.
  destruct (raw_write_block _ _ _ _ (xex_enc_block _ _ _ _ _ (tweak_of_block b) Hpt') Ew)
    as [Estored Hframe].
  cbn [observe w_nv] in Hframe.
  destruct (Z.lt_ge_cases (b + 16) (2 ^ 32)) as [Hnw|Hw].
  - rewrite u32_small in H by lia.
    assert (Hbm' : (b + 16) mod 16 = 0) by (Z.div_mod_to_equations; lia).
    pose proof (fun h1 h3 h4 => IH _ _ _ _ _ _ _ h1 Hbm' h3 h4 (tweak_of_shaped b) H) as Hrest.
    specialize (Hrest ltac:(lia) ltac:(lia) ltac:(lia)).
    destruct Hrest as [Hout Hin].
    split.
    + intros x Hx. rewrite Hout by lia. rewrite Hframe by lia. apply Hsame.
    + intros b' Hb' Hm'. destruct (Z.eq_dec b' b) as [->|Hne].
      * assert (Hkeep : forall x, b <= x < b + 16 ->
                  nv_byte (w_nv w') x = nv_byte (w_nv w2) x) by (intros x Hx; apply Hout; lia).
        unfold sealed_block, plain_block.
        rewrite (map_block_ext _ _ b Hkeep), Estored.
        rewrite xex_dec_enc by (try apply tweak_of_block; exact Hpt'). reflexivity.
      * apply Hin; [|exact Hm']. Z.div_mod_to_equations. lia.
  - exfalso. apply (write_loop_wraps ks block_end data) in H; [exact H| |apply u32_range|].
    + pose proof (aligned_top b Hb Hbm).
      assert (b = 0xfffffff0) by (Z.div_mod_to_equations; lia). lia.
    + apply u32_aligned. Z.div_mod_to_equations; lia.
Qed.

Lemma plain_block_bytes (s1 s2 : nv_state) (b : Z) :
  b mod 16 = 0 ->
  (forall x, b <= x < b + 16 -> plain_byte nv_byte ks s1 x = plain_byte nv_byte ks s2 x) ->
  plain_block nv_byte ks s1 b = plain_block nv_byte ks s2 b.
Proof.
  intros Hb H. apply rd_ext.
  - rewrite !(is_block_length _ (plain_block_block ks _ _)). reflexivity.
  - rewrite (is_block_length _ (plain_block_block ks _ _)). intros j Hj.
    rewrite <- !plain_byte_in_block by lia. apply H. lia.
Qed.

Lemma sealed_block_rd (s : nv_state) (b x : Z) :
  sealed_block nv_byte ks s b -> b <= x < b + 16 ->
  nv_byte s x = rd (xex_enc tk ek (tweak_of b) 1 (plain_block nv_byte ks s b)) (x - b).
Proof.
  intros Hs Hx. rewrite <- Hs. rewrite rd_map_block by lia. f_equal. lia.
Qed.

End RawContent.

(** An error-free write of a range inside the address space: the range
    decrypts to the caller's bytes, everything else decrypts as before. *)
Lemma write_content {c : BlockCipher} {L : BlockCipherLaws c} {rs : RawStore}
    {nv_byte : nv_state -> Z -> Z} {SL : RawStoreLaws rs nv_byte}
    (fuel : nat) (ks : key_state) (data : list Z) (address len : Z) (w w' : world) :
  0 <= address < 2 ^ 32 -> 0 <= len < 256 -> address + len <= 2 ^ 32 ->
  Forall is_byte data ->
  encryptedNonVolatileWrite fuel ks data address len w = (Some NV_NO_ERROR, w') ->
  forall x,
    plain_byte nv_byte ks (w_nv w') x =
    if (address <=? x) && (x <? address + len)
    then rd data (x - address)
    else plain_byte nv_byte ks (w_nv w) x.
Proof.
  intros Ha Hlen Hend Hdata Hrun. unfold encryptedNonVolatileWrite in Hrun. cbv zeta in Hrun.
  destruct (adapter_blocks address len Ha) as (Eb & Eo & Hb & Hbm & Ho & Ee & Hem & He).
  cbv zeta in *.
  assert (He32 : Z.land (u32 (address + len - 1)) 0xfffffff0 < 2 ^ 32) by lia.
  pose proof (write_loop_content ks data _ Hdata Hem He32 _ _ _ _ _ _ _ _
                Hb Hbm Ho Hlen zeroed_n_shaped Hrun) as Hcontent.
  intros x. rewrite Hcontent, Ee, Eb, Eo.
  destruct (Z.eq_dec len 0) as [->|Hnz]; [split_cmp|].
  assert (Eu : u32 (address + len - 1) = address + len - 1) by (apply u32_small; lia).
  rewrite Eu.
  assert (address + len - 1 < address + len - 1 - (address + len - 1) mod 16 + 16)
    by (Z.div_mod_to_equations; lia).
  split_cmp. f_equal. lia.
Qed.

(** The block range of an error-free call. *)
Lemma write_success_range {c : BlockCipher} {rs : RawStore}
    (fuel : nat) (ks : key_state) (data : list Z) (address len : Z) (w w' : world) :
  0 <= address < 2 ^ 32 -> 0 <= len < 256 ->
  encryptedNonVolatileWrite fuel ks data address len w = (Some NV_NO_ERROR, w') ->
  let b0 := Z.land address 0xfffffff0 in
  let be := Z.land (u32 (address + len - 1)) 0xfffffff0 in
  (be + 16 <= b0 /\ (len = 0 \/ 2 ^ 32 < address + len)) \/
  (b0 <= be /\ address + len < 2 ^ 32 /\
   b0 = address - address mod 16 /\
   be = address + len - 1 - (address + len - 1) mod 16).
Proof.
  intros Ha Hlen Hrun b0 be.
  destruct (adapter_blocks address len Ha) as (Eb & Eo & Hb & Hbm & Ho & Ee & Hem & He).
  cbv zeta in *. fold b0 be in Eb, Hb, Hbm, Ee, Hem, He.
  assert (Htop : be < 0xfffffff0).
  { destruct (Z.lt_ge_cases be 0xfffffff0) as [Hlt|Hge]; [exact Hlt|]. exfalso.
    unfold encryptedNonVolatileWrite in Hrun. cbv zeta in Hrun. fold b0 be in Hrun.
    exact (write_loop_wraps ks be data Hge _ _ _ _ _ _ _ w' Hb Hbm Hrun). }
  destruct (Z.lt_ge_cases (address + len - 1) 0) as [Hn|Hn].
  - exfalso. assert (E : address + len - 1 = -1) by lia. rewrite E in Ee.
    change (u32 (-1)) with 4294967295 in Ee. change (4294967295 mod 16) with 15 in Ee. lia.
  - destruct (Z.lt_ge_cases (address + len - 1) (2 ^ 32)) as [Hs|Hs].
    + rewrite u32_small in Ee by lia.
      destruct (Z.le_gt_cases b0 be) as [Hle|Hgt].
      * right. repeat split; try assumption. Z.div_mod_to_equations. lia.
      * left. split; [Z.div_mod_to_equations; lia|]. left.
        Z.div_mod_to_equations. lia.
    + left. assert (E : u32 (address + len - 1) = address + len - 1 - 2 ^ 32).
      { unfold u32. symmetry. apply (Z.mod_unique _ _ 1); lia. }
      rewrite E in Ee. split; [Z.div_mod_to_equations; lia|]. right. lia.
Qed.

(** X16.  An error-free [encryptedNonVolatileWrite] changes no raw
    byte of a block that lies wholly below [address] or starts at or after
    [address + len]; for a [len] of 1 or more these are the blocks that do
    not overlap the range [[address, address + len)].  A write of length 0
    at an address that is not a multiple of 16 still reads, re-encrypts and
    writes back the block that holds [address]; when AES encryption also
    inverts decryption that block gets its old bytes, so that a write of
    length 0 changes no raw byte at all. *)
Theorem write_leaves_other_blocks {c : BlockCipher} {L : BlockCipherLaws c} {rs : RawStore}
    {nv_byte : nv_state -> Z -> Z} {SL : RawStoreLaws rs nv_byte}
    (fuel : nat) (ks : key_state) (data : list Z) (address len : Z) (w w' : world) :
  0 <= address < 2 ^ 32 -> 0 <= len < 256 -> Forall is_byte data ->
  encryptedNonVolatileWrite fuel ks data address len w = (Some NV_NO_ERROR, w') ->
  (forall x, x - x mod 16 + 16 <= address \/ address + len <= x - x mod 16 ->
     nv_byte (w_nv w') x = nv_byte (w_nv w) x) /\
  ((forall b k, is_block b -> aesEncrypt (aesDecrypt b k) k = b) -> len = 0 ->
   forall x, nv_byte (w_nv w') x = nv_byte (w_nv w) x).
Proof.
  intros Ha Hlen Hdata Hrun.
  pose proof (write_success_range fuel ks data address len w w' Ha Hlen Hrun) as Hrange.
  cbv zeta in Hrange.
  assert (Hplain : len = 0 -> forall x,
             plain_byte nv_byte ks (w_nv w') x = plain_byte nv_byte ks (w_nv w) x).
  { intros -> x.
    rewrite (write_content fuel ks data address 0 w w' Ha Hlen ltac:(lia) Hdata Hrun x).
    split_cmp. }
  unfold encryptedNonVolatileWrite in Hrun. cbv zeta in Hrun.
  destruct (adapter_blocks address len Ha) as (_ & _ & Hb & Hbm & Ho & _ & Hem & He).
  cbv zeta in *.
  assert (He32 : Z.land (u32 (address + len - 1)) 0xfffffff0 < 2 ^ 32) by lia.
  destruct (write_loop_raw ks data _ Hdata Hem He32 _ _ _ _ _ _ _ _
              Hb Hbm Ho Hlen zeroed_n_shaped Hrun) as [Hout Hin].
  split.
  - intros x Hx. apply Hout.
    destruct Hrange as [[Hempty _]|(Hle & Hs & Eb & Ee)]; [lia|].
    rewrite Eb, Ee. Z.div_mod_to_equations. lia.
  - intros Hinv Hz x. specialize (Hplain Hz).
    set (b := Z.land address 0xfffffff0) in *.
    set (be := Z.land (u32 (address + len - 1)) 0xfffffff0) in *.
    destruct (Z_lt_le_dec x b) as [Hlt|Hge]; [apply Hout; lia|].
    destruct (Z_lt_le_dec x (be + 16)) as [Hin'|Hbeyond]; [|apply Hout; lia].
    destruct Hrange as [[Hempty _]|(Hle & Hs & Eb & Ee)]; [lia|].
    assert (Ebe : be = b) by (rewrite Eb, Ee; subst len; Z.div_mod_to_equations; lia).
    rewrite Ebe in Hin'.
    pose proof (sealed_block_rd ks (w_nv w') b x (Hin b ltac:(lia) Hbm) ltac:(lia)) as E1.
    assert (Epb : plain_block nv_byte ks (w_nv w') b = plain_block nv_byte ks (w_nv w) b)
      by (apply plain_block_bytes; [exact Hbm|intros y _; apply Hplain]).
    rewrite Epb in E1. unfold plain_block in E1.
    rewrite (xex_enc_dec _ _ _ _ _ Hinv (tweak_of_block b) (stored_block (w_nv w) b)) in E1.
    rewrite rd_map_block in E1 by lia. rewrite E1. f_equal. lia.
Qed.

Lemma write_leaves_other_blocks_witness :
  let w0 := empty_world small_store ∅ in
  let run :=
    @encryptedNonVolatileWrite shift_cipher small_store 10 example_keys example_data 5 20 w0 in
  let empty_run :=
    @encryptedNonVolatileWrite shift_cipher small_store 10 example_keys example_data 37 0 w0 in
  ((0 <= 5 < 2 ^ 32 /\ 0 <= 20 < 256 /\ Forall is_byte example_data /\
    run = (Some NV_NO_ERROR, snd run)) /\
   (forall x, x - x mod 16 + 16 <= 5 \/ 5 + 20 <= x - x mod 16 ->
      array_byte (w_nv (snd run)) x = array_byte (w_nv w0) x) /\
   ((forall b k, is_block b -> @aesEncrypt shift_cipher (@aesDecrypt shift_cipher b k) k = b) ->
    20 = 0 -> forall x, array_byte (w_nv (snd run)) x = array_byte (w_nv w0) x)) /\
  ((0 <= 37 < 2 ^ 32 /\ 0 <= 0 < 256 /\ Forall is_byte example_data /\
    empty_run = (Some NV_NO_ERROR, snd empty_run) /\
    (forall b k, is_block b -> @aesEncrypt shift_cipher (@aesDecrypt shift_cipher b k) k = b)) /\
   forall x, array_byte (w_nv (snd empty_run)) x = array_byte (w_nv w0) x).
Proof.
  cbv zeta.
  assert (H1 : 0 <= 5 < 2 ^ 32) by lia.
  assert (H2 : 0 <= 20 < 256) by lia.
  pose (run := @encryptedNonVolatileWrite shift_cipher small_store 10 example_keys
                 example_data 5 20 (empty_world small_store ∅)).
  assert (H3 : run = (Some NV_NO_ERROR, snd run)) by (vm_compute; reflexivity).
  assert (G1 : 0 <= 37 < 2 ^ 32) by lia.
  assert (G2 : 0 <= 0 < 256) by lia.
  pose (empty_run := @encryptedNonVolatileWrite shift_cipher small_store 10 example_keys
                       example_data 37 0 (empty_world small_store ∅)).
  assert (G3 : empty_run = (Some NV_NO_ERROR, snd empty_run)) by (vm_compute; reflexivity).
  split.
  - split; [split; [exact H1|split; [exact H2|split; [exact example_data_bytes|exact H3]]]|].
    exact (@write_leaves_other_blocks shift_cipher shift_cipher_laws small_store array_byte
             (array_store_laws 0 1024) 10 example_keys example_data 5 20
             (empty_world small_store ∅) (snd run) H1 H2 example_data_bytes H3).
  - split; [split; [exact G1|split; [exact G2|split; [exact example_data_bytes|
            split; [exact G3|exact shift_cipher_encrypt_decrypt]]]]|].
    exact (proj2 (@write_leaves_other_blocks shift_cipher shift_cipher_laws small_store
                    array_byte (array_store_laws 0 1024) 10 example_keys example_data 37 0
                    (empty_world small_store ∅) (snd empty_run) G1 G2 example_data_bytes G3)
             shift_cipher_encrypt_decrypt eq_refl).
Defined.

Lemma rd_take_drop (l : list Z) (n : nat) (j : Z) :
  0 <= j < 16 -> rd (take 16 (drop n l)) j = rd l (Z.of_nat n + j).
Proof.
  intros Hj. unfold rd. rewrite lookup_take_lt by lia. rewrite lookup_drop.
  do 2 f_equal. lia.
Qed.

(** X17.  An error-free write of whole aligned blocks ([address] and
    [len] multiples of 16) leaves in each block of the raw store the XEX
    encryption of the caller's sixteen bytes for that block, under the tweak
    of the block address and the sequence number 1, whatever was stored
    before. *)
Theorem aligned_write_stores_ciphertext {c : BlockCipher} {L : BlockCipherLaws c}
    {rs : RawStore} {nv_byte : nv_state -> Z -> Z} {SL : RawStoreLaws rs nv_byte}
    (fuel : nat) (ks : key_state) (data : list Z) (address len : Z) (w w' : world) :
  0 <= address -> address mod 16 = 0 -> 0 <= len < 256 -> len mod 16 = 0 ->
  address + len <= 2 ^ 32 -> Forall is_byte data -> len <= Z.of_nat (length data) ->
  encryptedNonVolatileWrite fuel ks data address len w = (Some NV_NO_ERROR, w') ->
  forall i : nat, 16 * Z.of_nat i < len ->
    map (nv_byte (w_nv w')) (block_addrs (address + 16 * Z.of_nat i)) =
    xex_enc (nv_storage_tweak_key ks) (nv_storage_encrypt_key ks)
      (tweak_of (address + 16 * Z.of_nat i)) 1 (take 16 (drop (16 * i) data)).
Proof.
  intros Ha Ham Hlen Hlm Hend Hdata Hfit Hrun i Hi.
  assert (Ha32 : 0 <= address < 2 ^ 32) by lia.
  pose proof (write_content fuel ks data address len w w' Ha32 Hlen Hend Hdata Hrun) as Hplain.
  pose proof (write_success_range fuel ks data address len w w' Ha32 Hlen Hrun) as Hrange.
  cbv zeta in Hrange.
  unfold encryptedNonVolatileWrite in Hrun. cbv zeta in Hrun.
  destruct (adapter_blocks address len Ha32) as (_ & _ & Hb & Hbm & Ho & _ & Hem & He).
  cbv zeta in *.
  assert (He32 : Z.land (u32 (address + len - 1)) 0xfffffff0 < 2 ^ 32) by lia.
  destruct (write_loop_raw ks data _ Hdata Hem He32 _ _ _ _ _ _ _ _
              Hb Hbm Ho Hlen zeroed_n_shaped Hrun) as [_ Hin].
  destruct Hrange as [[_ [Hz|Hwrap]]|(Hle & Hs & Eb & Ee)]; [lia|lia|].
  set (b := address + 16 * Z.of_nat i).
  assert (Hbm' : b mod 16 = 0) by (subst b; Z.div_mod_to_equations; lia).
  assert (Hsealed : sealed_block nv_byte ks (w_nv w') b).
  { apply Hin; [|exact Hbm']. rewrite Eb, Ee. subst b. Z.div_mod_to_equations. lia. }
  unfold sealed_block in Hsealed. rewrite Hsealed. f_equal.
  assert (Hchunk : 16 * Z.of_nat i + 16 <= len) by (Z.div_mod_to_equations; lia).
  apply rd_ext.
  - rewrite (is_block_length _ (plain_block_block ks _ _)).
    rewrite length_take, length_drop. lia.
  - rewrite (is_block_length _ (plain_block_block ks _ _)). intros j Hj.
    rewrite <- plain_byte_in_block by lia. rewrite Hplain.
    rewrite rd_take_drop by lia. subst b. split_cmp; f_equal; lia.
Qed.

Lemma aligned_write_stores_ciphertext_witness :
  let w0 := empty_world small_store ∅ in
  let data := map Z.of_nat (seq 30 40) in
  let run :=
    @encryptedNonVolatileWrite shift_cipher small_store 10 example_keys data 48 32 w0 in
  (0 <= 48 /\ 48 mod 16 = 0 /\ 0 <= 32 < 256 /\ 32 mod 16 = 0 /\ 48 + 32 <= 2 ^ 32 /\
   Forall is_byte data /\ 32 <= Z.of_nat (length data) /\
   run = (Some NV_NO_ERROR, snd run)) /\
  forall i : nat, 16 * Z.of_nat i < 32 ->
    map (array_byte (w_nv (snd run))) (block_addrs (48 + 16 * Z.of_nat i)) =
    @xex_enc shift_cipher (nv_storage_tweak_key example_keys)
      (nv_storage_encrypt_key example_keys)
      (tweak_of (48 + 16 * Z.of_nat i)) 1 (take 16 (drop (16 * i) data)).
Proof.
  cbv zeta.
  pose (data := map Z.of_nat (seq 30 40)).
  pose (run := @encryptedNonVolatileWrite shift_cipher small_store 10 example_keys
                 data 48 32 (empty_world small_store ∅)).
  assert (H1 : 0 <= 48) by lia.
  assert (H2 : 48 mod 16 = 0) by reflexivity.
  assert (H3 : 0 <= 32 < 256) by lia.
  assert (H4 : 32 mod 16 = 0) by reflexivity.
  assert (H5 : 48 + 32 <= 2 ^ 32) by lia.
  assert (H6 : Forall is_byte data) by (cbn; repeat constructor; unfold is_byte; lia).
  assert (H7 : 32 <= Z.of_nat (length data)) by (cbn; lia).
  assert (H8 : run = (Some NV_NO_ERROR, snd run)) by (vm_compute; reflexivity).
  split; [repeat (split; [assumption|]); exact H8|].
  exact (@aligned_write_stores_ciphertext shift_cipher shift_cipher_laws small_store array_byte
           (array_store_laws 0 1024) 10 example_keys data 48 32
           (empty_world small_store ∅) (snd run) H1 H2 H3 H4 H5 H6 H7 H8).
Defined.

(** X18.  Writing the same bytes to the same place a second time leaves
    every raw byte of storage as the first write left it. *)
Theorem write_twice_same_store {c : BlockCipher} {L : BlockCipherLaws c}
    {rs : RawStore} {nv_byte : nv_state -> Z -> Z} {SL : RawStoreLaws rs nv_byte}
    (fuel1 fuel2 : nat) (ks : key_state) (data : list Z) (address len : Z)
    (w w1 w2 : world) :
  0 <= address < 2 ^ 32 -> 0 <= len < 256 -> Forall is_byte data ->
  encryptedNonVolatileWrite fuel1 ks data address len w = (Some NV_NO_ERROR, w1) ->
  encryptedNonVolatileWrite fuel2 ks data address len w1 = (Some NV_NO_ERROR, w2) ->
  forall x, nv_byte (w_nv w2) x = nv_byte (w_nv w1) x.
Proof.
  intros Ha Hlen Hdata Hrun1 Hrun2 x.
  pose proof (write_success_range fuel1 ks data address len w w1 Ha Hlen Hrun1) as Hrange.
  cbv zeta in Hrange.
  unfold encryptedNonVolatileWrite in Hrun1, Hrun2. cbv zeta in Hrun1, Hrun2.
  destruct (adapter_blocks address len Ha) as (_ & _ & Hb & Hbm & Ho & _ & Hem & He).
  cbv zeta in *.
  assert (He32 : Z.land (u32 (address + len - 1)) 0xfffffff0 < 2 ^ 32) by lia.
  destruct (write_loop_raw ks data _ Hdata Hem He32 _ _ _ _ _ _ _ _
              Hb Hbm Ho Hlen zeroed_n_shaped Hrun1) as [_ Hin1].
  destruct (write_loop_raw ks data _ Hdata Hem He32 _ _ _ _ _ _ _ _
              Hb Hbm Ho Hlen zeroed_n_shaped Hrun2) as [Hout2 Hin2].
  pose proof (write_loop_content ks data _ Hdata Hem He32 _ _ _ _ _ _ _ _
                Hb Hbm Ho Hlen zeroed_n_shaped Hrun1) as Hc1.
  pose proof (write_loop_content ks data _ Hdata Hem He32 _ _ _ _ _ _ _ _
                Hb Hbm Ho Hlen zeroed_n_shaped Hrun2) as Hc2.
  set (b0 := Z.land address 0xfffffff0) in *.
  set (be := Z.land (u32 (address + len - 1)) 0xfffffff0) in *.
  destruct (Z.lt_ge_cases x b0) as [Hlo|Hlo]; [apply Hout2; lia|].
  destruct (Z.lt_ge_cases x (be + 16)) as [Hhi|Hhi]; [|apply Hout2; lia].
  set (b := x - x mod 16).
  assert (Hbx : b mod 16 = 0) by apply block_of_aligned.
  assert (Hbr : b0 <= b <= be) by (subst b; Z.div_mod_to_equations; lia).
  assert (Hxb : b <= x < b + 16) by (subst b; Z.div_mod_to_equations; lia).
  pose proof (sealed_block_rd ks _ b x (Hin2 b Hbr Hbx) Hxb) as E2.
  pose proof (sealed_block_rd ks _ b x (Hin1 b Hbr Hbx) Hxb) as E1.
  assert (Epb : plain_block nv_byte ks (w_nv w2) b = plain_block nv_byte ks (w_nv w1) b).
  { apply plain_block_bytes; [exact Hbx|].
    intros y Hy. rewrite Hc2. rewrite (Hc1 y).
    destruct ((b0 + u8 (Z.land address 15) <=? y) && (y <? b0 + u8 (Z.land address 15) + len)
              && (y <? be + 16)); reflexivity. }
  rewrite Epb in E2. exact (eq_trans E2 (eq_sym E1)).
Qed.

Lemma write_twice_same_store_witness :
  let w0 := empty_world small_store ∅ in
  let run1 :=
    @encryptedNonVolatileWrite shift_cipher small_store 10 example_keys example_data 5 20 w0 in
  let run2 :=
    @encryptedNonVolatileWrite shift_cipher small_store 10 example_keys example_data 5 20
      (snd run1) in
  (0 <= 5 < 2 ^ 32 /\ 0 <= 20 < 256 /\ Forall is_byte example_data /\
   run1 = (Some NV_NO_ERROR, snd run1) /\ run2 = (Some NV_NO_ERROR, snd run2)) /\
  forall x, array_byte (w_nv (snd run2)) x = array_byte (w_nv (snd run1)) x.
Proof.
  cbv zeta.
  pose (run1 := @encryptedNonVolatileWrite shift_cipher small_store 10 example_keys
                  example_data 5 20 (empty_world small_store ∅)).
  pose (run2 := @encryptedNonVolatileWrite shift_cipher small_store 10 example_keys
                  example_data 5 20 (snd run1)).
  assert (H1 : 0 <= 5 < 2 ^ 32) by lia.
  assert (H2 : 0 <= 20 < 256) by lia.
  assert (H3 : run1 = (Some NV_NO_ERROR, snd run1)) by (vm_compute; reflexivity).
  assert (H4 : run2 = (Some NV_NO_ERROR, snd run2)) by (vm_compute; reflexivity).
  split; [split; [exact H1|split; [exact H2|split; [exact example_data_bytes|
          split; [exact H3|exact H4]]]]|].
  exact (@write_twice_same_store shift_cipher shift_cipher_laws small_store array_byte
           (array_store_laws 0 1024) 10 10 example_keys example_data 5 20
           (empty_world small_store ∅) (snd run1) (snd run2) H1 H2 example_data_bytes H3 H4).
Defined.

(** X19.  Of two error-free writes the later one wins where the ranges
    overlap: reading the range of the first write afterwards returns the
    bytes of the second write on the overlap and the bytes of the first
    write elsewhere. *)
Theorem last_write_wins {c : BlockCipher} {L : BlockCipherLaws c}
    {rs : RawStore} {nv_byte : nv_state -> Z -> Z} {SL : RawStoreLaws rs nv_byte}
    (fuel1 fuel2 fuel3 : nat) (ks : key_state) (B1 B2 buf : list Z) (a1 l1 a2 l2 : Z)
    (w w1 w2 : world) (buf' : list Z) (w3 : world) :
  0 <= a1 < 2 ^ 32 -> 0 <= l1 < 256 -> a1 + l1 <= 2 ^ 32 ->
  0 <= a2 < 2 ^ 32 -> 0 <= l2 < 256 -> a2 + l2 <= 2 ^ 32 ->
  Forall is_byte B1 -> Forall is_byte B2 -> l1 <= Z.of_nat (length buf) ->
  encryptedNonVolatileWrite fuel1 ks B1 a1 l1 w = (Some NV_NO_ERROR, w1) ->
  encryptedNonVolatileWrite fuel2 ks B2 a2 l2 w1 = (Some NV_NO_ERROR, w2) ->
  encryptedNonVolatileRead fuel3 ks buf a1 l1 w2 = (Some NV_NO_ERROR, buf', w3) ->
  forall j, 0 <= j < l1 ->
    rd buf' j =
    if (a2 <=? a1 + j) && (a1 + j <? a2 + l2) then rd B2 (a1 + j - a2) else rd B1 j.
Proof.
  intros Ha1 Hl1 He1 Ha2 Hl2 He2 HB1 HB2 Hfit Hw1 Hw2 Hr j Hj.
  destruct (read_content fuel3 ks buf a1 l1 w2 buf' w3 Ha1 Hl1 He1 Hfit Hr) as (_ & _ & Hrd).
  rewrite (Hrd j ltac:(lia)). destruct (Z.ltb_spec j l1) as [_|Hge]; [|lia].
  rewrite (write_content fuel2 ks B2 a2 l2 w1 w2 Ha2 Hl2 He2 HB2 Hw2).
  rewrite (write_content fuel1 ks B1 a1 l1 w w1 Ha1 Hl1 He1 HB1 Hw1).
  split_cmp; f_equal; lia.
Qed.

Lemma last_write_wins_witness :
  let w0 := empty_world small_store ∅ in
  let B2 := replicate 8 77 in
  let run1 :=
    @encryptedNonVolatileWrite shift_cipher small_store 10 example_keys example_data 5 20 w0 in
  let run2 :=
    @encryptedNonVolatileWrite shift_cipher small_store 10 example_keys B2 14 8 (snd run1) in
  let run3 :=
    @encryptedNonVolatileRead shift_cipher small_store 10 example_keys (replicate 20 0) 5 20
      (snd run2) in
  (0 <= 5 < 2 ^ 32 /\ 0 <= 20 < 256 /\ 5 + 20 <= 2 ^ 32 /\
   0 <= 14 < 2 ^ 32 /\ 0 <= 8 < 256 /\ 14 + 8 <= 2 ^ 32 /\
   Forall is_byte example_data /\ Forall is_byte B2 /\
   20 <= Z.of_nat (length (replicate 20 0)) /\
   run1 = (Some NV_NO_ERROR, snd run1) /\ run2 = (Some NV_NO_ERROR, snd run2) /\
   run3 = (Some NV_NO_ERROR, snd (fst run3), snd run3)) /\
  forall j, 0 <= j < 20 ->
    rd (snd (fst run3)) j =
    if (14 <=? 5 + j) && (5 + j <? 14 + 8) then rd B2 (5 + j - 14) else rd example_data j.
Proof.
  cbv zeta.
  pose (B2 := replicate 8 77).
  pose (run1 := @encryptedNonVolatileWrite shift_cipher small_store 10 example_keys
                  example_data 5 20 (empty_world small_store ∅)).
  pose (run2 := @encryptedNonVolatileWrite shift_cipher small_store 10 example_keys
                  B2 14 8 (snd run1)).
  pose (run3 := @encryptedNonVolatileRead shift_cipher small_store 10 example_keys
                  (replicate 20 0) 5 20 (snd run2)).
  assert (H1 : 0 <= 5 < 2 ^ 32) by lia.
  assert (H2 : 0 <= 20 < 256) by lia.
  assert (H3 : 5 + 20 <= 2 ^ 32) by lia.
  assert (H4 : 0 <= 14 < 2 ^ 32) by lia.
  assert (H5 : 0 <= 8 < 256) by lia.
  assert (H6 : 14 + 8 <= 2 ^ 32) by lia.
  assert (H7 : Forall is_byte B2) by (cbn; repeat constructor; unfold is_byte; lia).
  assert (H8 : 20 <= Z.of_nat (length (replicate 20 0))) by (cbn; lia).
  assert (H9 : run1 = (Some NV_NO_ERROR, snd run1)) by (vm_compute; reflexivity).
  assert (H10 : run2 = (Some NV_NO_ERROR, snd run2)) by (vm_compute; reflexivity).
  assert (H11 : run3 = (Some NV_NO_ERROR, snd (fst run3), snd run3))
    by (vm_compute; reflexivity).
  split.
  { split; [exact H1|]. split; [exact H2|]. split; [exact H3|]. split; [exact H4|].
    split; [exact H5|]. split; [exact H6|]. split; [exact example_data_bytes|].
    split; [exact H7|]. split; [exact H8|]. split; [exact H9|]. split; [exact H10|exact H11]. }
  exact (@last_write_wins shift_cipher shift_cipher_laws small_store array_byte
           (array_store_laws 0 1024) 10 10 10 example_keys example_data B2 (replicate 20 0)
           5 20 14 8 (empty_world small_store ∅) (snd run1) (snd run2) (snd (fst run3))
           (snd run3) H1 H2 H3 H4 H5 H6 example_data_bytes H7 H8 H9 H10 H11).
Defined.

(** ** The bytes a write takes from its caller *)

Lemma write_copy_ext (data data' : list Z) :
  forall (fuel : nat) (pt : list Z) (pos o len : Z),
    0 <= len < 256 ->
    (forall j, pos <= j < pos + len -> rd data j = rd data' j) ->
    write_copy fuel pt data pos o len = write_copy fuel pt data' pos o len /\
    forall pt' pos' o' len',
      write_copy fuel pt data pos o len = (pt', pos', o', len') ->
      0 <= len' < 256 /\ pos <= pos' /\ pos' + len' = pos + len.
Proof.
  induction fuel as [|fuel IH]; intros pt pos o len Hlen Hext.
  { split; [reflexivity|]. intros pt' pos' o' len' [= <- <- <- <-]. lia. }
  cbn [write_copy].
  destruct (negb (len =? 0) && (o <? 16)) eqn:Ec.
  2:{ split; [reflexivity|]. intros pt' pos' o' len' [= <- <- <- <-]. lia. }
  assert (Hnz : len <> 0) by (destruct (Z.eqb_spec len 0); [discriminate Ec|assumption]).
  assert (Eu : u8 (len - 1) = len - 1) by (apply u8_id; unfold is_byte; lia).
  rewrite Eu. rewrite <- (Hext pos) by lia.
  destruct (IH (wr pt o (rd data pos)) (pos + 1) (u8 (o + 1)) (len - 1) ltac:(lia))
    as [E Hprog].
  { intros j Hj. apply Hext. lia. }
  split; [exact E|].
  intros pt' pos' o' len' Hrun. specialize (Hprog _ _ _ _ Hrun). lia.
Qed.

Lemma write_loop_ext {c : BlockCipher} {rs : RawStore} (ks : key_state)
    (block_end : Z) (data data' : list Z) :
  forall (fuel : nat) (b o : Z) (n : list Z) (pos len : Z) (w : world),
    0 <= len < 256 ->
    (forall j, pos <= j < pos + len -> rd data j = rd data' j) ->
    write_loop fuel ks b block_end o n data pos len w =
    write_loop fuel ks b block_end o n data' pos len w.
Proof.
  induction fuel as [|fuel IH]; intros b o n pos len w Hlen Hext; [reflexivity|].
  cbn [write_loop]. destruct (b <=? block_end); [|reflexivity].
  destruct (raw_read w b 16) as [[r ct] w1].
  destruct (nv_failed r); [reflexivity|].
  destruct (call_xexDecrypt _ _ _ _ _) as [pt w2].
  destruct (write_copy_ext data data' 256 pt pos o len Hlen Hext) as [E Hprog].
  rewrite <- E.
  destruct (write_copy 256 pt data pos o len) as [[[pt' pos'] o'] len'] eqn:Ecp.
  destruct (Hprog _ _ _ _ eq_refl) as (Hlen' & Hpos' & Hsum).
  destruct (call_xexEncrypt _ _ _ _ _) as [ct' w3].
  destruct (raw_write w3 ct' b 16) as [r2 w4].
  destruct (nv_failed r2); [reflexivity|].
  apply IH; [exact Hlen'|]. intros j Hj. apply Hext. lia.
Qed.

(** X20.  [encryptedNonVolatileWrite] takes only the first [len] bytes
    of the caller's array: two arrays that agree on them give the same
    result and the same world, in every run. *)
Theorem write_reads_len_bytes {c : BlockCipher} {rs : RawStore}
    (fuel : nat) (ks : key_state) (data data' : list Z) (address len : Z) (w : world) :
  0 <= len < 256 ->
  (forall j, 0 <= j < len -> rd data j = rd data' j) ->
  encryptedNonVolatileWrite fuel ks data address len w =
  encryptedNonVolatileWrite fuel ks data' address len w.
Proof.
  intros Hlen Hext. unfold encryptedNonVolatileWrite. cbv zeta.
  apply write_loop_ext; [exact Hlen|]. intros j Hj. apply Hext. lia.
Qed.

Lemma write_reads_len_bytes_witness :
  let w0 := empty_world small_store ∅ in
  (0 <= 20 < 256 /\
   (forall j, 0 <= j < 20 -> rd example_data j = rd (example_data ++ [1; 2; 3]) j)) /\
  @encryptedNonVolatileWrite shift_cipher small_store 10 example_keys example_data 5 20 w0 =
  @encryptedNonVolatileWrite shift_cipher small_store 10 example_keys
    (example_data ++ [1; 2; 3]) 5 20 w0.
Proof.
  cbv zeta.
  assert (H1 : 0 <= 20 < 256) by lia.
  assert (H2 : forall j, 0 <= j < 20 -> rd example_data j = rd (example_data ++ [1; 2; 3]) j).
  { intros j Hj. unfold rd. rewrite lookup_app_l; [reflexivity|]. cbn. lia. }
  split; [split; [exact H1|exact H2]|].
  exact (@write_reads_len_bytes shift_cipher small_store 10 example_keys example_data
           (example_data ++ [1; 2; 3]) 5 20 (empty_world small_store ∅) H1 H2).
Defined.

(** ** The test harness: input streams *)

Lemma is_space_byte (x : Z) :
  ((x =? 32) || (x =? 9) || (x =? 10) || (x =? 13)) = is_space x.
Proof. reflexivity. Qed.

Lemma skipWhiteSpace_loop_spec (rest : list Z) :
  forall fuel : nat,
    (length rest < fuel)%nat ->
    skipWhiteSpace_loop fuel {| f_rest := rest; f_eof := false |} =
    Some (match skip_spaces rest with
          | [] => (EOF, {| f_rest := []; f_eof := true |})
          | x :: rest' => (x, {| f_rest := rest'; f_eof := false |})
          end).
Proof.
  induction rest as [|x rest IH]; intros fuel Hf.
  - destruct fuel as [|fuel]; [cbn in Hf; lia|]. reflexivity.
  - destruct fuel as [|fuel]; [cbn in Hf; lia|].
    cbn [skipWhiteSpace_loop fgetc f_eof f_rest skip_spaces].
    rewrite is_space_byte. destruct (is_space x) eqn:Es; [|reflexivity].
    apply IH. cbn in Hf. lia.
Qed.

(** X21.  On a stream of bytes [skipWhiteSpace] returns (the fuel only has
    to exceed the number of unread bytes) and leaves the stream at the first
    byte that is not a space, a tab, a newline or a carriage return: it
    consumes the leading
    white space and nothing else.  When only white space was left it returns
    with the end-of-file indicator set, [ungetc] of [EOF] doing nothing; a
    stream whose indicator is already set is left as it is. *)
Theorem skipWhiteSpace_spec (fuel : nat) (f : FILE) :
  Forall is_byte (f_rest f) -> (length (f_rest f) < fuel)%nat ->
  skipWhiteSpace fuel f =
  Some (if f_eof f then {| f_rest := f_rest f; f_eof := true |}
        else {| f_rest := skip_spaces (f_rest f);
                f_eof := match skip_spaces (f_rest f) with [] => true | _ => false end |}).
Proof.
  intros Hb Hf. destruct f as [rest eof]. cbn [f_rest f_eof] in *.
  destruct eof.
  - destruct fuel as [|fuel]; [lia|]. reflexivity.
  - unfold skipWhiteSpace. rewrite skipWhiteSpace_loop_spec by exact Hf.
    assert (Hs : Forall is_byte (skip_spaces rest)).
    { clear Hf. induction Hb as [|x l Hx Hl IH]; [constructor|].
      cbn [skip_spaces]. destruct (is_space x); [exact IH|constructor; assumption]. }
    destruct (skip_spaces rest) as [|x rest'] eqn:E; [reflexivity|].
    apply Forall_cons_1 in Hs. destruct Hs as [Hx _].
    unfold ungetc, EOF. destruct (Z.eqb_spec x (-1)) as [->|_].
    + unfold is_byte in Hx. lia.
    + rewrite (u8_id x Hx). reflexivity.
Qed.

Lemma skipWhiteSpace_spec_witness :
  let f := {| f_rest := [32; 9; 10; 13; 32; 67; 79; 32; 10]; f_eof := false |} in
  (Forall is_byte (f_rest f) /\ (length (f_rest f) < 10)%nat) /\
  skipWhiteSpace 10 f = Some {| f_rest := [67; 79; 32; 10]; f_eof := false |}.
Proof.
  cbv zeta.
  assert (H1 : Forall is_byte [32; 9; 10; 13; 32; 67; 79; 32; 10])
    by (repeat constructor; unfold is_byte; lia).
  assert (H2 : (length [32; 9; 10; 13; 32; 67; 79; 32; 10] < 10)%nat) by (cbn; lia).
  split; [split; [exact H1|exact H2]|].
  exact (skipWhiteSpace_spec 10 {| f_rest := [32; 9; 10; 13; 32; 67; 79; 32; 10];
                                   f_eof := false |} H1 H2).
Defined.

Lemma skipLine_found (l1 l2 : list Z) :
  Forall (fun x => x <> 10) l1 ->
  forall fuel : nat,
    (length l1 < fuel)%nat ->
    skipLine fuel {| f_rest := l1 ++ 10 :: l2; f_eof := false |} =
    Some {| f_rest := l2; f_eof := false |}.
Proof.
  induction 1 as [|x l1 Hx Hl IH]; intros fuel Hf.
  - destruct fuel as [|fuel]; [cbn in Hf; lia|]. reflexivity.
  - destruct fuel as [|fuel]; [cbn in Hf; lia|].
    cbn [skipLine fgetc f_eof f_rest app].
    destruct (Z.eqb_spec x 10) as [E|_]; [contradiction|]. cbn [negb].
    apply IH. cbn in Hf. lia.
Qed.

Lemma skipLine_at_eof (rest : list Z) :
  forall fuel : nat, skipLine fuel {| f_rest := rest; f_eof := true |} = None.
Proof.
  induction fuel as [|fuel IH]; [reflexivity|].
  cbn [skipLine fgetc f_eof f_rest]. exact IH.
Qed.

Lemma skipLine_missing (rest : list Z) :
  Forall (fun x => x <> 10) rest ->
  forall (eof : bool) (fuel : nat), skipLine fuel {| f_rest := rest; f_eof := eof |} = None.
Proof.
  induction 1 as [|x rest Hx Hl IH]; intros eof fuel.
  - destruct fuel as [|fuel]; [reflexivity|].
    cbn [skipLine fgetc f_eof f_rest]. destruct eof; apply skipLine_at_eof.
  - destruct eof; [apply skipLine_at_eof|].
    destruct fuel as [|fuel]; [reflexivity|].
    cbn [skipLine fgetc f_eof f_rest].
    destruct (Z.eqb_spec x 10) as [E|_]; [contradiction|]. cbn [negb]. apply IH.
Qed.

(** X22.  [skipLine] consumes the bytes up to and including the first
    newline and returns there; on a stream without a newline it never
    returns, whatever the end-of-file indicator is and however long the loop
    is followed: [fgetc] keeps answering [EOF], which is not a newline. *)
Theorem skipLine_spec (l1 l2 : list Z) (fuel : nat) :
  Forall (fun x => x <> 10) l1 ->
  ((length l1 < fuel)%nat ->
   skipLine fuel {| f_rest := l1 ++ 10 :: l2; f_eof := false |} =
   Some {| f_rest := l2; f_eof := false |}) /\
  (forall eof : bool, skipLine fuel {| f_rest := l1; f_eof := eof |} = None).
Proof.
  intros Hl. split.
  - intros Hf. apply skipLine_found; assumption.
  - intros eof. apply skipLine_missing. exact Hl.
Qed.

Lemma skipLine_spec_witness :
  Forall (fun x => x <> 10) [67; 79; 85] /\
  (((length [67; 79; 85] < 4)%nat ->
    skipLine 4 {| f_rest := [67; 79; 85] ++ 10 :: [78; 84]; f_eof := false |} =
    Some {| f_rest := [78; 84]; f_eof := false |}) /\
   (forall eof : bool, skipLine 4 {| f_rest := [67; 79; 85]; f_eof := eof |} = None)).
Proof.
  assert (H : Forall (fun x => x <> 10) [67; 79; 85]) by (repeat constructor; lia).
  split; [exact H|]. exact (skipLine_spec [67; 79; 85] [78; 84] 4 H).
Defined.

(** ** The test harness: loops and library functions *)

(** A counted loop whose body keeps an invariant runs to its bound. *)
Lemma for_int_rule {St : Type} (P : Z -> St -> Prop) (body : Z -> St -> option St)
    (bound step : Z) :
  0 < step ->
  (forall i s, P i s -> i < bound -> exists s', body i s = Some s' /\ P (i + step) s') ->
  forall (fuel : nat) (i : Z) (s : St),
    P i s -> i <= bound -> (bound - i) mod step = 0 -> (bound - i) / step < Z.of_nat fuel ->
    exists s', for_int fuel i bound step body s = Some s' /\ P bound s'.
Proof.
  intros Hstep Hbody. induction fuel as [|fuel IH]; intros i s HP Hle Hmod Hfuel.
  { exfalso. assert (0 <= (bound - i) / step) by (apply Z.div_pos; lia). lia. }
  cbn [for_int]. destruct (Z.ltb_spec i bound) as [Hlt|Hge].
  - destruct (Hbody i s HP Hlt) as (s' & -> & HP').
    assert (Hq : bound - i = step * ((bound - i) / step))
      by (pose proof (Z.div_mod (bound - i) step ltac:(lia)); lia).
    assert (Hq1 : 1 <= (bound - i) / step) by nia.
    assert (Hd : (bound - (i + step)) / step = (bound - i) / step - 1).
    { symmetry. apply (Z.div_unique _ _ _ 0); lia. }
    apply IH; [exact HP'|nia| |lia].
    replace (bound - (i + step)) with (bound - i + (-1) * step) by lia.
    rewrite Z.mod_add by lia. exact Hmod.
  - assert (i = bound) by lia. subst i. eauto.
Qed.

Lemma rd_drop (l : list Z) (n : nat) (j : Z) : 0 <= j -> rd (drop n l) j = rd l (Z.of_nat n + j).
Proof.
  intros Hj. unfold rd. rewrite lookup_drop. do 2 f_equal. lia.
Qed.

Lemma rd_tail (l : list Z) (j : Z) : 0 <= j -> rd (tail l) j = rd l (j + 1).
Proof.
  intros Hj. unfold rd. replace (Z.to_nat (j + 1)) with (S (Z.to_nat j)) by lia.
  destruct l; reflexivity.
Qed.

(** [memcmp] gives zero exactly when the first [n] bytes agree. *)
Lemma memcmp_zero (n : nat) :
  forall s1 s2 : list Z,
    memcmp s1 s2 n = 0 <-> forall j, 0 <= j < Z.of_nat n -> rd s1 j = rd s2 j.
Proof.
  induction n as [|n IH]; intros s1 s2.
  { cbn [memcmp]. split; [intros _ j Hj; lia|reflexivity]. }
  cbn [memcmp]. destruct (Z.eqb_spec (rd s1 0 - rd s2 0) 0) as [E|N].
  - rewrite IH. split.
    + intros H j Hj. destruct (Z.eq_dec j 0) as [->|Hnz]; [lia|].
      specialize (H (j - 1) ltac:(lia)). rewrite !rd_tail in H by lia.
      replace (j - 1 + 1) with j in H by lia. exact H.
    + intros H j Hj. rewrite !rd_tail by lia. apply H. lia.
  - split; [intros E; contradiction|].
    intros H. specialize (H 0 ltac:(lia)). lia.
Qed.

(** [memcpy] copies [n] bytes to [dest + offset] and leaves the others. *)
Lemma memcpy_spec (src : list Z) (offset : Z) (n : nat) :
  forall dest : list Z,
    0 <= offset -> offset + Z.of_nat n <= Z.of_nat (length dest) ->
    let r := fold_left (fun d i => wr d (offset + Z.of_nat i) (rd src (Z.of_nat i)))
               (seq 0 n) dest in
    length r = length dest /\
    (Forall is_byte dest -> Forall is_byte src -> Forall is_byte r) /\
    forall x, 0 <= x ->
      rd r x = if (offset <=? x) && (x <? offset + Z.of_nat n) then rd src (x - offset)
               else rd dest x.
Proof.
  induction n as [|n IH]; intros dest Ho Hfit.
  { cbn. split; [reflexivity|]. split; [auto|]. intros x Hx. split_cmp. }
  rewrite seq_S, fold_left_app. cbn [fold_left Nat.add]. cbv zeta.
  destruct (IH dest Ho ltac:(lia)) as (Hl & Hb & Hrd). cbv zeta in Hl, Hb, Hrd.
  split; [rewrite length_wr; exact Hl|]. split.
  - intros Hd Hs. apply wr_bytes; [apply Hb; assumption|apply rd_byte, Hs].
  - intros x Hx. destruct (Z.eq_dec x (offset + Z.of_nat n)) as [->|Hne].
    + rewrite rd_wr_eq by lia. split_cmp. f_equal. lia.
    + rewrite rd_wr_ne by lia. rewrite Hrd by lia. split_cmp.
Qed.

Lemma Forall_rd (l : list Z) :
  (forall j, 0 <= j < Z.of_nat (length l) -> is_byte (rd l j)) -> Forall is_byte l.
Proof.
  intros H. apply Forall_lookup_2. intros i x Hi.
  specialize (H (Z.of_nat i)). unfold rd in H. rewrite Nat2Z.id, Hi in H. apply H.
  apply lookup_lt_Some in Hi. lia.
Qed.

(** ** The test harness: calls that succeed *)

Lemma raw_accepts_within (rs : RawStore) (lo hi lo' hi' : Z) :
  lo <= lo' -> hi' <= hi -> raw_accepts rs lo hi -> raw_accepts rs lo' hi'.
Proof. intros Hl Hh Ha s a Hin Hm. apply Ha; [lia|exact Hm]. Qed.

Section Accepted.
Context {c : BlockCipher} {rs : RawStore}.

(** On a driver that accepts the blocks up to [top], a call whose range
    ends at or below [top + 16] returns [NV_NO_ERROR], unless it is the
    empty range at address 0. *)
Lemma write_accepted (fuel : nat) (ks : key_state) (data : list Z) (address len top : Z)
    (w : world) :
  0 <= address -> 0 <= len < 256 -> address + len <= top + 16 -> top < 0xfffffff0 ->
  top mod 16 = 0 ->
  ~ (address = 0 /\ len = 0) -> raw_accepts rs 0 top -> (17 < fuel)%nat ->
  exists w', encryptedNonVolatileWrite fuel ks data address len w = (Some NV_NO_ERROR, w').
Proof.
  intros Ha Hlen Hend Htop Htm Hnz Hacc Hfuel.
  assert (Ha32 : 0 <= address < 2 ^ 32) by lia.
  destruct (adapter_blocks address len Ha32) as (Eb & Eo & Hb & Hbm & Ho & Ee & Hem & He).
  cbv zeta in *.
  assert (Eu : u32 (address + len - 1) = address + len - 1) by (apply u32_small; lia).
  assert (Hbe : Z.land (u32 (address + len - 1)) 0xfffffff0 <= top).
  { rewrite Ee, Eu. Z.div_mod_to_equations. lia. }
  pose proof (adapter_block_count address len Ha32 Hlen ltac:(lia)) as Hcount.
  unfold encryptedNonVolatileWrite. cbv zeta.
  apply write_loop_returns; [lia|lia|exact Hbm| |lia].
  apply (raw_accepts_within rs 0 top); [lia|lia|exact Hacc].
Qed.

Lemma read_accepted (fuel : nat) (ks : key_state) (data : list Z) (address len top : Z)
    (w : world) :
  0 <= address -> 0 <= len < 256 -> address + len <= top + 16 -> top < 0xfffffff0 ->
  top mod 16 = 0 ->
  ~ (address = 0 /\ len = 0) -> raw_accepts rs 0 top -> (17 < fuel)%nat ->
  exists data' w',
    encryptedNonVolatileRead fuel ks data address len w = (Some NV_NO_ERROR, data', w').
Proof.
  intros Ha Hlen Hend Htop Htm Hnz Hacc Hfuel.
  assert (Ha32 : 0 <= address < 2 ^ 32) by lia.
  destruct (adapter_blocks address len Ha32) as (Eb & Eo & Hb & Hbm & Ho & Ee & Hem & He).
  cbv zeta in *.
  assert (Eu : u32 (address + len - 1) = address + len - 1) by (apply u32_small; lia).
  assert (Hbe : Z.land (u32 (address + len - 1)) 0xfffffff0 <= top).
  { rewrite Ee, Eu. Z.div_mod_to_equations. lia. }
  pose proof (adapter_block_count address len Ha32 Hlen ltac:(lia)) as Hcount.
  unfold encryptedNonVolatileRead. cbv zeta.
  apply read_loop_returns; [lia|lia|exact Hbm| |lia].
  apply (raw_accepts_within rs 0 top); [lia|lia|exact Hacc].
Qed.

End Accepted.

(** ** The test harness: the read/write test *)

Section Harness.
Context {c : BlockCipher} {L : BlockCipherLaws c} {rs : RawStore}
        {nv_byte : nv_state -> Z -> Z} {SL : RawStoreLaws rs nv_byte}.
Variable fuel : nat.
Hypothesis Hfuel : NUM_RW_TESTS < Z.of_nat fuel.
Hypothesis Hacc : raw_accepts rs 0 1008.

Lemma plain_byte_is_byte (ks : key_state) (s : nv_state) (x : Z) :
  is_byte (plain_byte nv_byte ks s x).
Proof. apply is_block_rd, plain_block_block. Qed.

(** A read inside the first [MAX_ADDRESS] bytes. *)
Lemma read_in_range (ks : key_state) (buf : list Z) (address len : Z) (w : world) :
  0 <= address -> 0 <= len < 256 -> address + len <= MAX_ADDRESS ->
  ~ (address = 0 /\ len = 0) -> length buf = 256%nat -> Forall is_byte buf ->
  exists buf' w',
    encryptedNonVolatileRead fuel ks buf address len w = (Some NV_NO_ERROR, buf', w') /\
    (forall x, nv_byte (w_nv w') x = nv_byte (w_nv w) x) /\
    length buf' = 256%nat /\ Forall is_byte buf' /\
    forall j, 0 <= j < len -> rd buf' j = plain_byte nv_byte ks (w_nv w) (address + j).
Proof.
  intros Ha Hlen Hend Hnz Hl Hb. unfold MAX_ADDRESS, NUM_RW_TESTS in *.
  destruct (read_accepted fuel ks buf address len 1008 w Ha Hlen ltac:(lia) ltac:(lia)
              eq_refl Hnz Hacc ltac:(lia)) as (buf' & w' & Hrun).
  exists buf', w'. split; [exact Hrun|].
  destruct (read_content fuel ks buf address len w buf' w' ltac:(lia) Hlen ltac:(lia)
              ltac:(lia) Hrun) as (Hnv & Hl' & Hrd).
  split; [exact Hnv|]. split; [lia|]. split.
  - apply Forall_rd. intros j Hj. rewrite Hrd by lia.
    destruct (j <? len); [apply plain_byte_is_byte|apply rd_byte, Hb].
  - intros j Hj. rewrite Hrd by lia. destruct (Z.ltb_spec j len); [reflexivity|lia].
Qed.

(** A write inside the first [MAX_ADDRESS] bytes. *)
Lemma write_in_range (ks : key_state) (data : list Z) (address len : Z) (w : world) :
  0 <= address -> 0 <= len < 256 -> address + len <= MAX_ADDRESS ->
  ~ (address = 0 /\ len = 0) -> Forall is_byte data ->
  exists w',
    encryptedNonVolatileWrite fuel ks data address len w = (Some NV_NO_ERROR, w') /\
    forall x,
      plain_byte nv_byte ks (w_nv w') x =
      if (address <=? x) && (x <? address + len) then rd data (x - address)
      else plain_byte nv_byte ks (w_nv w) x.
Proof.
  intros Ha Hlen Hend Hnz Hb. unfold MAX_ADDRESS, NUM_RW_TESTS in *.
  destruct (write_accepted fuel ks data address len 1008 w Ha Hlen ltac:(lia) ltac:(lia)
              eq_refl Hnz Hacc ltac:(lia)) as (w' & Hrun).
  exists w'. split; [exact Hrun|].
  apply (write_content fuel ks data address len w w'); [lia|exact Hlen|lia|exact Hb|exact Hrun].
Qed.

(** The comparison of a block that was read with what is expected. *)
Lemma memcmp_expected (ks : key_state) (s : nv_state) (expected buf : list Z)
    (address len : Z) :
  0 <= address -> 0 <= len -> address + len <= MAX_ADDRESS ->
  (forall x, 0 <= x < MAX_ADDRESS -> plain_byte nv_byte ks s x = rd expected x) ->
  (forall j, 0 <= j < len -> rd buf j = plain_byte nv_byte ks s (address + j)) ->
  memcmp (drop (Z.to_nat address) expected) buf (Z.to_nat len) = 0.
Proof.
  intros Ha Hlen Hend Hexp Hbuf. apply memcmp_zero. intros j Hj.
  rewrite rd_drop by lia. rewrite Hbuf by lia. rewrite Hexp by lia. f_equal. lia.
Qed.

(** The initial fill. *)
Lemma initial_fill_ok (st : test_state) :
  arrays_ok st ->
  exists st',
    initial_fill fuel st = Some st' /\
    storage_as_expected nv_byte st' /\ arrays_ok st' /\
    t_keys st' = t_keys st /\ succeeded st' = succeeded st /\ failed st' = failed st /\
    t_out st' = t_out st.
Proof.
  intros (Hml & Hmb & Hbl & Hbb).
  pose (P := fun (i : Z) (s : test_state) =>
               0 <= i /\ i mod 128 = 0 /\
               exists w', s = set_world w' st /\
                 forall x, 0 <= x < i ->
                   plain_byte nv_byte (t_keys st) (w_nv w') x =
                   rd (what_storage_should_be st) x).
  destruct (for_int_rule P
              (fun i st =>
                 match encryptedNonVolatileWrite fuel (t_keys st)
                         (drop (Z.to_nat i) (what_storage_should_be st)) (u32 i) 128
                         (t_world st) with
                 | (Some _, w) => Some (set_world w st)
                 | (None, _) => None
                 end)
              MAX_ADDRESS 128 ltac:(lia)) with (fuel := fuel) (i := 0) (s := st)
    as (s' & Hrun & HP).
  - intros i s (Hi & Him & w0 & -> & Hsofar) Hlt. unfold MAX_ADDRESS in *.
    assert (Hi128 : i + 128 <= 1024) by (Z.div_mod_to_equations; lia).
    cbn [set_world t_keys what_storage_should_be t_world].
    rewrite u32_small by lia.
    destruct (write_in_range (t_keys st) (drop (Z.to_nat i) (what_storage_should_be st))
                i 128 w0 Hi ltac:(lia) ltac:(unfold MAX_ADDRESS; lia) ltac:(lia)
                (Forall_drop _ _ _ Hmb)) as (w1 & -> & Hcontent).
    eexists. split; [reflexivity|].
    split; [lia|]. split; [Z.div_mod_to_equations; lia|].
    exists w1. split; [reflexivity|].
    intros x Hx. rewrite Hcontent. split_cmp.
    + rewrite rd_drop by lia. f_equal. lia.
    + apply Hsofar. lia.
  - split; [lia|]. split; [reflexivity|]. exists (t_world st).
    split; [destruct st; reflexivity|]. intros x Hx. lia.
  - unfold MAX_ADDRESS. lia.
  - reflexivity.
  - unfold MAX_ADDRESS, NUM_RW_TESTS in *. change ((1024 - 0) / 128) with 8. lia.
  - destruct HP as (_ & _ & w' & -> & Hall). exists (set_world w' st).
    split; [exact Hrun|]. split; [intros x Hx; apply Hall; exact Hx|].
    split; [repeat split; assumption|]. repeat split; reflexivity.
Qed.


(** The loop that reads storage back in blocks of 128 bytes and compares,
    when storage is as expected: eight tests succeed. *)
Lemma check_loop_ok (mismatch : Z -> report) (st : test_state) :
  arrays_ok st -> storage_as_expected nv_byte st ->
  exists st',
    for_int fuel 0 MAX_ADDRESS 128 (fun i st =>
      match encryptedNonVolatileRead fuel (t_keys st) (buffer st) (u32 i) 128 (t_world st) with
      | (Some _, buf, w) =>
          let st := set_world w (set_buffer buf st) in
          if negb (memcmp (drop (Z.to_nat i) (what_storage_should_be st)) (buffer st) 128 =? 0)
          then Some (count_failure (mismatch i) st)
          else Some (count_success st)
      | (None, _, _) => None
      end) st = Some st' /\
    (forall x, nv_byte (w_nv (t_world st')) x = nv_byte (w_nv (t_world st)) x) /\
    arrays_ok st' /\ what_storage_should_be st' = what_storage_should_be st /\
    t_keys st' = t_keys st /\ succeeded st' = succeeded st + 8 /\
    failed st' = failed st /\ t_out st' = t_out st.
Proof.
  intros (Hml & Hmb & Hbl & Hbb) Hexp.
  pose (P := fun (i : Z) (s : test_state) =>
               0 <= i /\ i mod 128 = 0 /\
               exists w' buf',
                 s = Build_test_state rs (t_keys st) w' (t_rand st) (succeeded st + i / 128)
                       (failed st) (t_out st) (what_storage_should_be st) buf' (one_key st) /\
                 (forall x, nv_byte (w_nv w') x = nv_byte (w_nv (t_world st)) x) /\
                 length buf' = 256%nat /\ Forall is_byte buf').
  match goal with
  | |- exists st', for_int _ _ _ _ ?body _ = _ /\ _ =>
      destruct (for_int_rule P body MAX_ADDRESS 128 ltac:(lia)) with
        (fuel := fuel) (i := 0) (s := st) as (s' & Hrun & HP)
  end.
  - intros i s (Hi & Him & w0 & buf0 & -> & Hraw & Hl0 & Hb0) Hlt. unfold MAX_ADDRESS in *.
    assert (Hi128 : i + 128 <= 1024) by (Z.div_mod_to_equations; lia).
    cbn [t_keys buffer t_world].
    rewrite u32_small by lia.
    destruct (read_in_range (t_keys st) buf0 i 128 w0 Hi ltac:(lia)
                ltac:(unfold MAX_ADDRESS; lia) ltac:(lia) Hl0 Hb0)
      as (buf1 & w1 & -> & Hraw1 & Hl1 & Hb1 & Hrd1).
    cbv zeta. cbn [set_world set_buffer what_storage_should_be buffer].
    assert (Hcmp : memcmp (drop (Z.to_nat i) (what_storage_should_be st)) buf1 128 = 0).
    { apply (memcmp_expected (t_keys st) (w_nv w0) _ _ i 128 Hi ltac:(lia)
               ltac:(unfold MAX_ADDRESS; lia)).
      - intros x Hx. rewrite <- (Hexp x Hx). apply plain_byte_ext. exact Hraw.
      - exact Hrd1. }
    rewrite Hcmp. cbn [Z.eqb negb].
    eexists. split; [reflexivity|].
    split; [lia|]. split; [Z.div_mod_to_equations; lia|].
    exists w1, buf1. split.
    + unfold count_success, set_world, set_buffer.
      cbn [t_keys t_world t_rand succeeded failed t_out what_storage_should_be buffer one_key].
      f_equal. Z.div_mod_to_equations. lia.
    + split; [intros x; rewrite Hraw1; apply Hraw|]. split; assumption.
  - split; [lia|]. split; [reflexivity|]. exists (t_world st), (buffer st).
    split; [|split; [reflexivity|split; assumption]].
    destruct st. cbn [t_keys t_world t_rand succeeded failed t_out what_storage_should_be
                      buffer one_key].
    change (0 / 128) with 0. f_equal. lia.
  - unfold MAX_ADDRESS. lia.
  - reflexivity.
  - unfold MAX_ADDRESS, NUM_RW_TESTS in *. change ((1024 - 0) / 128) with 8. lia.
  - destruct HP as (_ & _ & w' & buf' & -> & Hraw & Hl' & Hb').
    eexists. split; [exact Hrun|]. split; [exact Hraw|].
    split; [repeat split; assumption|]. repeat split; reflexivity.
Qed.

(** The same loop with the roles of match and mismatch exchanged, whatever
    storage holds: eight tests are counted, each match is reported. *)
Lemma check_loop_any (report_of : Z -> report) (st : test_state) :
  arrays_ok st -> (forall a, different_key_report (report_of a)) ->
  exists st' out,
    for_int fuel 0 MAX_ADDRESS 128 (fun i st =>
      match encryptedNonVolatileRead fuel (t_keys st) (buffer st) (u32 i) 128 (t_world st) with
      | (Some _, buf, w) =>
          let st := set_world w (set_buffer buf st) in
          if negb (memcmp (drop (Z.to_nat i) (what_storage_should_be st)) (buffer st) 128 =? 0)
          then Some (count_success st)
          else Some (count_failure (report_of i) st)
      | (None, _, _) => None
      end) st = Some st' /\
    (forall x, nv_byte (w_nv (t_world st')) x = nv_byte (w_nv (t_world st)) x) /\
    arrays_ok st' /\ what_storage_should_be st' = what_storage_should_be st /\
    t_keys st' = t_keys st /\
    succeeded st' = succeeded st + (8 - Z.of_nat (length out)) /\
    failed st' = failed st + Z.of_nat (length out) /\
    t_out st' = t_out st ++ out /\
    (length out <= 8)%nat /\ Forall different_key_report out.
Proof.
  intros (Hml & Hmb & Hbl & Hbb) Hrep.
  pose (P := fun (i : Z) (s : test_state) =>
               0 <= i /\ i mod 128 = 0 /\
               exists w' buf' out,
                 s = Build_test_state rs (t_keys st) w' (t_rand st)
                       (succeeded st + (i / 128 - Z.of_nat (length out)))
                       (failed st + Z.of_nat (length out))
                       (t_out st ++ out) (what_storage_should_be st) buf' (one_key st) /\
                 (forall x, nv_byte (w_nv w') x = nv_byte (w_nv (t_world st)) x) /\
                 length buf' = 256%nat /\ Forall is_byte buf' /\
                 Z.of_nat (length out) <= i / 128 /\ Forall different_key_report out).
  match goal with
  | |- exists st' out, for_int _ _ _ _ ?body _ = _ /\ _ =>
      destruct (for_int_rule P body MAX_ADDRESS 128 ltac:(lia)) with
        (fuel := fuel) (i := 0) (s := st) as (s' & Hrun & HP)
  end.
  - intros i s (Hi & Him & w0 & buf0 & out0 & -> & Hraw & Hl0 & Hb0 & Hn0 & Ho0) Hlt.
    unfold MAX_ADDRESS in *.
    assert (Hi128 : i + 128 <= 1024) by (Z.div_mod_to_equations; lia).
    assert (Hdiv : (i + 128) / 128 = i / 128 + 1) by (Z.div_mod_to_equations; lia).
    cbn [t_keys buffer t_world].
    rewrite u32_small by lia.
    destruct (read_in_range (t_keys st) buf0 i 128 w0 Hi ltac:(lia)
                ltac:(unfold MAX_ADDRESS; lia) ltac:(lia) Hl0 Hb0)
      as (buf1 & w1 & -> & Hraw1 & Hl1 & Hb1 & Hrd1).
    cbv zeta. cbn [set_world set_buffer what_storage_should_be buffer].
    destruct (negb (memcmp (drop (Z.to_nat i) (what_storage_should_be st)) buf1 128 =? 0)).
    + eexists. split; [reflexivity|].
      split; [lia|]. split; [Z.div_mod_to_equations; lia|].
      exists w1, buf1, out0. split.
      * unfold count_success, set_world, set_buffer.
        cbn [t_keys t_world t_rand succeeded failed t_out what_storage_should_be buffer
             one_key].
        f_equal. lia.
      * split; [intros x; rewrite Hraw1; apply Hraw|].
        split; [assumption|]. split; [assumption|]. split; [lia|assumption].
    + eexists. split; [reflexivity|].
      split; [lia|]. split; [Z.div_mod_to_equations; lia|].
      exists w1, buf1, (out0 ++ [report_of i]). split.
      * unfold count_failure, set_world, set_buffer.
        cbn [t_keys t_world t_rand succeeded failed t_out what_storage_should_be buffer
             one_key].
        rewrite length_app. cbn [length]. rewrite <- app_assoc. f_equal; lia.
      * split; [intros x; rewrite Hraw1; apply Hraw|].
        split; [assumption|]. split; [assumption|].
        split; [rewrite length_app; cbn [length]; lia|].
        apply Forall_app. split; [assumption|]. constructor; [apply Hrep|constructor].
  - split; [lia|]. split; [reflexivity|]. exists (t_world st), (buffer st), [].
    split.
    { destruct st. cbn [t_keys t_world t_rand succeeded failed t_out what_storage_should_be
                        buffer one_key length].
      change (0 / 128) with 0. rewrite app_nil_r. f_equal; lia. }
    split; [reflexivity|]. split; [assumption|]. split; [assumption|].
    split; [change (0 / 128) with 0; cbn [length]; lia|constructor].
  - unfold MAX_ADDRESS. lia.
  - reflexivity.
  - unfold MAX_ADDRESS, NUM_RW_TESTS in *. change ((1024 - 0) / 128) with 8. lia.
  - destruct HP as (_ & _ & w' & buf' & out & -> & Hraw & Hl' & Hb' & Hn & Ho).
    change (MAX_ADDRESS / 128) with 8 in *.
    eexists _, out. split; [exact Hrun|]. split; [exact Hraw|].
    split; [repeat split; assumption|].
    split; [reflexivity|]. split; [reflexivity|]. split; [reflexivity|].
    split; [reflexivity|]. split; [reflexivity|]. split; [lia|assumption].
Qed.

Section Random.
Variable rand_values : nat -> Z.

(** The range of [drawn_range] lies inside the first [MAX_ADDRESS] bytes. *)
Lemma drawn_range_bounds :
  forall (n p : nat) (address length : Z) (q : nat),
    drawn_range rand_values n p = Some (address, length, q) ->
    0 <= address /\ 0 <= length < 256 /\ address + length <= MAX_ADDRESS.
Proof.
  induction n as [|n IH]; intros p address len q E; [discriminate E|].
  cbn [drawn_range] in E. cbv zeta in E.
  set (a := Z.land (rand_values p) (MAX_ADDRESS - 1)) in *.
  set (l := u8 (rand_values (S p))) in *.
  assert (Ha : 0 <= a < 1024).
  { subst a. change (MAX_ADDRESS - 1) with (Z.ones 10). rewrite Z.land_ones by lia.
    apply Z.mod_pos_bound. lia. }
  assert (Hl : 0 <= l < 256) by apply u8_byte.
  rewrite (u32_small a) in E by lia. rewrite u32_small in E by lia.
  destruct (Z.gtb_spec (a + l) MAX_ADDRESS) as [Hgt|Hle].
  - exact (IH _ _ _ _ E).
  - injection E as <- <- _. lia.
Qed.

(** The [do ... while] loop of a random test draws the range of
    [drawn_range]. *)
Lemma draw_range_drawn :
  forall (n : nat) (st : test_state),
    draw_range rand_values n st =
    match drawn_range rand_values n (t_rand st) with
    | Some (address, length, q) =>
        Some (address, length,
              Build_test_state rs (t_keys st) (t_world st) q (succeeded st) (failed st)
                (t_out st) (what_storage_should_be st) (buffer st) (one_key st))
    | None => None
    end.
Proof.
  induction n as [|n IH]; intros st; [reflexivity|].
  cbn [draw_range drawn_range]. unfold rand. cbv zeta. cbn [t_rand].
  destruct (_ >? MAX_ADDRESS); [|reflexivity].
  rewrite IH. reflexivity.
Qed.

(** The loop that fills the first [len] bytes of [buffer] with random
    bytes. *)
Lemma fill_buffer_ok (len : Z) (st : test_state) :
  0 <= len < 256 -> length (buffer st) = 256%nat -> Forall is_byte (buffer st) ->
  exists buf' : list Z,
    for_int fuel 0 len 1 (fun j st =>
      let '(r, st) := rand rand_values st in
      Some (set_buffer (wr (buffer st) j (u8 r)) st)) st =
    Some (Build_test_state rs (t_keys st) (t_world st) (t_rand st + Z.to_nat len)
            (succeeded st) (failed st) (t_out st) (what_storage_should_be st) buf'
            (one_key st)) /\
    length buf' = 256%nat /\ Forall is_byte buf'.
Proof.
  intros Hlen Hl Hb.
  pose (P := fun (j : Z) (s : test_state) =>
               0 <= j /\
               exists buf' : list Z,
                 s = Build_test_state rs (t_keys st) (t_world st)
                       (t_rand st + Z.to_nat j) (succeeded st) (failed st) (t_out st)
                       (what_storage_should_be st) buf' (one_key st) /\
                 length buf' = 256%nat /\ Forall is_byte buf').
  match goal with
  | |- exists buf', for_int _ _ _ _ ?body _ = _ /\ _ =>
      destruct (for_int_rule P body len 1 ltac:(lia)) with
        (fuel := fuel) (i := 0) (s := st) as (s' & Hrun & HP)
  end.
  - intros j s (Hj & buf0 & -> & Hl0 & Hb0) Hlt. unfold rand, set_buffer.
    cbn [t_keys t_world t_rand succeeded failed t_out what_storage_should_be buffer one_key].
    eexists. split; [reflexivity|]. split; [lia|].
    exists (wr buf0 j (u8 (rand_values (t_rand st + Z.to_nat j)))).
    replace (t_rand st + Z.to_nat (j + 1))%nat with (S (t_rand st + Z.to_nat j)) by lia.
    split; [reflexivity|].
    split; [rewrite length_wr; exact Hl0|]. apply wr_bytes; [exact Hb0|apply u8_byte].
  - split; [lia|]. exists (buffer st). change (Z.to_nat 0) with 0%nat.
    rewrite Nat.add_0_r. split; [destruct st; reflexivity|]. split; assumption.
  - lia.
  - rewrite Z.sub_0_r. apply Z.mod_1_r.
  - unfold NUM_RW_TESTS in Hfuel. rewrite Z.sub_0_r, Z.div_1_r. lia.
  - destruct HP as (_ & buf' & -> & Hl' & Hb'). exists buf'. split; [exact Hrun|].
    split; assumption.
Qed.

(** One random test, when storage is as expected: the test succeeds, and
    storage is as expected afterwards. *)
Lemma random_test_ok (i : Z) (n : nat) (st : test_state) :
  arrays_ok st -> storage_as_expected nv_byte st ->
  draws_ok rand_values fuel (S n) (t_rand st) ->
  exists st',
    random_test rand_values fuel i st = Some st' /\
    arrays_ok st' /\ storage_as_expected nv_byte st' /\
    t_keys st' = t_keys st /\ succeeded st' = succeeded st + 1 /\
    failed st' = failed st /\ t_out st' = t_out st /\ one_key st' = one_key st /\
    draws_ok rand_values fuel n (t_rand st').
Proof.
  intros (Hml & Hmb & Hbl & Hbb) Hexp Hd. unfold random_test.
  cbn [draws_ok] in Hd. rewrite draw_range_drawn.
  destruct (drawn_range rand_values fuel (t_rand st)) as [[[address len] r]|] eqn:Ed;
    [|contradiction].
  destruct Hd as [Hnz Hd].
  destruct (drawn_range_bounds _ _ _ _ _ Ed) as (Ha & Hlen & Hend).
  unfold rand at 1.
  cbn [t_keys t_world t_rand succeeded failed t_out what_storage_should_be buffer one_key].
  destruct (negb (Z.land (rand_values r) 1 =? 0)).
  - (* write *)
    match goal with
    | |- context [for_int fuel 0 len 1 _ ?s] =>
        destruct (fill_buffer_ok len s Hlen Hbl Hbb) as (buf' & -> & Hl' & Hb')
    end.
    cbn [t_keys t_world t_rand succeeded failed t_out what_storage_should_be buffer one_key].
    unfold set_expected.
    cbn [t_keys t_world t_rand succeeded failed t_out what_storage_should_be buffer one_key].
    destruct (write_in_range (t_keys st) buf' address len (t_world st) Ha Hlen Hend Hnz Hb')
      as (w' & -> & Hcontent).
    cbn [nv_failed]. unfold count_success, set_world.
    cbn [t_keys t_world t_rand succeeded failed t_out what_storage_should_be buffer one_key].
    eexists. split; [reflexivity|].
    unfold arrays_ok, storage_as_expected.
    cbn [t_keys t_world t_rand succeeded failed t_out what_storage_should_be buffer one_key].
    unfold memcpy.
    destruct (memcpy_spec buf' address (Z.to_nat len) (what_storage_should_be st) Ha
                ltac:(unfold MAX_ADDRESS in *; lia)) as (Hl2 & Hb2 & Hrd2).
    cbv zeta in Hl2, Hb2, Hrd2.
    split; [split; [lia|split; [apply Hb2; assumption|split; assumption]]|].
    split; [|repeat split; try reflexivity; exact Hd].
    intros x Hx. rewrite Hcontent, Hrd2 by lia. rewrite Z2Nat.id by lia.
    destruct ((address <=? x) && (x <? address + len)); [reflexivity|apply Hexp, Hx].
  - (* read *)
    destruct (read_in_range (t_keys st) (buffer st) address len (t_world st)
                Ha Hlen Hend Hnz Hbl Hbb) as (buf' & w' & -> & Hraw & Hl' & Hb' & Hrd).
    cbv zeta. cbn [nv_failed]. unfold set_world, set_buffer.
    cbn [t_keys t_world t_rand succeeded failed t_out what_storage_should_be buffer one_key].
    rewrite (memcmp_expected (t_keys st) (w_nv (t_world st)) _ _ address len Ha
               ltac:(lia) Hend Hexp Hrd).
    cbn [Z.eqb negb]. unfold count_success.
    cbn [t_keys t_world t_rand succeeded failed t_out what_storage_should_be buffer one_key].
    eexists. split; [reflexivity|].
    unfold arrays_ok, storage_as_expected.
    cbn [t_keys t_world t_rand succeeded failed t_out what_storage_should_be buffer one_key].
    split; [split; [assumption|split; [assumption|split; assumption]]|].
    split; [|repeat split; try reflexivity; exact Hd].
    intros x Hx. rewrite <- (Hexp x Hx). apply plain_byte_ext. exact Hraw.
Qed.

(** Any number of random tests. *)
Lemma random_tests_upto (n : Z) (st : test_state) :
  0 <= n < Z.of_nat fuel -> arrays_ok st -> storage_as_expected nv_byte st ->
  draws_ok rand_values fuel (Z.to_nat n) (t_rand st) ->
  exists st',
    for_int fuel 0 n 1 (random_test rand_values fuel) st = Some st' /\
    arrays_ok st' /\ storage_as_expected nv_byte st' /\
    t_keys st' = t_keys st /\ succeeded st' = succeeded st + n /\
    failed st' = failed st /\ t_out st' = t_out st /\ one_key st' = one_key st.
Proof.
  intros Hn Harr Hexp Hd.
  pose (P := fun (i : Z) (s : test_state) =>
               0 <= i /\ draws_ok rand_values fuel (Z.to_nat (n - i)) (t_rand s) /\
               arrays_ok s /\ storage_as_expected nv_byte s /\
               t_keys s = t_keys st /\ succeeded s = succeeded st + i /\
               failed s = failed st /\ t_out s = t_out st /\ one_key s = one_key st).
  destruct (for_int_rule P (random_test rand_values fuel) n 1 ltac:(lia)) with
    (fuel := fuel) (i := 0) (s := st) as (s' & Hrun & HP).
  - intros i s (Hi & Hds & Ha & He & Hk & Hs & Hf & Ho & H1) Hlt.
    replace (Z.to_nat (n - i)) with (S (Z.to_nat (n - (i + 1)))) in Hds by lia.
    destruct (random_test_ok i _ s Ha He Hds)
      as (s' & E & Ha' & He' & Hk' & Hs' & Hf' & Ho' & H1' & Hd').
    exists s'. split; [exact E|]. unfold P.
    split; [lia|]. split; [exact Hd'|]. split; [exact Ha'|]. split; [exact He'|].
    split; [congruence|]. split; [lia|]. split; [congruence|]. split; congruence.
  - unfold P. split; [lia|]. rewrite Z.sub_0_r. split; [exact Hd|].
    split; [exact Harr|]. split; [exact Hexp|]. repeat split; lia.
  - lia.
  - rewrite Z.sub_0_r. apply Z.mod_1_r.
  - rewrite Z.sub_0_r, Z.div_1_r. lia.
  - exists s'. split; [exact Hrun|]. exact (proj2 (proj2 HP)).
Qed.

(** The random values of [what_storage_should_be]. *)
Lemma fill_expected_ok (st : test_state) :
  arrays_ok st ->
  exists st',
    fill_expected rand_values fuel st = Some st' /\
    arrays_ok st' /\ t_keys st' = t_keys st /\ succeeded st' = succeeded st /\
    failed st' = failed st /\ t_out st' = t_out st /\
    t_rand st' = (t_rand st + 1024)%nat.
Proof.
  intros (Hml & Hmb & Hbl & Hbb).
  pose (P := fun (j : Z) (s : test_state) =>
               0 <= j /\
               exists m' : list Z,
                 s = Build_test_state rs (t_keys st) (t_world st)
                       (t_rand st + Z.to_nat j) (succeeded st) (failed st) (t_out st) m'
                       (buffer st) (one_key st) /\
                 length m' = 1024%nat /\ Forall is_byte m').
  unfold fill_expected.
  match goal with
  | |- exists st', for_int _ _ _ _ ?body _ = _ /\ _ =>
      destruct (for_int_rule P body MAX_ADDRESS 1 ltac:(lia)) with
        (fuel := fuel) (i := 0) (s := st) as (s' & Hrun & HP)
  end.
  - intros j s (Hj & m0 & -> & Hl0 & Hb0) Hlt. unfold rand, set_expected.
    cbn [t_keys t_world t_rand succeeded failed t_out what_storage_should_be buffer one_key].
    eexists. split; [reflexivity|]. split; [lia|].
    exists (wr m0 j (u8 (rand_values (t_rand st + Z.to_nat j)))).
    replace (t_rand st + Z.to_nat (j + 1))%nat with (S (t_rand st + Z.to_nat j)) by lia.
    split; [reflexivity|].
    split; [rewrite length_wr; exact Hl0|]. apply wr_bytes; [exact Hb0|apply u8_byte].
  - split; [lia|]. exists (what_storage_should_be st). change (Z.to_nat 0) with 0%nat.
    rewrite Nat.add_0_r. split; [destruct st; reflexivity|]. split; assumption.
  - unfold MAX_ADDRESS. lia.
  - rewrite Z.sub_0_r. apply Z.mod_1_r.
  - unfold NUM_RW_TESTS, MAX_ADDRESS in *. rewrite Z.sub_0_r, Z.div_1_r. lia.
  - destruct HP as (_ & m' & -> & Hl' & Hb'). eexists. split; [exact Hrun|].
    split; [repeat split; assumption|].
    cbn [t_keys t_world t_rand succeeded failed t_out what_storage_should_be buffer one_key].
    repeat split; reflexivity.
Qed.

End Random.

End Harness.

Lemma clearEncryptionKey_zero (ks : key_state) :
  length (nv_storage_encrypt_key ks) = 16%nat -> length (nv_storage_tweak_key ks) = 16%nat ->
  clearEncryptionKey ks =
  {| nv_storage_encrypt_key := replicate 16 0; nv_storage_tweak_key := replicate 16 0 |}.
Proof.
  intros He Ht. destruct ks as [ek tk]. cbn [nv_storage_encrypt_key nv_storage_tweak_key] in *.
  explode_block ek He. explode_block tk Ht. reflexivity.
Qed.

Lemma setEncryptionKey_lengths (in_ : list Z) (ks : key_state) :
  length (nv_storage_encrypt_key ks) = 16%nat -> length (nv_storage_tweak_key ks) = 16%nat ->
  length (nv_storage_encrypt_key (setEncryptionKey in_ ks)) = 16%nat /\
  length (nv_storage_tweak_key (setEncryptionKey in_ ks)) = 16%nat.
Proof.
  intros He Ht. destruct ks as [ek tk]. cbn [nv_storage_encrypt_key nv_storage_tweak_key] in *.
  explode_block ek He. explode_block tk Ht. split; reflexivity.
Qed.

(** What a loop body keeps, the loop keeps. *)
Lemma for_int_keeps {St : Type} (Q : St -> Prop) (body : Z -> St -> option St)
    (bound step : Z) :
  (forall i s s', body i s = Some s' -> Q s -> Q s') ->
  forall (fuel : nat) (i : Z) (s s' : St),
    for_int fuel i bound step body s = Some s' -> Q s -> Q s'.
Proof.
  intros Hbody. induction fuel as [|fuel IH]; intros i s s' E HQ; [discriminate E|].
  cbn [for_int] in E. destruct (i <? bound).
  - destruct (body i s) as [s1|] eqn:E1; [|discriminate E].
    exact (IH _ _ _ E (Hbody _ _ _ E1 HQ)).
  - injection E as <-. exact HQ.
Qed.

(** The initial fill and its check do not call [rand()]. *)
Lemma initial_fill_rand {c : BlockCipher} {rs : RawStore} (fuel : nat) (st st' : test_state) :
  initial_fill fuel st = Some st' -> t_rand st' = t_rand st.
Proof.
  intros E. unfold initial_fill in E.
  refine (for_int_keeps (fun s => t_rand s = t_rand st) _ _ _ _ _ _ _ _ E eq_refl).
  intros i s s' Eb Hq.
  destruct (encryptedNonVolatileWrite _ _ _ _ _ _) as [[r|] w]; [|discriminate Eb].
  injection Eb as <-. exact Hq.
Qed.

Lemma check_initial_fill_rand {c : BlockCipher} {rs : RawStore} (fuel : nat)
    (st st' : test_state) :
  check_initial_fill fuel st = Some st' -> t_rand st' = t_rand st.
Proof.
  intros E. unfold check_initial_fill in E.
  refine (for_int_keeps (fun s => t_rand s = t_rand st) _ _ _ _ _ _ _ _ E eq_refl).
  intros i s s' Eb Hq.
  destruct (encryptedNonVolatileRead _ _ _ _ _ _) as [[[r|] buf] w]; [|discriminate Eb].
  cbv zeta in Eb. destruct (negb _); injection Eb as <-; exact Hq.
Qed.

(** The example values of [rand()] never give the empty range at address 0:
    the tests start at the values number 0 and 5 of each period. *)
Lemma example_rand_draws (fuel : nat) :
  (0 < fuel)%nat ->
  forall n p : nat, (p mod 8 = 0 \/ p mod 8 = 5)%nat -> draws_ok example_rand fuel n p.
Proof.
  intros Hf. induction n as [|n IH]; intros p Hp; [exact I|].
  destruct fuel as [|f]; [lia|].
  assert (E0 : example_rand p = 5)
    by (unfold example_rand; destruct Hp as [-> | ->]; reflexivity).
  assert (E1 : example_rand (S p) = 2).
  { replace (S p) with (p + 1)%nat by lia. unfold example_rand.
    rewrite Nat.Div0.add_mod. destruct Hp as [-> | ->]; reflexivity. }
  cbn [draws_ok drawn_range]. cbv zeta. rewrite E0, E1.
  change (u32 (u32 (Z.land 5 (MAX_ADDRESS - 1)) + u8 2) >? MAX_ADDRESS) with false.
  cbv iota. split; [intros [E _]; vm_compute in E; discriminate E|].
  change (Z.to_nat (u8 2)) with 2%nat.
  destruct Hp as [Hp|Hp].
  - assert (E2 : example_rand (S (S p)) = 1).
    { replace (S (S p)) with (p + 2)%nat by lia. unfold example_rand.
      rewrite Nat.Div0.add_mod, Hp. reflexivity. }
    rewrite E2. change (negb (Z.land 1 1 =? 0)) with true. cbv iota.
    apply IH. right. replace (S (S (S p)) + 2)%nat with (p + 5)%nat by lia.
    rewrite Nat.Div0.add_mod, Hp. reflexivity.
  - assert (E2 : example_rand (S (S p)) = 0).
    { replace (S (S p)) with (p + 2)%nat by lia. unfold example_rand.
      rewrite Nat.Div0.add_mod, Hp. reflexivity. }
    rewrite E2. change (negb (Z.land 0 1 =? 0)) with false. cbv iota.
    apply IH. left. replace (S (S (S p))) with (p + 3)%nat by lia.
    rewrite Nat.Div0.add_mod, Hp. reflexivity.
Qed.

(** X23.  If the raw driver accepts the blocks of the first
    [MAX_ADDRESS] bytes, then under any keys the eight 128-byte writes of
    the initial fill of [main] and the eight reads that check it all return;
    the check counts eight successes, no failure and prints nothing, and
    storage then decrypts to [what_storage_should_be]. *)
Theorem initial_fill_is_read_back {c : BlockCipher} {L : BlockCipherLaws c} {rs : RawStore}
    {nv_byte : nv_state -> Z -> Z} {SL : RawStoreLaws rs nv_byte}
    (fuel : nat) (st : test_state) :
  NUM_RW_TESTS < Z.of_nat fuel -> raw_accepts rs 0 1008 -> arrays_ok st ->
  exists st1 st2,
    initial_fill fuel st = Some st1 /\ check_initial_fill fuel st1 = Some st2 /\
    succeeded st2 = succeeded st + 8 /\ failed st2 = failed st /\ t_out st2 = t_out st /\
    storage_as_expected nv_byte st2.
Proof.
  intros Hfuel Hacc Harr.
  destruct (initial_fill_ok fuel Hfuel Hacc st Harr)
    as (s1 & E1 & Hexp1 & Harr1 & Hk1 & Hs1 & Hf1 & Ho1).
  pose proof (check_loop_ok fuel Hfuel Hacc InitialFillMismatch s1 Harr1 Hexp1) as Hloop.
  destruct Hloop as (s2 & E2 & Hraw2 & Harr2 & Hm2 & Hk2 & Hs2 & Hf2 & Ho2).
  exists s1, s2. split; [exact E1|]. split; [exact E2|].
  split; [lia|]. split; [congruence|]. split; [congruence|].
  intros x Hx. rewrite Hm2, Hk2, <- (Hexp1 x Hx). apply plain_byte_ext. exact Hraw2.
Qed.

Lemma initial_fill_is_read_back_witness :
  let st :=
    {| t_keys := example_keys; t_world := empty_world small_store ∅; t_rand := 0;
       succeeded := 0; failed := 0; t_out := [];
       what_storage_should_be := replicate 1024 7; buffer := replicate 256 0;
       one_key := replicate 32 0 |} in
  let fuel := Z.to_nat 100001 in
  (NUM_RW_TESTS < Z.of_nat fuel /\ raw_accepts small_store 0 1008 /\ arrays_ok st) /\
  exists st1 st2,
    @initial_fill shift_cipher small_store fuel st = Some st1 /\
    @check_initial_fill shift_cipher small_store fuel st1 = Some st2 /\
    succeeded st2 = succeeded st + 8 /\ failed st2 = failed st /\ t_out st2 = t_out st /\
    @storage_as_expected shift_cipher small_store array_byte st2.
Proof.
  cbv zeta.
  assert (H1 : NUM_RW_TESTS < Z.of_nat (Z.to_nat 100001)) by (unfold NUM_RW_TESTS; lia).
  assert (H2 : raw_accepts small_store 0 1008) by (apply array_store_accepts; lia).
  assert (H3 : @arrays_ok small_store
                 {| t_keys := example_keys; t_world := empty_world small_store ∅; t_rand := 0;
                    succeeded := 0; failed := 0; t_out := [];
                    what_storage_should_be := replicate 1024 7; buffer := replicate 256 0;
                    one_key := replicate 32 0 |}).
  { unfold arrays_ok. cbn [what_storage_should_be buffer].
    rewrite !length_replicate.
    repeat split; try reflexivity; apply Forall_replicate; unfold is_byte; lia. }
  split; [split; [exact H1|split; [exact H2|exact H3]]|].
  exact (@initial_fill_is_read_back shift_cipher shift_cipher_laws small_store array_byte
           (array_store_laws 0 1024) (Z.to_nat 100001) _ H1 H2 H3).
Defined.

(** X24.  From storage that decrypts to [what_storage_should_be], and
    with values of [rand()] for which, in each of the [NUM_RW_TESTS] tests,
    the [do ... while] loop ends and draws a range other than the empty
    range at address 0 ([draws_ok], a condition on the draws of that loop
    only), all random tests of [main] return and succeed: [succeeded] grows
    by 100000, [failed] and the output stay as they are, the keys too, and
    storage still decrypts to [what_storage_should_be]. *)
Theorem random_tests_succeed {c : BlockCipher} {L : BlockCipherLaws c} {rs : RawStore}
    {nv_byte : nv_state -> Z -> Z} {SL : RawStoreLaws rs nv_byte}
    (rand_values : nat -> Z) (fuel : nat) (st : test_state) :
  NUM_RW_TESTS < Z.of_nat fuel -> raw_accepts rs 0 1008 ->
  draws_ok rand_values fuel (Z.to_nat NUM_RW_TESTS) (t_rand st) ->
  arrays_ok st -> storage_as_expected nv_byte st ->
  exists st',
    random_tests rand_values fuel st = Some st' /\
    succeeded st' = succeeded st + NUM_RW_TESTS /\ failed st' = failed st /\
    t_out st' = t_out st /\ t_keys st' = t_keys st /\
    arrays_ok st' /\ storage_as_expected nv_byte st'.
Proof.
  intros Hfuel Hacc Hrand Harr Hexp. unfold random_tests.
  destruct (random_tests_upto fuel Hfuel Hacc rand_values NUM_RW_TESTS st
              ltac:(unfold NUM_RW_TESTS in *; lia) Harr Hexp Hrand)
    as (s' & E & Harr' & Hexp' & Hk & Hs & Hf & Ho & _).
  exists s'. split; [exact E|]. split; [exact Hs|]. split; [exact Hf|].
  split; [exact Ho|]. split; [exact Hk|]. split; assumption.
Qed.

Lemma random_tests_succeed_witness :
  let rand_values := example_rand in
  let fuel := Z.to_nat 100001 in
  let st : @test_state small_store :=
    {| t_keys := example_keys; t_world := empty_world small_store ∅; t_rand := 0;
       succeeded := 0; failed := 0; t_out := [];
       what_storage_should_be :=
         map (fun n : nat =>
                @plain_byte shift_cipher small_store array_byte example_keys ∅ (Z.of_nat n))
             (seq 0 1024);
       buffer := replicate 256 0; one_key := replicate 32 0 |} in
  (NUM_RW_TESTS < Z.of_nat fuel /\ raw_accepts small_store 0 1008 /\
   draws_ok rand_values fuel (Z.to_nat NUM_RW_TESTS) (t_rand st) /\ arrays_ok st /\
   @storage_as_expected shift_cipher small_store array_byte st) /\
  exists st',
    @random_tests shift_cipher small_store rand_values fuel st = Some st' /\
    succeeded st' = succeeded st + NUM_RW_TESTS /\ failed st' = failed st /\
    t_out st' = t_out st /\ t_keys st' = t_keys st /\
    arrays_ok st' /\ @storage_as_expected shift_cipher small_store array_byte st'.
Proof.
  cbv zeta.
  assert (H1 : NUM_RW_TESTS < Z.of_nat (Z.to_nat 100001)) by (unfold NUM_RW_TESTS; lia).
  assert (H2 : raw_accepts small_store 0 1008) by (apply array_store_accepts; lia).
  match goal with |- (_ /\ _ /\ _ /\ arrays_ok ?s /\ _) /\ _ => set (st := s) end.
  assert (H3 : draws_ok example_rand (Z.to_nat 100001) (Z.to_nat NUM_RW_TESTS) (t_rand st))
    by (apply example_rand_draws; [lia|left; reflexivity]).
  assert (H4 : arrays_ok st).
  { unfold arrays_ok, st. cbn [what_storage_should_be buffer].
    rewrite length_map, length_seq, length_replicate.
    split; [reflexivity|]. split; [|split; [reflexivity|]].
    - apply Forall_fmap, Forall_forall. intros n _. unfold compose.
      exact (@plain_byte_is_byte shift_cipher shift_cipher_laws small_store array_byte
               (array_store_laws 0 1024) example_keys ∅ (Z.of_nat n)).
    - apply Forall_replicate. unfold is_byte. lia. }
  assert (H5 : @storage_as_expected shift_cipher small_store array_byte st).
  { intros x Hx. unfold MAX_ADDRESS in Hx. unfold st.
    cbn [what_storage_should_be t_keys t_world]. unfold rd, empty_world. cbn [w_nv].
    rewrite list_lookup_fmap, lookup_seq_lt by lia.
    cbn [fmap option_fmap option_map default Nat.add]. rewrite Z2Nat.id by lia.
    unfold id. reflexivity. }
  split; [split; [exact H1|split; [exact H2|split; [exact H3|split; [exact H4|exact H5]]]]|].
  exact (@random_tests_succeed shift_cipher shift_cipher_laws small_store array_byte
           (array_store_laws 0 1024) example_rand (Z.to_nat 100001) st
           H1 H2 H3 H4 H5).
Defined.



(** X26.  [main] after its two calls of [scanTestVectors].  If the raw
    driver accepts the blocks of the first [MAX_ADDRESS] bytes, the values
    of [rand()] from number 1024 on (the first 1024 fill
    [what_storage_should_be]) let the [do ... while] loop of each random
    test end with a range other than the empty range at address 0,
    [initWalletTest] leaves two 16-byte keys and [scanTestVectors] returns
    without touching the keys, the arrays of [main] or [rand()], then
    [main] reaches its last [printf].  What it prints after the scans is
    only reports of a storage match under a changed key, then the totals;
    it counts one failure for each such report and [NUM_RW_TESTS + 32]
    successes less that number: no mismatch and no failed read or write is
    ever reported. *)
Theorem main_reports_no_failure {c : BlockCipher} {L : BlockCipherLaws c} {rs : RawStore}
    {nv_byte : nv_state -> Z -> Z} {SL : RawStoreLaws rs nv_byte}
    (rand_values : nat -> Z) (fuel : nat)
    (initWalletTest : test_state -> test_state)
    (scanTestVectors : String.string -> Z -> test_state -> option test_state)
    (st0 : test_state) :
  NUM_RW_TESTS < Z.of_nat fuel -> raw_accepts rs 0 1008 ->
  draws_ok rand_values fuel (Z.to_nat NUM_RW_TESTS) 1024 ->
  length (nv_storage_encrypt_key (t_keys (initWalletTest st0))) = 16%nat ->
  length (nv_storage_tweak_key (t_keys (initWalletTest st0))) = 16%nat ->
  arrays_ok (initWalletTest st0) ->
  (forall file flag st, exists st',
     scanTestVectors file flag st = Some st' /\ t_keys st' = t_keys st /\
     what_storage_should_be st' = what_storage_should_be st /\ buffer st' = buffer st /\
     t_rand st' = t_rand st) ->
  exists (scanned st' : test_state) (out : list report),
    after_scans initWalletTest scanTestVectors st0 = Some scanned /\
    main rand_values fuel initWalletTest scanTestVectors st0 = Some st' /\
    t_out st' = t_out scanned ++ out ++ [Totals (succeeded st') (failed st')] /\
    Forall different_key_report out /\
    failed st' = failed scanned + Z.of_nat (length out) /\
    succeeded st' = succeeded scanned + (NUM_RW_TESTS + 32 - Z.of_nat (length out)).
Proof.
  intros Hfuel Hacc Hrand Hek Htk Harr Hscan.
  unfold main, after_scans. cbv zeta.
  rewrite (clearEncryptionKey_zero _ Hek Htk).
  set (zero := {| nv_storage_encrypt_key := replicate 16 0;
                  nv_storage_tweak_key := replicate 16 0 |}).
  set (s0 := reset_counters (srand42 (set_keys zero (initWalletTest st0)))).
  match goal with
  | |- context [scanTestVectors ?file 0 s0] =>
      destruct (Hscan file 0 s0) as (s1 & -> & Hk1 & Hm1 & Hb1 & Hr1)
  end.
  match goal with
  | |- context [scanTestVectors ?file 1 s1] =>
      destruct (Hscan file 1 s1) as (s2 & -> & Hk2 & Hm2 & Hb2 & Hr2)
  end.
  assert (Harr2 : arrays_ok s2).
  { unfold arrays_ok. rewrite Hm2, Hm1, Hb2, Hb1. exact Harr. }
  assert (Hkeys2 : t_keys s2 = zero) by (rewrite Hk2, Hk1; reflexivity).
  (* the expected contents *)
  destruct (fill_expected_ok fuel Hfuel rand_values s2 Harr2)
    as (s3 & -> & Harr3 & Hk3 & Hs3 & Hf3 & Ho3 & Hr3).
  cbv beta iota.
  (* the initial fill and its check *)
  destruct (initial_fill_ok fuel Hfuel Hacc s3 Harr3)
    as (s4 & E4 & Hexp4 & Harr4 & Hk4 & Hs4 & Hf4 & Ho4).
  pose proof (initial_fill_rand _ _ _ E4) as Hr4. rewrite E4.
  cbv beta iota. unfold check_initial_fill. cbv zeta.
  pose proof (check_loop_ok fuel Hfuel Hacc InitialFillMismatch s4 Harr4 Hexp4) as Hloop.
  cbv zeta in Hloop.
  destruct Hloop as (s5 & E5 & Hraw5 & Harr5 & Hm5 & Hk5 & Hs5 & Hf5 & Ho5).
  pose proof (check_initial_fill_rand fuel s4 s5 E5) as Hr5. rewrite E5.
  cbv beta iota.
  assert (Hd5 : draws_ok rand_values fuel (Z.to_nat NUM_RW_TESTS) (t_rand s5)).
  { rewrite Hr5, Hr4, Hr3, Hr2, Hr1. exact Hrand. }
  assert (Hexp5 : storage_as_expected nv_byte s5).
  { intros x Hx. rewrite Hm5, Hk5, <- (Hexp4 x Hx). apply plain_byte_ext. exact Hraw5. }
  (* the random tests *)
  unfold random_tests.
  destruct (random_tests_upto fuel Hfuel Hacc rand_values NUM_RW_TESTS s5
              ltac:(unfold NUM_RW_TESTS in *; lia) Harr5 Hexp5 Hd5)
    as (s6 & -> & Harr6 & Hexp6 & Hk6 & Hs6 & Hf6 & Ho6 & _).
  cbv beta iota.
  assert (Hkeys6 : t_keys s6 = zero) by congruence.
  assert (H6e : length (nv_storage_encrypt_key (t_keys s6)) = 16%nat)
    by (rewrite Hkeys6; reflexivity).
  assert (H6t : length (nv_storage_tweak_key (t_keys s6)) = 16%nat)
    by (rewrite Hkeys6; reflexivity).
  (* a different tweak key *)
  match goal with
  | |- context [check_different_tweak_key fuel ?s] => set (s7 := s)
  end.
  assert (F7 : arrays_ok s7 /\ t_world s7 = t_world s6 /\
               what_storage_should_be s7 = what_storage_should_be s6 /\
               succeeded s7 = succeeded s6 /\ failed s7 = failed s6 /\ t_out s7 = t_out s6 /\
               length (nv_storage_encrypt_key (t_keys s7)) = 16%nat /\
               length (nv_storage_tweak_key (t_keys s7)) = 16%nat).
  { split; [exact Harr6|]. do 5 (split; [reflexivity|]).
    apply setEncryptionKey_lengths; assumption. }
  clearbody s7. destruct F7 as (Harr7 & Hw7 & Hm7 & Hs7 & Hf7 & Ho7 & H7e & H7t).
  unfold check_different_tweak_key. cbv zeta.
  pose proof (check_loop_any fuel Hfuel Hacc MatchWithDifferentTweakKey s7 Harr7 (fun _ => I))
    as Hloop.
  cbv zeta in Hloop.
  destruct Hloop as (s8 & out8 & -> & Hraw8 & Harr8 & Hm8 & Hk8 & Hs8 & Hf8 & Ho8 & Hn8 & Hd8).
  cbv beta iota.
  (* a different encryption key *)
  match goal with
  | |- context [check_different_encrypt_key fuel ?s] => set (s9 := s)
  end.
  assert (F9 : arrays_ok s9 /\ t_world s9 = t_world s8 /\
               what_storage_should_be s9 = what_storage_should_be s8 /\
               succeeded s9 = succeeded s8 /\ failed s9 = failed s8 /\ t_out s9 = t_out s8 /\
               length (nv_storage_encrypt_key (t_keys s9)) = 16%nat /\
               length (nv_storage_tweak_key (t_keys s9)) = 16%nat).
  { split; [exact Harr8|]. do 5 (split; [reflexivity|]).
    apply setEncryptionKey_lengths; unfold set_one_key; cbn [t_keys]; rewrite Hk8;
      assumption. }
  clearbody s9. destruct F9 as (Harr9 & Hw9 & Hm9 & Hs9 & Hf9 & Ho9 & H9e & H9t).
  unfold check_different_encrypt_key. cbv zeta.
  pose proof (check_loop_any fuel Hfuel Hacc MatchWithDifferentEncryptKey s9 Harr9
                (fun _ => I)) as Hloop.
  cbv zeta in Hloop.
  destruct Hloop
    as (s10 & out10 & -> & Hraw10 & Harr10 & Hm10 & Hk10 & Hs10 & Hf10 & Ho10 & Hn10 & Hd10).
  cbv beta iota.
  (* the original keys again *)
  rewrite (clearEncryptionKey_zero (t_keys s10))
    by (rewrite Hk10; assumption).
  match goal with
  | |- context [check_final fuel ?s] => set (s11 := s)
  end.
  assert (F11 : arrays_ok s11 /\ storage_as_expected nv_byte s11 /\
                succeeded s11 = succeeded s10 /\ failed s11 = failed s10 /\
                t_out s11 = t_out s10).
  { split; [exact Harr10|]. split; [|repeat split; reflexivity].
    intros x Hx. unfold s11, set_keys. cbn [t_keys t_world what_storage_should_be].
    rewrite Hm10, Hm9, Hm8, Hm7, <- (Hexp6 x Hx), Hkeys6. apply plain_byte_ext.
    intros y. rewrite Hraw10, Hw9, Hraw8, Hw7. reflexivity. }
  clearbody s11. destruct F11 as (Harr11 & Hexp11 & Hs11 & Hf11 & Ho11).
  unfold check_final. cbv zeta.
  pose proof (check_loop_ok fuel Hfuel Hacc FinalMismatch s11 Harr11 Hexp11) as Hloop.
  cbv zeta in Hloop.
  destruct Hloop as (s12 & -> & _ & _ & _ & _ & Hs12 & Hf12 & Ho12).
  cbv beta iota.
  exists s2, (print_totals s12), (out8 ++ out10).
  split; [reflexivity|]. split; [reflexivity|].
  unfold print_totals.
  cbn [t_keys t_world t_rand succeeded failed t_out what_storage_should_be buffer one_key].
  split.
  { rewrite Ho12, Ho11, Ho10, Ho9, Ho8, Ho7, Ho6, Ho5, Ho4, Ho3.
    rewrite <- !app_assoc. reflexivity. }
  split; [apply Forall_app; split; assumption|].
  rewrite length_app. unfold NUM_RW_TESTS in *. split; lia.
Qed.

Lemma main_reports_no_failure_witness :
  let rand_values := example_rand in
  let fuel := Z.to_nat 100001 in
  let initWalletTest := fun st : @test_state small_store => st in
  let scanTestVectors :=
    fun (_ : String.string) (_ : Z) (st : @test_state small_store) => Some st in
  let st0 :=
    {| t_keys := example_keys; t_world := empty_world small_store ∅; t_rand := 0;
       succeeded := 0; failed := 0; t_out := [];
       what_storage_should_be := replicate 1024 0; buffer := replicate 256 0;
       one_key := replicate 32 0 |} in
  (NUM_RW_TESTS < Z.of_nat fuel /\ raw_accepts small_store 0 1008 /\
   draws_ok rand_values fuel (Z.to_nat NUM_RW_TESTS) 1024 /\
   length (nv_storage_encrypt_key (t_keys (initWalletTest st0))) = 16%nat /\
   length (nv_storage_tweak_key (t_keys (initWalletTest st0))) = 16%nat /\
   arrays_ok (initWalletTest st0) /\
   (forall file flag st, exists st',
      scanTestVectors file flag st = Some st' /\ t_keys st' = t_keys st /\
      what_storage_should_be st' = what_storage_should_be st /\ buffer st' = buffer st /\
      t_rand st' = t_rand st)) /\
  exists (scanned st' : test_state) (out : list report),
    after_scans initWalletTest scanTestVectors st0 = Some scanned /\
    @main shift_cipher small_store rand_values fuel initWalletTest scanTestVectors st0
      = Some st' /\
    t_out st' = t_out scanned ++ out ++ [Totals (succeeded st') (failed st')] /\
    Forall different_key_report out /\
    failed st' = failed scanned + Z.of_nat (length out) /\
    succeeded st' = succeeded scanned + (NUM_RW_TESTS + 32 - Z.of_nat (length out)).
Proof.
  cbv zeta.
  assert (H1 : NUM_RW_TESTS < Z.of_nat (Z.to_nat 100001)) by (unfold NUM_RW_TESTS; lia).
  assert (H2 : raw_accepts small_store 0 1008) by (apply array_store_accepts; lia).
  assert (H3 : draws_ok example_rand (Z.to_nat 100001) (Z.to_nat NUM_RW_TESTS) 1024)
    by (apply example_rand_draws; [lia|left; reflexivity]).
  assert (H6 : @arrays_ok small_store
                 {| t_keys := example_keys; t_world := empty_world small_store ∅; t_rand := 0;
                    succeeded := 0; failed := 0; t_out := [];
                    what_storage_should_be := replicate 1024 0; buffer := replicate 256 0;
                    one_key := replicate 32 0 |}).
  { unfold arrays_ok. cbn [what_storage_should_be buffer].
    rewrite !length_replicate.
    repeat split; try reflexivity; apply Forall_replicate; unfold is_byte; lia. }
  assert (H7 : forall (file : String.string) (flag : Z) (st : @test_state small_store),
             exists st', Some st = Some st' /\ t_keys st' = t_keys st /\
               what_storage_should_be st' = what_storage_should_be st /\
               buffer st' = buffer st /\ t_rand st' = t_rand st).
  { intros _ _ st. exists st. repeat split. }
  split; [split; [exact H1|split; [exact H2|split; [exact H3|
          split; [reflexivity|split; [reflexivity|split; [exact H6|exact H7]]]]]]|].
  apply (@main_reports_no_failure shift_cipher shift_cipher_laws small_store array_byte
           (array_store_laws 0 1024) example_rand (Z.to_nat 100001)
           (fun st => st) (fun _ _ st => Some st));
    [exact H1|exact H2|exact H3|reflexivity|reflexivity|exact H6|exact H7].
Defined.
